(** * Schedule risk engine: a shallow embedding of [app/services/risk_engine.py]

    The engine turns a list of schedule activities into a NetworkX [DiGraph],
    then runs three analyses on it: integrity validation, the critical path
    and a heuristic risk ranking.  Activities and results are the Pydantic
    models of [app/models.py].

    Python [str] is [string], Python [int] constrained by [Field(ge=0)] is
    [nat], insertion-ordered [dict]s are association lists. *)

From Stdlib Require Import List String Ascii Arith Bool Lia Permutation Sorted.
From Stdlib Require Import QArith DecimalString.
Import ListNotations.
Local Open Scope nat_scope.
Local Open Scope list_scope.

(* ================================================================== *)
(** ** Insertion-ordered dictionaries (Python [dict]) *)

Module Dict.
Section WithValue.
Context {V : Type}.

Definition t := list (string * V).

Definition empty : t := [].

(** [d.get(k)] *)
Fixpoint get (d : t) (k : string) : option V :=
  match d with
  | [] => None
  | (k', v) :: r => if String.eqb k' k then Some v else get r k
  end.

(** [k in d] *)
Definition contains (d : t) (k : string) : bool :=
  match get d k with Some _ => true | None => false end.

(** [d[k] = v]: an existing key keeps its position, a new key goes last. *)
Fixpoint set (d : t) (k : string) (v : V) : t :=
  match d with
  | [] => [(k, v)]
  | (k', v') :: r =>
      if String.eqb k' k then (k', v) :: r else (k', v') :: set r k v
  end.

Definition keys (d : t) : list string := map fst d.
Definition values (d : t) : list V := map snd d.
End WithValue.
Arguments t : clear implicits.
End Dict.

(** membership test on identifiers, [x in xs] *)
Definition mem (x : string) (xs : list string) : bool :=
  existsb (String.eqb x) xs.

(* ================================================================== *)
(** ** [app/models.py] *)

Inductive RiskLevel := LOW | MEDIUM | HIGH | CRITICAL.

Inductive ActivityStatus := NOT_STARTED | IN_PROGRESS | COMPLETED | DELAYED.

Definition status_value (s : ActivityStatus) : string :=
  match s with
  | NOT_STARTED => "not_started"
  | IN_PROGRESS => "in_progress"
  | COMPLETED => "completed"
  | DELAYED => "delayed"
  end%string.

(** [ScheduleActivity]; the date and resource fields play no part in the
    engine and are left out.  [duration_days] is [int] with [ge=0]. *)
Record ScheduleActivity := {
  id : string;
  name : string;
  duration_days : nat;
  status : ActivityStatus;
  predecessors : list string;
  successors : list string;
  trade : option string
}.

(** [ScheduleInput]; only the fields the engine reads.  The model requires
    at least one activity ([Field(min_length=1)]): the record does not
    carry that constraint, a property that depends on it assumes
    [activities schedule <> []]. *)
Record ScheduleInput := {
  project_name : string;
  activities : list ScheduleActivity
}.

Record CriticalPathInfo := {
  path_activities : list string;
  total_duration_days : nat;
  bottleneck_activity : option string;
  path_risk_level : RiskLevel
}.

(* ================================================================== *)
(** ** The part of NetworkX the engine uses *)

Module nx.

(** The attribute dictionary [build_graph] attaches to a node. *)
Record NodeAttrs := {
  attr_name : string;
  attr_duration : nat;
  attr_trade : string;
  attr_status : string
}.

(** A [DiGraph]: the node dictionary in insertion order (a node created by
    [add_edge] alone has no attributes), and the edges in insertion order.
    The adjacency dictionaries [_succ[u]] and [_pred[v]] are the edges
    filtered by source, resp. target, which keeps their insertion order. *)
Record DiGraph := {
  _node : Dict.t (option NodeAttrs);
  _edges : list (string * string)
}.

Definition empty_graph : DiGraph := {| _node := []; _edges := [] |}.

Definition nodes (G : DiGraph) : list string := Dict.keys (_node G).

Definition has_node (G : DiGraph) (n : string) : bool := mem n (nodes G).

Definition edge_eqb (e1 e2 : string * string) : bool :=
  String.eqb (fst e1) (fst e2) && String.eqb (snd e1) (snd e2).

Definition has_edge (G : DiGraph) (u v : string) : bool :=
  existsb (edge_eqb (u, v)) (_edges G).

(** [G.add_node(n, **attr)]: a known node has its attributes updated. *)
Definition add_node (G : DiGraph) (n : string) (a : NodeAttrs) : DiGraph :=
  {| _node := Dict.set (_node G) n (Some a); _edges := _edges G |}.

(** the implicit node creation of [add_edge] *)
Definition touch_node (G : DiGraph) (n : string) : DiGraph :=
  if has_node G n then G
  else {| _node := Dict.set (_node G) n None; _edges := _edges G |}.

(** [G.add_edge(u, v)] *)
Definition add_edge (G : DiGraph) (u v : string) : DiGraph :=
  let G' := touch_node (touch_node G u) v in
  if has_edge G' u v then G'
  else {| _node := _node G'; _edges := _edges G' ++ [(u, v)] |}.

Definition number_of_nodes (G : DiGraph) : nat := List.length (nodes G).
Definition number_of_edges (G : DiGraph) : nat := List.length (_edges G).

(** [G.successors(u)], i.e. the keys of [_succ[u]] *)
Definition successors (G : DiGraph) (u : string) : list string :=
  map snd (filter (fun e => String.eqb (fst e) u) (_edges G)).

(** the keys of [_pred[v]] *)
Definition predecessors_of (G : DiGraph) (v : string) : list string :=
  map fst (filter (fun e => String.eqb (snd e) v) (_edges G)).

Definition in_degree (G : DiGraph) (v : string) : nat :=
  List.length (predecessors_of G v).

Definition out_degree (G : DiGraph) (u : string) : nat :=
  List.length (successors G u).

(** *** [all_simple_paths(G, source, target)]

    NetworkX (3.2 and later) runs a depth-first search from [source] that
    follows the out-edges of the current node in adjacency order, skips the
    nodes already on the current path, yields the path whenever the next
    node is the target, and extends the search through the next node only
    while the path has fewer than [cutoff = len(G) - 1] nodes and the next
    node is not the target.  The search is started on a dummy edge into
    [source], so [source = target] yields the one-node path; the test
    [test_empty_schedule_handled] (one activity, total duration 100)
    relies on it.

    [visit fuel path v] is the search entered at [v] with [path] the nodes
    before it; [fuel] is [cutoff - len(path)].  NetworkX raises
    [NodeNotFound] for a source outside the graph; the engine only passes
    nodes of the graph. *)
Section SimplePaths.
Variable G : DiGraph.
Variable target : string.

Fixpoint visit (fuel : nat) (path : list string) (v : string)
  : list (list string) :=
  (if String.eqb v target then [path ++ [v]] else []) ++
  match fuel with
  | 0 => []
  | S fuel' =>
      if String.eqb v target then []
      else
        flat_map (visit fuel' (path ++ [v]))
                 (filter (fun w => negb (mem w (path ++ [v])))
                         (successors G v))
  end.
End SimplePaths.

Definition all_simple_paths (G : DiGraph) (source target : string)
  : list (list string) :=
  match number_of_nodes G with
  | 0 => []
  | S cutoff => visit G target cutoff [] source
  end.

(** [list] is empty *)
Definition is_nil {A : Type} (l : list A) : bool :=
  match l with [] => true | _ => false end.

(** *** [is_directed_acyclic_graph(G)]

    Documented contract: true exactly when the directed graph has no cycle.
    NetworkX decides it by trying to produce a topological order; here it is
    decided by looking for an edge [u -> v] that closes a simple path from
    [v] back to [u] (a self-loop closes the one-node path).  Theorem
    [is_directed_acyclic_graph_spec] below shows this is the contract. *)
Definition is_directed_acyclic_graph (G : DiGraph) : bool :=
  forallb (fun e => is_nil (all_simple_paths G (snd e) (fst e))) (_edges G).

(** the subgraph induced by [keep] *)
Definition subgraph (G : DiGraph) (keep : list string) : DiGraph :=
  {| _node := filter (fun kv => mem (fst kv) keep) (_node G);
     _edges := filter (fun e => mem (fst e) keep && mem (snd e) keep)
                      (_edges G) |}.

(** *** [simple_cycles(G)]

    Documented contract: every elementary circuit once, up to rotation
    (self-loops included).  Each circuit is listed here from its first node
    in insertion order: the circuits through [s] that avoid the nodes
    before [s] are the simple paths from [s] to a predecessor of [s] in the
    subgraph induced by [s] and the nodes after it.  The engine only takes
    the length of the list. *)
Fixpoint cycles_from (G : DiGraph) (order : list string)
  : list (list string) :=
  match order with
  | [] => []
  | s :: rest =>
      let H := subgraph G (s :: rest) in
      flat_map (all_simple_paths H s) (predecessors_of H s)
      ++ cycles_from G rest
  end.

Definition simple_cycles (G : DiGraph) : list (list string) :=
  cycles_from G (nodes G).

(** *** [G.to_undirected()]

    The undirected graph is kept as the symmetric directed graph on the
    same nodes: both orientations of every edge. *)
Definition to_undirected (G : DiGraph) : DiGraph :=
  {| _node := _node G;
     _edges := _edges G ++ map (fun e => (snd e, fst e)) (_edges G) |}.

(** the nodes reachable from [v] (what [_plain_bfs] collects), in node
    order *)
Definition node_connected_component (U : DiGraph) (v : string)
  : list string :=
  filter (fun u => negb (is_nil (all_simple_paths U v u))) (nodes U).

(** *** [connected_components(U)]

    [seen = set(); for v in U: if v not in seen: c = bfs(v); seen.update(c);
    yield c] *)
Fixpoint components_loop (U : DiGraph) (todo seen : list string)
  : list (list string) :=
  match todo with
  | [] => []
  | v :: rest =>
      if mem v seen then components_loop U rest seen
      else
        let c := node_connected_component U v in
        c :: components_loop U rest (seen ++ c)
  end.

Definition connected_components (U : DiGraph) : list (list string) :=
  components_loop U (nodes U) [].

End nx.

(* ================================================================== *)
(** ** [RiskEngine] *)

Record RiskEngine := {
  graph : option nx.DiGraph;
  engine_activities : Dict.t ScheduleActivity
}.

(** [RiskEngine.__init__] *)
Definition new_engine : RiskEngine :=
  {| graph := None; engine_activities := Dict.empty |}.

(** [activity.trade or "general"]: [None] and the empty string are falsy. *)
Definition trade_or_general (t : option string) : string :=
  match t with
  | Some EmptyString => "general"
  | Some s => s
  | None => "general"
  end%string.

Definition node_attrs (a : ScheduleActivity) : nx.NodeAttrs :=
  {| nx.attr_name := name a;
     nx.attr_duration := duration_days a;
     nx.attr_trade := trade_or_general (trade a);
     nx.attr_status := status_value (status a) |}.

(** [{a.id: a for a in schedule.activities}] *)
Definition index_activities (acts : list ScheduleActivity)
  : Dict.t ScheduleActivity :=
  fold_left (fun d a => Dict.set d (id a) a) acts Dict.empty.

(** the first loop of [build_graph] *)
Definition add_nodes (G : nx.DiGraph) (acts : list ScheduleActivity)
  : nx.DiGraph :=
  fold_left (fun g a => nx.add_node g (id a) (node_attrs a)) acts G.

(** the inner loop over [activity.predecessors] *)
Definition add_pred_edges (index : Dict.t ScheduleActivity)
  (G : nx.DiGraph) (a : ScheduleActivity) : nx.DiGraph :=
  fold_left
    (fun g pred_id =>
       if Dict.contains index pred_id then nx.add_edge g pred_id (id a)
       else g)
    (predecessors a) G.

(** the second loop of [build_graph] *)
Definition add_edges (index : Dict.t ScheduleActivity)
  (G : nx.DiGraph) (acts : list ScheduleActivity) : nx.DiGraph :=
  fold_left (add_pred_edges index) acts G.

(** [build_graph(self, schedule)]: returns the graph and the engine with
    both attributes overwritten. *)
Definition build_graph (self : RiskEngine) (schedule : ScheduleInput)
  : nx.DiGraph * RiskEngine :=
  let index := index_activities (activities schedule) in
  let G := add_nodes nx.empty_graph (activities schedule) in
  let G := add_edges index G (activities schedule) in
  (G, {| graph := Some G; engine_activities := index |}).

(** the graph [build_graph] returns *)
Definition schedule_graph (schedule : ScheduleInput) : nx.DiGraph :=
  fst (build_graph new_engine schedule).

(** the engine after [RiskEngine().build_graph(schedule)] *)
Definition built (schedule : ScheduleInput) : RiskEngine :=
  snd (build_graph new_engine schedule).

(** Python truthiness of [self.graph]: [None] is falsy, and so is a graph
    without nodes ([Graph.__len__]). *)
Definition graph_truthy (g : option nx.DiGraph) : option nx.DiGraph :=
  match g with
  | Some G => if nx.number_of_nodes G =? 0 then None else Some G
  | None => None
  end.

(** [sum(self.activities[a].duration_days for a in path if a in self.activities)] *)
Definition path_duration (index : Dict.t ScheduleActivity)
  (path : list string) : nat :=
  list_sum
    (map (fun a => match Dict.get index a with
                   | Some act => duration_days act
                   | None => 0
                   end) path).

(** [_assess_path_risk] *)
Definition _assess_path_risk (index : Dict.t ScheduleActivity)
  (path : list string) : RiskLevel :=
  match path with
  | [] => LOW
  | _ =>
      let total_duration := path_duration index path in
      if 365 <? total_duration then CRITICAL
      else if 180 <? total_duration then HIGH
      else if 90 <? total_duration then MEDIUM
      else LOW
  end.

Definition sources (G : nx.DiGraph) : list string :=
  filter (fun n => nx.in_degree G n =? 0) (nx.nodes G).

Definition sinks (G : nx.DiGraph) : list string :=
  filter (fun n => nx.out_degree G n =? 0) (nx.nodes G).

(** every path the three nested loops of [find_critical_path] look at, in
    the order they look at it *)
Definition candidate_paths (G : nx.DiGraph) : list (list string) :=
  flat_map
    (fun source =>
       flat_map (fun sink => nx.all_simple_paths G source sink) (sinks G))
    (sources G).

(** the body of the innermost loop, on the pair
    [(longest_path, longest_duration)] *)
Definition keep_longer (index : Dict.t ScheduleActivity)
  (acc : list string * nat) (path : list string) : list string * nat :=
  let duration := path_duration index path in
  if snd acc <? duration then (path, duration) else acc.

Definition longest (index : Dict.t ScheduleActivity)
  (paths : list (list string)) : list string * nat :=
  fold_left (keep_longer index) paths ([], 0).

(** the bottleneck loop, on the pair [(bottleneck, max_duration)] *)
Definition bottleneck_step (index : Dict.t ScheduleActivity)
  (acc : option string * nat) (activity_id : string) : option string * nat :=
  match Dict.get index activity_id with
  | Some act =>
      if snd acc <? duration_days act
      then (Some activity_id, duration_days act)
      else acc
  | None => acc
  end.

Definition find_bottleneck (index : Dict.t ScheduleActivity)
  (path : list string) : option string :=
  fst (fold_left (bottleneck_step index) path (None, 0)).

Definition empty_result : CriticalPathInfo :=
  {| path_activities := [];
     total_duration_days := 0;
     bottleneck_activity := None;
     path_risk_level := LOW |}.

(** the result of the branch [if not sources or not sinks] *)
Definition fallback_result (self : RiskEngine) (G : nx.DiGraph)
  : CriticalPathInfo :=
  let all_ids := nx.nodes G in
  {| path_activities := all_ids;
     total_duration_days := path_duration (engine_activities self) all_ids;
     bottleneck_activity := None;
     path_risk_level := MEDIUM |}.

(** the rest of [find_critical_path]: the three loops, the bottleneck and
    the risk level *)
Definition longest_path_result (self : RiskEngine) (G : nx.DiGraph)
  : CriticalPathInfo :=
  let '(longest_path, longest_duration) :=
    longest (engine_activities self) (candidate_paths G) in
  {| path_activities := longest_path;
     total_duration_days := longest_duration;
     bottleneck_activity :=
       find_bottleneck (engine_activities self) longest_path;
     path_risk_level :=
       _assess_path_risk (engine_activities self) longest_path |}.

(** how many times the body of the innermost loop runs *)
Definition paths_examined (G : nx.DiGraph) : nat :=
  List.length (candidate_paths G).

(** [find_critical_path(self)] *)
Definition find_critical_path (self : RiskEngine) : CriticalPathInfo :=
  match graph_truthy (graph self) with
  | None => empty_result
  | Some G =>
      if nx.number_of_nodes G =? 0 then empty_result
      else
        match sources G, sinks G with
        | [], _ | _, [] => fallback_result self G
        | _, _ => longest_path_result self G
        end
  end.

(* ------------------------------------------------------------------ *)
(** *** [validate_schedule_integrity] *)

(** The messages the function can produce: one constructor per f-string,
    its arguments the values interpolated into it. *)
Inductive Issue :=
| NoGraphBuilt
    (* "No schedule graph built" *)
| CircularDependency (cycles : nat)
    (* "Schedule contains {n} circular dependency cycle(s) ..." *)
| DisconnectedGroups (components : nat)
    (* "Schedule has {n} disconnected groups ..." *)
| ZeroDuration (count : nat)
    (* "{n} activities have zero duration ..." *)
| IsolatedActivity (node : string).
    (* "Activity '{node}' is completely isolated ..." *)

Definition cycle_issues (G : nx.DiGraph) : list Issue :=
  if nx.is_directed_acyclic_graph G then []
  else [CircularDependency (List.length (nx.simple_cycles G))].

Definition component_issues (G : nx.DiGraph) : list Issue :=
  let undirected := nx.to_undirected G in
  let components := nx.connected_components undirected in
  if 1 <? List.length components
  then [DisconnectedGroups (List.length components)]
  else [].

Definition zero_duration_ids (index : Dict.t ScheduleActivity)
  : list string :=
  map id (filter (fun a => duration_days a =? 0) (Dict.values index)).

Definition zero_duration_issues (index : Dict.t ScheduleActivity)
  : list Issue :=
  match zero_duration_ids index with
  | [] => []
  | zero_duration => [ZeroDuration (List.length zero_duration)]
  end.

Definition is_isolated (G : nx.DiGraph) (node : string) : bool :=
  (nx.in_degree G node =? 0) && (nx.out_degree G node =? 0).

Definition isolated_issues (G : nx.DiGraph) : list Issue :=
  map IsolatedActivity (filter (is_isolated G) (nx.nodes G)).

Definition validate_schedule_integrity (self : RiskEngine) : list Issue :=
  match graph_truthy (graph self) with
  | None => [NoGraphBuilt]
  | Some G =>
      cycle_issues G ++ component_issues G
      ++ zero_duration_issues (engine_activities self)
      ++ isolated_issues G
  end.

(* ------------------------------------------------------------------ *)
(** *** [find_high_risk_activities] *)

(** The scores are Python floats.  The arithmetic the function performs on
    them, and the NetworkX centrality it adds in, are kept behind an
    interface: the ranking below only compares scores.  [n / m] on ints
    raises [OverflowError] when the quotient is beyond the float range;
    [truediv] is the quotient when it does not, [truediv_overflows] below
    says when it does, and [run_find_high_risk_activities] is the call
    with its exception. *)
Record Numerics := {
  float : Type;
  of_int : nat -> float;               (* float(n) *)
  truediv : nat -> nat -> float;       (* n / m on ints *)
  fadd : float -> float -> float;
  fmul : float -> float -> float;
  flt : float -> float -> bool;        (* x < y *)
  f0_0 : float;
  f0_3 : float;
  f0_4 : float;
  f2_0 : float;
  betweenness_centrality : nx.DiGraph -> string -> float
}.

Section RiskScore.
Variable N : Numerics.

(** builtin [min(x, y)]: the first argument unless the second is smaller *)
Definition fmin (x y : float N) : float N :=
  if flt N y x then y else x.

(** the loop body of [find_high_risk_activities] for one node: the score
    it computes when the division does not raise ([risk_score_overflows]
    below says when it does) *)
Definition risk_score (G : nx.DiGraph) (index : Dict.t ScheduleActivity)
  (node : string) : float N :=
  let score := f0_0 N in
  let score := fadd N score (fmul N (of_int N (nx.out_degree G node)) (f0_3 N)) in
  let score :=
    match Dict.get index node with
    | Some duration =>
        fadd N score
          (fmul N (fmin (truediv N (duration_days duration) 30) (f2_0 N))
                  (f0_4 N))
    | None => score
    end in
  let score :=
    if nx.number_of_nodes G <? 500
    then fadd N score (fmul N (betweenness_centrality N G node) (f0_3 N))
    else score in
  score.

(** [sorted(items, key=lambda x: x[1], reverse=True)]: a stable sort,
    larger scores first; an item goes in front of the first item whose
    score is not larger than its own. *)
Fixpoint insert_desc (x : string * float N) (l : list (string * float N))
  : list (string * float N) :=
  match l with
  | [] => [x]
  | y :: r =>
      if flt N (snd x) (snd y) then y :: insert_desc x r else x :: y :: r
  end.

Fixpoint sorted_desc (l : list (string * float N))
  : list (string * float N) :=
  match l with
  | [] => []
  | x :: r => insert_desc x (sorted_desc r)
  end.

Definition risk_scores (G : nx.DiGraph) (index : Dict.t ScheduleActivity)
  : Dict.t (float N) :=
  map (fun node => (node, risk_score G index node)) (nx.nodes G).

Definition find_high_risk_activities (self : RiskEngine) : list string :=
  match graph_truthy (graph self) with
  | None => []
  | Some G =>
      let sorted_activities :=
        sorted_desc (risk_scores G (engine_activities self)) in
      let top_count := Nat.max 1 (List.length sorted_activities / 5) in
      map fst (firstn top_count sorted_activities)
  end.
End RiskScore.

(** *** The [OverflowError] of [find_high_risk_activities]

    [duration.duration_days / 30] stands outside the [try]; a duration has
    no upper bound. *)

(** [n / m] on ints, [m > 0], raises [OverflowError]: the quotient rounded
    to the nearest float is beyond the largest one, which is the case from
    [2^1024 - 2^970] on *)
Definition truediv_overflows (n m : nat) : bool :=
  ((2 ^ 1024 - 2 ^ 970) * Z.of_nat m <=? Z.of_nat n)%Z.

(** the loop body raises for [node] *)
Definition risk_score_overflows (index : Dict.t ScheduleActivity)
  (node : string) : bool :=
  match Dict.get index node with
  | Some duration => truediv_overflows (duration_days duration) 30
  | None => false
  end.

(** the loop of [find_high_risk_activities] raises at some node *)
Definition find_high_risk_activities_raises (self : RiskEngine) : bool :=
  match graph_truthy (graph self) with
  | None => false
  | Some G => existsb (risk_score_overflows (engine_activities self))
                      (nx.nodes G)
  end.

(** a call of [find_high_risk_activities]: [None] is the [OverflowError],
    otherwise the list above is returned *)
Definition run_find_high_risk_activities (N : Numerics) (self : RiskEngine)
  : option (list string) :=
  if find_high_risk_activities_raises self then None
  else Some (find_high_risk_activities N self).

(** every duration of the schedule, divided by 30, is a float *)
Definition durations_in_float_range (schedule : ScheduleInput) : bool :=
  forallb (fun a => negb (truediv_overflows (duration_days a) 30))
          (activities schedule).

(** *** Notions for the ranking *)

(** [<] on scores orders them, ties allowed: it is asymmetric and "not
    smaller" is transitive (true of floats that are not NaN) *)
Definition strict_weak_order (N : Numerics) : Prop :=
  (forall x y, flt N x y = true -> flt N y x = false) /\
  (forall x y z, flt N x y = false -> flt N y z = false -> flt N x z = false).



(** Exact rational arithmetic as scores, for graphs in which no node lies
    strictly inside a shortest path, where every betweenness centrality is
    zero. *)
Definition rational_numerics : Numerics :=
  {| float := Q;
     of_int := fun n => inject_Z (Z.of_nat n);
     truediv := fun n m => Qmake (Z.of_nat n) (Pos.of_nat m);
     fadd := Qplus;
     fmul := Qmult;
     flt := fun x y => negb (Qle_bool y x);
     f0_0 := 0%Q;
     f0_3 := Qmake 3 10;
     f0_4 := Qmake 4 10;
     f2_0 := 2%Q;
     betweenness_centrality := fun _ _ => 0%Q |}.

(* ================================================================== *)
(** ** Graph notions the properties are stated with *)

Definition edge (G : nx.DiGraph) (u v : string) : Prop :=
  In (u, v) (nx._edges G).

(** consecutive nodes of [p] are joined by edges *)
Fixpoint chain (G : nx.DiGraph) (p : list string) : Prop :=
  match p with
  | [] => True
  | u :: r =>
      match r with
      | [] => True
      | v :: _ => edge G u v /\ chain G r
      end
  end.

Definition starts_at (p : list string) (s : string) : Prop :=
  exists r, p = s :: r.

Definition ends_at (p : list string) (t : string) : Prop :=
  exists q, p = q ++ [t].

(** a simple path from [s] to [t]: a chain of edges through pairwise
    distinct nodes of the graph; [s] alone is the simple path from [s] to
    [s] *)
Definition simple_path (G : nx.DiGraph) (s t : string) (p : list string)
  : Prop :=
  starts_at p s /\ ends_at p t /\ chain G p /\ NoDup p
  /\ incl p (nx.nodes G).

(** [v] can be reached from [u] along one edge or more *)
Inductive reachable (G : nx.DiGraph) : string -> string -> Prop :=
| reach_edge u v : edge G u v -> reachable G u v
| reach_step u w v : edge G u w -> reachable G w v -> reachable G u v.

Definition has_cycle (G : nx.DiGraph) : Prop :=
  exists v, reachable G v v.

(** joined by edges taken in either direction *)
Definition connected (G : nx.DiGraph) (u v : string) : Prop :=
  u = v \/ reachable (nx.to_undirected G) u v.

Definition disconnected (G : nx.DiGraph) : Prop :=
  exists u v, In u (nx.nodes G) /\ In v (nx.nodes G) /\ ~ connected G u v.

Definition is_source (G : nx.DiGraph) (n : string) : Prop :=
  In n (nx.nodes G) /\ nx.in_degree G n = 0.

Definition is_sink (G : nx.DiGraph) (n : string) : Prop :=
  In n (nx.nodes G) /\ nx.out_degree G n = 0.

Definition source_to_sink_path (G : nx.DiGraph) (p : list string) : Prop :=
  exists s t, is_source G s /\ is_sink G t /\ simple_path G s t p.

(** the [duration] attribute of a node *)
Definition node_duration (G : nx.DiGraph) (n : string) : nat :=
  match Dict.get (nx._node G) n with
  | Some (Some a) => nx.attr_duration a
  | _ => 0
  end.

(** some activity of the graph has duration zero *)
Definition has_milestone (G : nx.DiGraph) : Prop :=
  exists k, In k (nx.nodes G) /\ node_duration G k = 0.

(** the sum of the durations of the activities on a path *)
Definition path_weight (G : nx.DiGraph) (p : list string) : nat :=
  list_sum (map (node_duration G) p).

(** [d] is the maximum of [path_weight] over the source-to-sink simple
    paths *)
Definition max_source_to_sink_duration (G : nx.DiGraph) (d : nat) : Prop :=
  (exists p, source_to_sink_path G p /\ path_weight G p = d) /\
  (forall p, source_to_sink_path G p -> path_weight G p <= d).

(** every edge joins two nodes of the graph: the invariant [add_edge]
    keeps *)
Definition well_formed (G : nx.DiGraph) : Prop :=
  forall u v, edge G u v -> In u (nx.nodes G) /\ In v (nx.nodes G).

(** every indexed activity is a node: what the node loop of [build_graph]
    establishes before the edge loops run *)
Definition nodes_cover (index : Dict.t ScheduleActivity) (G : nx.DiGraph)
  : Prop :=
  forall k, Dict.contains index k = true -> In k (nx.nodes G).

(** *** Notions for the bottleneck *)

Section Bottleneck.
Variable index : Dict.t ScheduleActivity.

(** the duration the engine finds for an identifier in its index *)
Definition indexed_duration (k : string) : nat :=
  match Dict.get index k with
  | Some act => duration_days act
  | None => 0
  end.

(** [b] is the first node of [p] of largest duration *)
Definition first_longest (p : list string) (b : string) : Prop :=
  exists l1 l2,
    p = l1 ++ b :: l2 /\
    (forall x, In x l1 -> indexed_duration x < indexed_duration b) /\
    (forall x, In x l2 -> indexed_duration x <= indexed_duration b).

(** the invariant of the bottleneck loop after the nodes [seen] *)
Definition bottleneck_inv (seen : list string) (acc : option string * nat)
  : Prop :=
  match fst acc with
  | None => snd acc = 0 /\ forall x, In x seen -> indexed_duration x = 0
  | Some b =>
      snd acc = indexed_duration b /\ 0 < snd acc /\ first_longest seen b
  end.
End Bottleneck.

(* ================================================================== *)
(** ** The schedules of [tests/test_risk_engine.py] *)

Definition activity (i : string) (d : nat) (preds : list string)
  : ScheduleActivity :=
  {| id := i; name := i; duration_days := d; status := NOT_STARTED;
     predecessors := preds; successors := []; trade := None |}.

Definition schedule_of (acts : list ScheduleActivity) : ScheduleInput :=
  {| project_name := "Project"; activities := acts |}.

Definition linear_schedule : ScheduleInput :=
  {| project_name := "Linear Project";
     activities := [activity "A" 20 []; activity "B" 40 ["A"];
                    activity "C" 30 ["B"]]%string |}.

Definition parallel_schedule : ScheduleInput :=
  {| project_name := "Parallel Project";
     activities := [activity "A" 10 []; activity "B" 60 ["A"];
                    activity "C" 30 ["A"]; activity "D" 14 ["B"; "C"]]%string |}.

(** two activities that wait for each other: no source, no sink *)
Definition deadlock_schedule : ScheduleInput :=
  schedule_of [activity "A" 10 ["B"]; activity "B" 20 ["A"]]%string.

(** a cycle [B -> C -> B] between a source [A] and a sink [D], and an
    unrelated activity [E] *)
Definition loop_schedule : ScheduleInput :=
  schedule_of [activity "A" 1 []; activity "B" 1 ["A"; "C"];
               activity "C" 1 ["B"]; activity "D" 1 ["C"];
               activity "E" 1 []]%string.

(** milestones only *)
Definition milestone_schedule : ScheduleInput :=
  schedule_of [activity "M1" 0 []; activity "M2" 0 ["M1"]]%string.

(** one activity that names itself as its predecessor *)
Definition self_reference_schedule : ScheduleInput :=
  schedule_of [activity "A" 5 ["A"]]%string.

(** six unrelated activities *)
Definition six_schedule : ScheduleInput :=
  schedule_of [activity "A" 1 []; activity "B" 2 []; activity "C" 3 [];
               activity "D" 4 []; activity "E" 5 []; activity "F" 6 []]%string.

(** *** A chain of [k] diamonds

    [S0 -> {B0, C0} -> S1 -> {B1, C1} -> S2 -> ... -> Sk]; the level is
    written in unary after the letter. *)
Fixpoint tally (i : nat) : string :=
  match i with
  | 0 => EmptyString
  | S j => String "x" (tally j)
  end.

Definition S_ (i : nat) : string := String "S" (tally i).
Definition B_ (i : nat) : string := String "B" (tally i).
Definition C_ (i : nat) : string := String "C" (tally i).

Definition stage (i : nat) : list ScheduleActivity :=
  [activity (B_ i) 1 [S_ i]; activity (C_ i) 1 [S_ i];
   activity (S_ (S i)) 1 [B_ i; C_ i]].

Definition ladder (k : nat) : ScheduleInput :=
  schedule_of (activity (S_ 0) 1 [] :: flat_map stage (seq 0 k)).

(** the path through the ladder from level [i] that takes the [B] side
    where [choices] says [true] *)
Fixpoint ladder_path (i : nat) (choices : list bool) : list string :=
  match choices with
  | [] => [S_ i]
  | b :: r => S_ i :: (if b then B_ i else C_ i) :: ladder_path (S i) r
  end.

(** every list of [k] booleans *)
Fixpoint all_choices (k : nat) : list (list bool) :=
  match k with
  | 0 => [[]]
  | S j => map (cons true) (all_choices j) ++ map (cons false) (all_choices j)
  end.

(** the position of a ladder identifier in the schedule *)
Definition ladder_rank (s : string) : nat :=
  match s with
  | EmptyString => 0
  | String c r =>
      3 * String.length r
      + (if Ascii.eqb c "B" then 1 else if Ascii.eqb c "C" then 2 else 0)
  end.

(* ================================================================== *)
(** ** Notions for further properties of the engine *)

(** the distinct elements of a list, each at its first position: the
    order in which a [dict] holds the keys it was given *)
Definition first_occurrences (l : list string) : list string :=
  fold_left (fun acc x => if mem x acc then acc else acc ++ [x]) l [].

(** the last activity of the input that has the identifier [k] *)
Definition last_with_id (acts : list ScheduleActivity) (k : string)
  : option ScheduleActivity :=
  find (fun a => String.eqb (id a) k) (rev acts).

(** the graph with every edge turned round *)
Definition transpose (G : nx.DiGraph) : nx.DiGraph :=
  {| nx._node := nx._node G;
     nx._edges := map (fun e => (snd e, fst e)) (nx._edges G) |}.


(** the activity with its [successors] replaced by [g a] *)
Definition with_successors (g : ScheduleActivity -> list string)
  (a : ScheduleActivity) : ScheduleActivity :=
  {| id := id a; name := name a; duration_days := duration_days a;
     status := status a; predecessors := predecessors a;
     successors := g a; trade := trade a |}.

(** the schedule with the [successors] of every activity replaced *)
Definition replace_successors (g : ScheduleActivity -> list string)
  (schedule : ScheduleInput) : ScheduleInput :=
  {| project_name := project_name schedule;
     activities := map (with_successors g) (activities schedule) |}.

(** [f] applied to every value of a dictionary *)
Definition map_values {V W : Type} (f : V -> W) (d : Dict.t V) : Dict.t W :=
  map (fun kv => (fst kv, f (snd kv))) d.

(* ================================================================== *)
(** ** [app/models.py]: the validators *)

(** [c.isspace()] for one character; characters are code points below
    256, where Python counts as whitespace the controls 9 to 13 and 28 to
    31, the space, NEL (133) and the no-break space (160) *)
Definition isspace (c : ascii) : bool :=
  let n := nat_of_ascii c in
  ((9 <=? n) && (n <=? 13)) || ((28 <=? n) && (n <=? 32))
  || (n =? 133) || (n =? 160).

(** [v.split()]: the maximal runs of characters that are not whitespace;
    [word] is the run being read *)
Fixpoint split_whitespace (word s : string) : list string :=
  match s with
  | EmptyString =>
      match word with EmptyString => [] | _ => [word] end
  | String c r =>
      if isspace c then
        match word with
        | EmptyString => split_whitespace EmptyString r
        | _ => word :: split_whitespace EmptyString r
        end
      else split_whitespace (word ++ String c EmptyString) r
  end.

Definition str_split (v : string) : list string :=
  split_whitespace EmptyString v.

(** [ScheduleActivity.clean_activity_name]: [" ".join(v.split())] *)
Definition clean_activity_name (v : string) : string :=
  String.concat " " (str_split v).

(** the [ValueError] of [validate_dependency_references]: "Activity
    '{activity_id}' references unknown predecessor '{pred_id}'" *)
Inductive ValueError :=
| UnknownPredecessor (activity_id pred_id : string).

(** the inner loop of [validate_dependency_references] *)
Fixpoint check_predecessors (valid_ids : list string) (activity_id : string)
  (preds : list string) : option ValueError :=
  match preds with
  | [] => None
  | pred_id :: rest =>
      if mem pred_id valid_ids
      then check_predecessors valid_ids activity_id rest
      else Some (UnknownPredecessor activity_id pred_id)
  end.

(** the outer loop *)
Fixpoint check_activities (valid_ids : list string)
  (acts : list ScheduleActivity) : option ValueError :=
  match acts with
  | [] => None
  | a :: rest =>
      match check_predecessors valid_ids (id a) (predecessors a) with
      | Some e => Some e
      | None => check_activities valid_ids rest
      end
  end.

(** [ScheduleInput.validate_dependency_references]: raises, or returns the
    activities *)
Definition validate_dependency_references (acts : list ScheduleActivity)
  : ValueError + list ScheduleActivity :=
  let valid_ids := map id acts in
  match check_activities valid_ids acts with
  | Some e => inl e
  | None => inr acts
  end.

(** *** Notions for the name cleaning *)

Fixpoint has_whitespace (s : string) : bool :=
  match s with
  | EmptyString => false
  | String c r => isspace c || has_whitespace r
  end.

(** the string without its whitespace characters *)
Fixpoint remove_whitespace (s : string) : string :=
  match s with
  | EmptyString => EmptyString
  | String c r =>
      if isspace c then remove_whitespace r else String c (remove_whitespace r)
  end.

(** a word: not empty, no whitespace in it *)
Definition is_word (w : string) : Prop :=
  w <> EmptyString /\ has_whitespace w = false.

(* ================================================================== *)
(** ** [app/services/llm_client.py]: checking what the model answered *)

(** What [json.loads] returns: [None], [bool], [int], [float], [str],
    [list] and [dict] with string keys. *)
#[local] Unset Elimination Schemes.
Inductive json (F : Type) : Type :=
| JNull
| JBool (b : bool)
| JInt (n : Z)
| JFloat (x : F)
| JStr (s : string)
| JList (l : list (json F))
| JDict (d : list (string * json F)).
#[local] Set Elimination Schemes.

Arguments JNull {F}.
Arguments JBool {F} b.
Arguments JInt {F} n.
Arguments JFloat {F} x.
Arguments JStr {F} s.
Arguments JList {F} l.
Arguments JDict {F} d.

(** Python floats as the validation code uses them: comparison, three
    literals (and the two of the fallback report), and the conversions
    [float()] and [int()], which fail on some arguments ([ValueError],
    [OverflowError]). *)
Record PyFloat := {
  pyfloat : Type;
  float_lt : pyfloat -> pyfloat -> bool;
  float_0_0 : pyfloat;
  float_0_3 : pyfloat;
  float_0_5 : pyfloat;
  float_0_6 : pyfloat;
  float_1_0 : pyfloat;
  float_of_int : Z -> option pyfloat;       (* float(n) *)
  float_of_str : string -> option pyfloat;  (* float(s) *)
  int_of_float : pyfloat -> option Z;       (* int(x) *)
  int_of_str : string -> option Z           (* int(s) *)
}.

(** the exceptions the validation can end in *)
Inductive PyError :=
| AttributeError   (* [.get] on something that is not a dict *)
| TypeError        (* unhashable, not iterable, or not a number *)
| ConversionError. (* [ValueError] or [OverflowError] of [float()], [int()] *)

Inductive result (A : Type) : Type :=
| Ok (a : A)
| Raise (e : PyError).

Arguments Ok {A} a.
Arguments Raise {A} e.

Definition bind {A B : Type} (r : result A) (k : A -> result B) : result B :=
  match r with
  | Ok a => k a
  | Raise e => Raise e
  end.

Notation "x <- r ;; k" := (bind r (fun x => k))
  (at level 61, r at next level, right associativity).

Definition convert {A : Type} (o : option A) : result A :=
  match o with
  | Some a => Ok a
  | None => Raise ConversionError
  end.

Definition valid_risk_levels : list string :=
  ["low"; "medium"; "high"; "critical"]%string.

Section LLMOutput.
Variable P : PyFloat.

(** [d.get(k)] *)
Definition py_get (d : Dict.t (json (pyfloat P))) (k : string)
  : json (pyfloat P) :=
  match Dict.get d k with
  | Some v => v
  | None => JNull
  end.

(** [d.get(k, default)] *)
Definition py_get_default (d : Dict.t (json (pyfloat P))) (k : string)
  (default : json (pyfloat P)) : json (pyfloat P) :=
  match Dict.get d k with
  | Some v => v
  | None => default
  end.

(** [x in s] for a set [s] of strings: lists and dicts cannot be hashed *)
Definition in_strings (x : json (pyfloat P)) (s : list string) : result bool :=
  match x with
  | JStr v => Ok (mem v s)
  | JList _ | JDict _ => Raise TypeError
  | JNull | JBool _ | JInt _ | JFloat _ => Ok false
  end.

(** [float(x)] *)
Definition py_float (x : json (pyfloat P)) : result (pyfloat P) :=
  match x with
  | JFloat v => Ok v
  | JInt n => convert (float_of_int P n)
  | JBool b => Ok (if b then float_1_0 P else float_0_0 P)
  | JStr s => convert (float_of_str P s)
  | JNull | JList _ | JDict _ => Raise TypeError
  end.

(** [int(x)] *)
Definition py_int (x : json (pyfloat P)) : result Z :=
  match x with
  | JInt n => Ok n
  | JBool b => Ok (if b then 1 else 0)%Z
  | JFloat v => convert (int_of_float P v)
  | JStr s => convert (int_of_str P s)
  | JNull | JList _ | JDict _ => Raise TypeError
  end.

(** builtin [min(a, b)] and [max(a, b)] on floats: the first argument
    unless the second is smaller, resp. larger *)
Definition py_min (a b : pyfloat P) : pyfloat P :=
  if float_lt P b a then b else a.

Definition py_max (a b : pyfloat P) : pyfloat P :=
  if float_lt P a b then b else a.

(** [max(0.0, min(1.0, x))] *)
Definition clamp_unit (x : pyfloat P) : pyfloat P :=
  py_max (float_0_0 P) (py_min (float_1_0 P) x).

(** what a [for] loop over [x] goes through: the items of a list, the
    characters of a string, the keys of a dict *)
Definition py_iter (x : json (pyfloat P)) : result (list (json (pyfloat P))) :=
  match x with
  | JList l => Ok l
  | JStr s => Ok (map (fun c => JStr (String c EmptyString))
                      (list_ascii_of_string s))
  | JDict d => Ok (map (fun kv => JStr (fst kv)) d)
  | JNull | JBool _ | JInt _ | JFloat _ => Raise TypeError
  end.

(** the body of the loop over the activity risks: the checked risk, or
    nothing when the activity is unknown *)
Definition validate_risk (valid_activity_ids : list string)
  (risk : json (pyfloat P)) : result (option (json (pyfloat P))) :=
  match risk with
  | JDict r =>
      known <- in_strings (py_get r "activity_id") valid_activity_ids ;;
      if known then
        p <- py_float (py_get_default r "delay_probability"
                         (JFloat (float_0_5 P))) ;;
        let r := Dict.set r "delay_probability" (JFloat (clamp_unit p)) in
        n <- py_int (py_get_default r "estimated_delay_days" (JInt 0)) ;;
        let r := Dict.set r "estimated_delay_days" (JInt (Z.max 0 n)) in
        level_ok <- in_strings (py_get r "risk_level") valid_risk_levels ;;
        let r := if level_ok then r
                 else Dict.set r "risk_level" (JStr "medium") in
        Ok (Some (JDict r))
      else Ok None
  | _ => Raise AttributeError
  end.

Fixpoint validate_risks (valid_activity_ids : list string)
  (risks : list (json (pyfloat P))) : result (list (json (pyfloat P))) :=
  match risks with
  | [] => Ok []
  | risk :: rest =>
      checked <- validate_risk valid_activity_ids risk ;;
      validated_risks <- validate_risks valid_activity_ids rest ;;
      Ok (match checked with
          | Some r => r :: validated_risks
          | None => validated_risks
          end)
  end.

(** [if not isinstance(data.get(key), list): data[key] = []] *)
Definition ensure_list (d : Dict.t (json (pyfloat P))) (key : string)
  : Dict.t (json (pyfloat P)) :=
  match py_get d key with
  | JList _ => d
  | _ => Dict.set d key (JList [])
  end.

(** [LLMClient._validate_llm_output] *)
Definition _validate_llm_output (data : json (pyfloat P))
  (schedule : ScheduleInput) : result (json (pyfloat P)) :=
  let valid_activity_ids := map id (activities schedule) in
  match data with
  | JDict d =>
      level_ok <- in_strings (py_get d "overall_risk_level")
                    valid_risk_levels ;;
      let d := if level_ok then d
               else Dict.set d "overall_risk_level" (JStr "medium") in
      conf <- py_float (py_get_default d "confidence_score"
                          (JFloat (float_0_5 P))) ;;
      let d := Dict.set d "confidence_score" (JFloat (clamp_unit conf)) in
      risks <- py_iter (py_get_default d "activity_risks" (JList [])) ;;
      validated_risks <- validate_risks valid_activity_ids risks ;;
      let d := Dict.set d "activity_risks" (JList validated_risks) in
      let d := ensure_list d "key_risks" in
      let d := ensure_list d "recommendations" in
      Ok (JDict d)
  | _ => Raise AttributeError
  end.

(** *** Notions for the checked answer *)

(** [<] is asymmetric and [0.0 < 1.0] *)
Definition float_order : Prop :=
  (forall x y, float_lt P x y = true -> float_lt P y x = false) /\
  float_lt P (float_0_0 P) (float_1_0 P) = true.

(** neither below [0.0] nor above [1.0] *)
Definition in_unit_interval (x : pyfloat P) : Prop :=
  float_lt P x (float_0_0 P) = false /\ float_lt P (float_1_0 P) x = false.

(** a risk entry as the checks leave it *)
Definition checked_risk (valid_activity_ids : list string)
  (risk : json (pyfloat P)) : Prop :=
  exists r activity level p n,
    risk = JDict r /\
    Dict.get r "activity_id" = Some (JStr activity) /\
    In activity valid_activity_ids /\
    Dict.get r "delay_probability" = Some (JFloat p) /\
    in_unit_interval p /\
    Dict.get r "estimated_delay_days" = Some (JInt n) /\
    (0 <= n)%Z /\
    Dict.get r "risk_level" = Some (JStr level) /\
    In level valid_risk_levels.

(** the activity a risk entry names *)
Definition risk_activity (risk : json (pyfloat P)) : option string :=
  match risk with
  | JDict r =>
      match Dict.get r "activity_id" with
      | Some (JStr s) => Some s
      | _ => None
      end
  | _ => None
  end.

(** the keys [_validate_llm_output] assigns to *)
Definition checked_keys : list string :=
  ["overall_risk_level"; "confidence_score"; "activity_risks";
   "key_risks"; "recommendations"]%string.

(** the keys the loop over the activity risks assigns to *)
Definition checked_risk_keys : list string :=
  ["delay_probability"; "estimated_delay_days"; "risk_level"]%string.

(** the entry names an activity of the schedule *)
Definition known_risk (valid_activity_ids : list string)
  (risk : json (pyfloat P)) : bool :=
  match risk_activity risk with
  | Some s => mem s valid_activity_ids
  | None => false
  end.

(** two dicts that agree on every key outside [keys] *)
Definition same_elsewhere (keys : list string) (x y : json (pyfloat P))
  : Prop :=
  exists d d',
    x = JDict d /\ y = JDict d' /\
    forall k, ~ In k keys -> Dict.get d' k = Dict.get d k.
End LLMOutput.

(* ================================================================== *)
(** ** [app/services/llm_client.py]: reading the text of the answer *)

(** the [str] methods [_parse_llm_json] calls *)

(** [s.lstrip()] *)
Fixpoint lstrip (s : string) : string :=
  match s with
  | EmptyString => EmptyString
  | String c r => if isspace c then lstrip r else s
  end.

(** [s.rstrip()] *)
Fixpoint rstrip (s : string) : string :=
  match s with
  | EmptyString => EmptyString
  | String c r =>
      match rstrip r with
      | EmptyString => if isspace c then EmptyString else String c EmptyString
      | r' => String c r'
      end
  end.

(** [s.strip()] *)
Definition strip (s : string) : string := lstrip (rstrip s).

(** [s.startswith(p)] *)
Definition startswith (p s : string) : bool := String.prefix p s.

(** [s.endswith(p)]: some suffix of [s] is [p] *)
Fixpoint endswith (p s : string) : bool :=
  String.eqb p s
  || match s with
     | EmptyString => false
     | String _ r => endswith p r
     end.

(** [s.find(p)]: the first position at which [p] occurs; [None] is
    Python's [-1] *)
Fixpoint str_find (p s : string) : option nat :=
  if String.prefix p s then Some 0
  else match s with
       | EmptyString => None
       | String _ r => option_map S (str_find p r)
       end.

(** [s.rfind(p)]: the last position at which [p] occurs *)
Fixpoint str_rfind (p s : string) : option nat :=
  match s with
  | EmptyString => if String.prefix p s then Some 0 else None
  | String _ r =>
      match str_rfind p r with
      | Some i => Some (S i)
      | None => if String.prefix p s then Some 0 else None
      end
  end.

(** [s[i:j]] for [0 <= i] and [0 <= j] *)
Definition slice (s : string) (i j : nat) : string :=
  String.substring i (j - i) s.

(** [s.split(sep, 1)[-1]]: what follows the first [sep], or all of [s] *)
Definition after_first (sep s : string) : string :=
  match str_find sep s with
  | Some i => slice s (i + String.length sep) (String.length s)
  | None => s
  end.

(** [s.rsplit(sep, 1)[0]]: what precedes the last [sep], or all of [s] *)
Definition before_last (sep s : string) : string :=
  match str_rfind sep s with
  | Some i => slice s 0 i
  | None => s
  end.

Definition newline : string := String "010"%char EmptyString.

Definition fence : string := "```".

Section ParseLLMJson.
(** what [json.loads] returns, and [json.loads] itself; [None] is its
    [JSONDecodeError] *)
Variable J : Type.
Variable loads : string -> option J.

(** [LLMClient._parse_llm_json] *)
Definition _parse_llm_json (text : string) : option J :=
  let cleaned := strip text in
  let cleaned :=
    if startswith fence cleaned then after_first newline cleaned
    else cleaned in
  let cleaned :=
    if endswith fence cleaned then before_last fence cleaned
    else cleaned in
  let cleaned := strip cleaned in
  match loads cleaned with
  | Some data => Some data
  | None =>
      match str_find "{" cleaned, str_rfind "}" cleaned with
      | Some start, Some last =>
          if start <? last + 1
          then loads (slice cleaned start (last + 1))
          else None
      | _, _ => None
      end
  end.
End ParseLLMJson.

(** *** Notions for the text of an answer *)

(** nothing but whitespace *)
Fixpoint all_whitespace (s : string) : bool :=
  match s with
  | EmptyString => true
  | String c r => isspace c && all_whitespace r
  end.

(** the character [c] occurs in [s] *)
Fixpoint has_char (c : ascii) (s : string) : bool :=
  match s with
  | EmptyString => false
  | String d r => Ascii.eqb c d || has_char c r
  end.

(** a toy [json.loads] for examples: it reads the empty object only *)
Definition loads_empty_object (s : string) : option unit :=
  if String.eqb s "{}" then Some tt else None.

(* ================================================================== *)
(** ** [app/main.py]: the endpoints without the language model *)

Inductive ProjectSector :=
| HIGHWAYS | RAIL | COMMERCIAL_BUILDINGS | PUBLIC_BUILDINGS
| HEAVY_INFRASTRUCTURE | OIL_AND_GAS | UTILITIES | DATA_CENTERS
| RESIDENTIAL | ENERGY.

Record ActivityRisk (F : Type) := {
  activity_id : string;
  activity_name : string;
  risk_level : RiskLevel;
  delay_probability : F;
  estimated_delay_days : nat;
  risk_factors : list string;
  mitigation_suggestions : list string
}.

Arguments activity_id {F} _.
Arguments activity_name {F} _.
Arguments risk_level {F} _.
Arguments delay_probability {F} _.
Arguments estimated_delay_days {F} _.
Arguments risk_factors {F} _.
Arguments mitigation_suggestions {F} _.

(** an entry of [key_risks]: a message of the integrity check, or "No
    major structural issues detected" *)
Inductive KeyRisk :=
| Found (issue : Issue)
| NoMajorStructuralIssues.

Record ScheduleRiskReport (F : Type) := {
  report_project_name : string;
  sector : ProjectSector;
  overall_risk_level : RiskLevel;
  confidence_score : F;
  activity_risks : list (ActivityRisk F);
  critical_path : CriticalPathInfo;
  summary : string;
  key_risks : list KeyRisk;
  recommendations : list string;
  analysis_model : string;
  activities_analysed : nat
}.

Arguments report_project_name {F} _.
Arguments sector {F} _.
Arguments overall_risk_level {F} _.
Arguments confidence_score {F} _.
Arguments activity_risks {F} _.
Arguments critical_path {F} _.
Arguments summary {F} _.
Arguments key_risks {F} _.
Arguments recommendations {F} _.
Arguments analysis_model {F} _.
Arguments activities_analysed {F} _.

(** the body of [/api/v1/validate] *)
Record ValidationResponse := {
  valid : bool;
  issues : list Issue;
  activity_count : nat;
  dependency_count : nat
}.

(** [str(n)] as an f-string interpolates an [int] that is not negative *)
Definition str_of_int (n : nat) : string :=
  NilZero.string_of_uint (Nat.to_uint n).

(** a list comprehension whose element expression can raise *)
Fixpoint comprehension {A B : Type} (f : A -> option B) (l : list A)
  : option (list B) :=
  match l with
  | [] => Some []
  | x :: r =>
      match f x with
      | Some y =>
          match comprehension f r with
          | Some ys => Some (y :: ys)
          | None => None
          end
      | None => None
      end
  end.

Section Endpoints.
Variable N : Numerics.
Variable P : PyFloat.

(** one [ActivityRisk(...)] of the fallback; [engine.activities[aid]]
    raises [KeyError] for an unknown key *)
Definition fallback_activity_risk (engine : RiskEngine)
  (high_risk_ids : list string) (aid : string)
  : option (ActivityRisk (pyfloat P)) :=
  match Dict.get (engine_activities engine) aid with
  | Some a =>
      Some {| activity_id := aid;
              activity_name := name a;
              risk_level := if mem aid high_risk_ids then HIGH else MEDIUM;
              delay_probability :=
                if mem aid high_risk_ids then float_0_6 P else float_0_3 P;
              estimated_delay_days := 0;
              risk_factors :=
                if mem aid high_risk_ids
                then ["High dependency count"%string] else [];
              mitigation_suggestions := [] |}
  | None => None
  end.

(** [analyse_schedule] when [llm_result] is falsy, which it is whenever no
    API key is configured or the call fails: the deterministic report.
    [None] stands for the exception that the handler turns into a 500
    response, as the [OverflowError] of [find_high_risk_activities] is;
    the sector is a field of the input that only this function reads. *)
Definition analyse_schedule (schedule_sector : ProjectSector)
  (schedule : ScheduleInput) : option (ScheduleRiskReport (pyfloat P)) :=
  let engine := snd (build_graph new_engine schedule) in
  let found := validate_schedule_integrity engine in
  let path := find_critical_path engine in
  match run_find_high_risk_activities N engine with
  | None => None
  | Some high_risk_ids =>
  match comprehension (fallback_activity_risk engine high_risk_ids)
          (firstn 20 (Dict.keys (engine_activities engine))) with
  | Some risks =>
      Some {| report_project_name := project_name schedule;
              sector := schedule_sector;
              overall_risk_level := path_risk_level path;
              confidence_score := float_0_5 P;
              activity_risks := risks;
              critical_path := path;
              summary :=
                ("Deterministic analysis of "
                 ++ str_of_int (List.length (activities schedule))
                 ++ " activities. Critical path duration: "
                 ++ str_of_int (total_duration_days path)
                 ++ " days. LLM analysis unavailable.")%string;
              key_risks :=
                match found with
                | [] => [NoMajorStructuralIssues]
                | _ => map Found found
                end;
              recommendations :=
                ["Enable LLM analysis for detailed risk assessment"%string];
              analysis_model := "schedule-risk-v1";
              activities_analysed := List.length (activities schedule) |}
  | None => None
  end
  end.
End Endpoints.

(** [validate_schedule] *)
Definition validate_schedule (schedule : ScheduleInput) : ValidationResponse :=
  let engine := snd (build_graph new_engine schedule) in
  let found := validate_schedule_integrity engine in
  {| valid := List.length found =? 0;
     issues := found;
     activity_count := List.length (activities schedule);
     dependency_count :=
       match graph_truthy (graph engine) with
       | Some G => nx.number_of_edges G
       | None => 0
       end |}.

(** the number of entries of the fallback report flagged [HIGH] *)
Definition high_entries {F : Type} (risks : list (ActivityRisk F)) : nat :=
  List.length (filter (fun e => match risk_level e with
                                | HIGH => true
                                | _ => false
                                end) risks).

(** every predecessor reference of the schedule, as the edge it asks for *)
Definition references (acts : list ScheduleActivity)
  : list (string * string) :=
  flat_map (fun a => map (fun p => (p, id a)) (predecessors a)) acts.

(* ================================================================== *)
(** ** Floats for examples: exact rationals *)

Definition rational_floats : PyFloat :=
  {| pyfloat := Q;
     float_lt := fun x y => negb (Qle_bool y x);
     float_0_0 := 0%Q;
     float_0_3 := Qmake 3 10;
     float_0_5 := Qmake 1 2;
     float_0_6 := Qmake 3 5;
     float_1_0 := 1%Q;
     float_of_int := fun n => Some (inject_Z n);
     float_of_str := fun _ => None;
     int_of_float := fun x => Some (Z.quot (Qnum x) (Zpos (Qden x)));
     int_of_str := fun _ => None |}.

(** an answer of the model that breaks every rule the validation checks:
    a risk level that does not exist, scores outside [0, 1], a negative
    delay, an activity that is not in the schedule, and no lists *)
Definition llm_answer_risks : list (json Q) :=
  [JDict [("activity_id", JStr "B"); ("risk_level", JStr "high");
          ("delay_probability", JFloat (Qmake 3 2));
          ("estimated_delay_days", JInt (-3))];
   JDict [("activity_id", JStr "Z"); ("risk_level", JStr "low")]]%string.

Definition llm_answer_fields : Dict.t (json Q) :=
  [("overall_risk_level", JStr "extreme");
   ("confidence_score", JFloat (Qmake 3 2));
   ("activity_risks", JList llm_answer_risks);
   ("summary", JStr "Two activities at risk")]%string.

Definition llm_answer : json Q := JDict llm_answer_fields.

(** the same answer after the validation *)
Definition llm_checked : json Q :=
  JDict [("overall_risk_level", JStr "medium");
         ("confidence_score", JFloat 1%Q);
         ("activity_risks",
          JList [JDict [("activity_id", JStr "B"); ("risk_level", JStr "high");
                        ("delay_probability", JFloat 1%Q);
                        ("estimated_delay_days", JInt 0)]]);
         ("summary", JStr "Two activities at risk");
         ("key_risks", JList []);
         ("recommendations", JList [])]%string.

(* ================================================================== *)
(** * Properties *)

(** ** Identifiers and dictionaries *)

Lemma mem_In x l : mem x l = true <-> In x l.
Proof.
  unfold mem. rewrite existsb_exists. split.
  - intros (y & Hy & E). apply String.eqb_eq in E. now subst.
  - intros H. exists x. split; [assumption | apply String.eqb_refl].
Qed.

Lemma mem_false x l : mem x l = false <-> ~ In x l.
Proof.
  rewrite <- mem_In. destruct (mem x l); split; intro H;
    try reflexivity; try discriminate; try (now intros E); now elim H.
Qed.

Section DictFacts.
Context {V : Type}.
Implicit Types (d : Dict.t V) (k : string) (v : V).

Lemma keys_set d k v :
  Dict.keys (Dict.set d k v) =
  if mem k (Dict.keys d) then Dict.keys d else Dict.keys d ++ [k].
Proof.
  induction d as [| [k' v'] r IH]; simpl; [reflexivity |].
  rewrite (String.eqb_sym k k').
  destruct (String.eqb k' k) eqn:E; simpl; [reflexivity |].
  fold (Dict.keys (Dict.set r k v)). fold (Dict.keys r). fold (mem k (Dict.keys r)).
  rewrite IH. now destruct (mem k (Dict.keys r)).
Qed.

Lemma In_keys_set d k v x :
  In x (Dict.keys (Dict.set d k v)) <-> In x (Dict.keys d) \/ x = k.
Proof.
  rewrite keys_set. destruct (mem k (Dict.keys d)) eqn:E.
  - apply mem_In in E. split; [now left | intros [H | ->]; assumption].
  - rewrite in_app_iff. simpl. intuition.
Qed.

Lemma get_set_same d k v : Dict.get (Dict.set d k v) k = Some v.
Proof.
  induction d as [| [k' v'] r IH]; simpl.
  - now rewrite String.eqb_refl.
  - destruct (String.eqb k' k) eqn:E; simpl; rewrite E; [reflexivity | exact IH].
Qed.

Lemma get_set_other d k v k' :
  k <> k' -> Dict.get (Dict.set d k v) k' = Dict.get d k'.
Proof.
  intros Hne. induction d as [| [k0 v0] r IH]; simpl.
  - apply String.eqb_neq in Hne. now rewrite Hne.
  - destruct (String.eqb k0 k) eqn:E; simpl.
    + apply String.eqb_eq in E. subst k0.
      apply String.eqb_neq in Hne. now rewrite Hne.
    + now rewrite IH.
Qed.

Lemma get_Some_In_keys d k : Dict.get d k <> None <-> In k (Dict.keys d).
Proof.
  induction d as [| [k' v'] r IH]; simpl; [intuition |].
  destruct (String.eqb k' k) eqn:E.
  - apply String.eqb_eq in E. split; [now left | discriminate].
  - apply String.eqb_neq in E. rewrite IH. fold (Dict.keys r). intuition.
Qed.

Lemma contains_In_keys d k : Dict.contains d k = true <-> In k (Dict.keys d).
Proof.
  rewrite <- get_Some_In_keys. unfold Dict.contains.
  destruct (Dict.get d k); split; intro H; congruence.
Qed.

Lemma get_In d k v : Dict.get d k = Some v -> In (k, v) d.
Proof.
  induction d as [| [k' v'] r IH]; simpl; [discriminate |].
  destruct (String.eqb k' k) eqn:E.
  - apply String.eqb_eq in E. intros [= ->]. left. now subst.
  - intros H. right. now apply IH.
Qed.
End DictFacts.

Example test_linear_critical_path :
  find_critical_path (built linear_schedule) =
  {| path_activities := ["A"; "B"; "C"]%string;
     total_duration_days := 90;
     bottleneck_activity := Some "B"%string;
     path_risk_level := LOW |}.
Proof. reflexivity. Qed.

Example test_parallel_critical_path :
  find_critical_path (built parallel_schedule) =
  {| path_activities := ["A"; "B"; "D"]%string;
     total_duration_days := 84;
     bottleneck_activity := Some "B"%string;
     path_risk_level := LOW |}.
Proof. reflexivity. Qed.

(* ================================================================== *)
(** ** Chains, walks and simple paths *)

Lemma chain_cons G u v r : chain G (u :: v :: r) <-> edge G u v /\ chain G (v :: r).
Proof. reflexivity. Qed.

Lemma chain_app_cons G p u v r :
  chain G (p ++ [u]) -> chain G (u :: v :: r) -> chain G (p ++ u :: v :: r).
Proof.
  induction p as [| a p IH]; intros H1 H2; [exact H2 |].
  destruct p as [| b p]; simpl in *.
  - split; [apply H1 | exact H2].
  - destruct H1 as [Hab H1]. split; [exact Hab | now apply IH].
Qed.

Lemma chain_tail G u r : chain G (u :: r) -> chain G r.
Proof. destruct r; simpl; intuition. Qed.

Lemma chain_app_r G p q : chain G (p ++ q) -> chain G q.
Proof.
  induction p as [| a p IH]; intros H; [exact H |].
  apply IH. simpl in H. exact (chain_tail _ _ _ H).
Qed.

Lemma chain_snoc G p u v :
  chain G (p ++ [u]) -> edge G u v -> chain G (p ++ [u; v]).
Proof.
  intros H E. apply (chain_app_cons G p u v []); [exact H |].
  simpl. split; [exact E | exact I].
Qed.

Lemma ends_at_single x t : ends_at [x] t <-> x = t.
Proof.
  split.
  - intros [q E]. destruct q as [| a [| b q]]; simpl in E; inversion E; auto.
  - intros ->. now exists [].
Qed.

Lemma ends_at_cons x y r t : ends_at (x :: y :: r) t <-> ends_at (y :: r) t.
Proof.
  split.
  - intros [q E]. destruct q as [| a q]; simpl in E; inversion E; subst.
    now exists q.
  - intros [q E]. exists (x :: q). simpl. now rewrite E.
Qed.

Lemma ends_at_In p t : ends_at p t -> In t p.
Proof. intros [q ->]. apply in_or_app. right. now left. Qed.

Lemma ends_at_app p q t : q <> [] -> ends_at (p ++ q) t <-> ends_at q t.
Proof.
  intros Hq. induction p as [| a p IH]; [reflexivity |].
  simpl. destruct (p ++ q) as [| b r] eqn:E.
  - destruct p; destruct q; simpl in E; congruence.
  - rewrite ends_at_cons. exact IH.
Qed.

Lemma chain_app_l G p q : chain G (p ++ q) -> chain G p.
Proof.
  induction p as [| a p IH]; intros H; [exact I |].
  destruct p as [| b p]; [exact I |].
  simpl in *. destruct H as [E H]. split; [exact E | now apply IH].
Qed.

(** a chain leading from [u] to [v] is a walk, unless it is [u] alone *)
Lemma chain_reachable G r u v :
  chain G (u :: r) -> ends_at (u :: r) v -> (r = [] /\ u = v) \/ reachable G u v.
Proof.
  revert u. induction r as [| w r IH]; intros u Hc He.
  - left. split; [reflexivity | now apply ends_at_single].
  - right. apply chain_cons in Hc. destruct Hc as [Huw Hc].
    apply ends_at_cons in He.
    destruct (IH w Hc He) as [[_ ->] | Hr].
    + now apply reach_edge.
    + now apply reach_step with w.
Qed.

Lemma chain_inner_reachable G l1 l2 w v :
  chain G (w :: l1 ++ v :: l2) -> reachable G w v.
Proof.
  intros H.
  assert (Hc : chain G (w :: l1 ++ [v])).
  { apply (chain_app_l G (w :: l1 ++ [v]) l2).
    simpl. rewrite <- app_assoc. exact H. }
  destruct (chain_reachable G (l1 ++ [v]) w v Hc) as [[Hnil _] | Hr].
  - now exists (w :: l1).
  - destruct l1; discriminate.
  - exact Hr.
Qed.

Lemma reachable_trans G u w v :
  reachable G u w -> reachable G w v -> reachable G u v.
Proof.
  induction 1 as [u w E | u x w E _ IH]; intros H.
  - now apply reach_step with w.
  - apply reach_step with x; auto.
Qed.

Lemma reachable_nodes G u v :
  well_formed G -> reachable G u v -> In u (nx.nodes G) /\ In v (nx.nodes G).
Proof.
  intros W. induction 1 as [u v E | u w v E _ [_ IH]].
  - exact (W _ _ E).
  - split; [exact (proj1 (W _ _ E)) | exact IH].
Qed.

Lemma chain_incl G p :
  well_formed G -> chain G p ->
  (forall x, p = [x] -> In x (nx.nodes G)) -> incl p (nx.nodes G).
Proof.
  intros W. induction p as [| a p IH]; intros Hc H1 x Hx; [destruct Hx |].
  destruct p as [| b p].
  - destruct Hx as [<- | []]. now apply H1.
  - apply chain_cons in Hc. destruct Hc as [E Hc]. destruct Hx as [<- | Hx].
    + exact (proj1 (W _ _ E)).
    + apply IH; auto. intros y [= -> ->]. exact (proj2 (W _ _ E)).
Qed.

Lemma simple_path_intro G s t r :
  ends_at (s :: r) t -> chain G (s :: r) -> NoDup (s :: r) ->
  incl (s :: r) (nx.nodes G) -> simple_path G s t (s :: r).
Proof. intros. split; [now exists r | repeat split; assumption]. Qed.

(** every walk contains a simple path with the same ends *)
Lemma reachable_simple_path G u v :
  well_formed G -> reachable G u v -> exists p, simple_path G u v p.
Proof.
  intros W. induction 1 as [u v E | u w v E Hr (q & (r & Hq) & He & Hc & Hn & Hi)].
  - destruct (string_dec u v) as [-> | Hne].
    + exists [v]. apply simple_path_intro.
      * now exists [].
      * exact I.
      * constructor; [intros [] | constructor].
      * intros x [<- | []]. exact (proj1 (W _ _ E)).
    + exists [u; v]. apply simple_path_intro.
      * now exists [u].
      * split; [exact E | exact I].
      * constructor; [intros [-> | []]; now elim Hne | constructor; [intros [] | constructor]].
      * intros x [<- | [<- | []]]; [exact (proj1 (W _ _ E)) | exact (proj2 (W _ _ E))].
  - subst q. destruct (in_dec string_dec u (w :: r)) as [Hin | Hnin].
    + apply in_split in Hin. destruct Hin as (l1 & l2 & Hs).
      exists (u :: l2). rewrite Hs in He, Hc, Hn, Hi. apply simple_path_intro.
      * apply (ends_at_app l1 (u :: l2) v); [discriminate | exact He].
      * exact (chain_app_r _ _ _ Hc).
      * exact (NoDup_app_remove_l _ _ Hn).
      * intros x Hx. apply Hi. apply in_or_app. now right.
    + exists (u :: w :: r). apply simple_path_intro.
      * now apply ends_at_cons.
      * apply chain_cons. split; assumption.
      * now constructor.
      * intros x [<- | Hx]; [exact (proj1 (W _ _ E)) | now apply Hi].
Qed.

(* ================================================================== *)
(** ** [all_simple_paths] lists the simple paths, and all of them *)

Section VisitFacts.
Variable G : nx.DiGraph.
Variable target : string.

Lemma In_successors u v : In v (nx.successors G u) <-> edge G u v.
Proof.
  unfold nx.successors, edge. rewrite in_map_iff. split.
  - intros ([a b] & <- & H). apply filter_In in H. simpl in *.
    destruct H as [H E]. apply String.eqb_eq in E. now subst.
  - intros H. exists (u, v). split; [reflexivity |].
    apply filter_In. split; [exact H | apply String.eqb_refl].
Qed.

Lemma In_predecessors_of u v : In u (nx.predecessors_of G v) <-> edge G u v.
Proof.
  unfold nx.predecessors_of, edge. rewrite in_map_iff. split.
  - intros ([a b] & <- & H). apply filter_In in H. simpl in *.
    destruct H as [H E]. apply String.eqb_eq in E. now subst.
  - intros H. exists (u, v). split; [reflexivity |].
    apply filter_In. split; [exact H | apply String.eqb_refl].
Qed.

Lemma visit_sound fuel : forall path v q,
  In q (nx.visit G target fuel path v) ->
  NoDup (path ++ [v]) ->
  exists rest,
    q = path ++ v :: rest /\ chain G (v :: rest) /\
    ends_at (v :: rest) target /\ NoDup q.
Proof.
  induction fuel as [| fuel IH]; intros path v q Hq Hn; simpl in Hq;
    apply in_app_or in Hq; destruct Hq as [Hq | Hq];
    destruct (String.eqb v target) eqn:Ev;
    try (now destruct Hq).
  - destruct Hq as [<- | []]. apply String.eqb_eq in Ev. subst v.
    exists []. repeat split; auto. now exists [].
  - destruct Hq as [<- | []]. apply String.eqb_eq in Ev. subst v.
    exists []. repeat split; auto. now exists [].
  - apply in_flat_map in Hq. destruct Hq as (w & Hw & Hq).
    apply filter_In in Hw. destruct Hw as [Hw Hm].
    apply negb_true_iff, mem_false in Hm. apply In_successors in Hw.
    destruct (IH _ _ _ Hq) as (rest & -> & Hc & He & Hnd).
    { apply NoDup_app; [exact Hn | constructor; [intros [] | constructor] |].
      intros x Hx [<- | []]. now apply Hm. }
    exists (w :: rest). rewrite <- app_assoc in *. simpl in *.
    repeat split; auto. now apply ends_at_cons.
Qed.

Lemma visit_complete rest : forall fuel path v,
  List.length rest <= fuel ->
  chain G (v :: rest) -> NoDup (path ++ v :: rest) ->
  ends_at (v :: rest) target ->
  In (path ++ v :: rest) (nx.visit G target fuel path v).
Proof.
  induction rest as [| w r IH]; intros fuel path v Hl Hc Hn He.
  - apply ends_at_single in He. subst v.
    destruct fuel; simpl; rewrite String.eqb_refl; now left.
  - destruct fuel as [| fuel]; [simpl in Hl; lia |].
    assert (Hvt : String.eqb v target = false).
    { apply String.eqb_neq. intros ->.
      apply ends_at_cons, ends_at_In in He.
      apply NoDup_app_remove_l in Hn. inversion Hn; subst. contradiction. }
    simpl. rewrite Hvt. simpl. apply in_flat_map. exists w.
    apply chain_cons in Hc. destruct Hc as [E Hc]. split.
    + apply filter_In. split; [now apply In_successors |].
      apply negb_true_iff, mem_false. intros Hin.
      replace (path ++ v :: w :: r) with ((path ++ [v]) ++ w :: r) in Hn
        by (now rewrite <- app_assoc).
      apply NoDup_remove_2 in Hn. apply Hn. apply in_or_app. now left.
    + replace (path ++ v :: w :: r) with ((path ++ [v]) ++ w :: r)
        by (now rewrite <- app_assoc).
      apply IH.
      * simpl in Hl. lia.
      * exact Hc.
      * now rewrite <- app_assoc.
      * now apply ends_at_cons in He.
Qed.
End VisitFacts.

Theorem all_simple_paths_sound G s t p :
  well_formed G -> In s (nx.nodes G) ->
  In p (nx.all_simple_paths G s t) -> simple_path G s t p.
Proof.
  intros W Hs Hp. unfold nx.all_simple_paths in Hp.
  destruct (nx.number_of_nodes G) as [| cutoff]; [destruct Hp |].
  apply visit_sound in Hp; [| constructor; [intros [] | constructor]].
  destruct Hp as (rest & -> & Hc & He & Hn). simpl in *.
  repeat split; auto.
  - now exists rest.
  - apply chain_incl; auto. intros x [= -> _]. exact Hs.
Qed.

Theorem all_simple_paths_complete G s t p :
  simple_path G s t p -> In p (nx.all_simple_paths G s t).
Proof.
  intros ((r & ->) & He & Hc & Hn & Hi). unfold nx.all_simple_paths.
  pose proof (NoDup_incl_length Hn Hi) as Hl. unfold nx.number_of_nodes.
  simpl in Hl. destruct (List.length (nx.nodes G)) as [| cutoff]; [lia |].
  apply (visit_complete G t r cutoff [] s); auto. lia.
Qed.

(* ================================================================== *)
(** ** What [build_graph] builds *)

Lemma edge_eqb_eq e1 e2 : nx.edge_eqb e1 e2 = true <-> e1 = e2.
Proof.
  unfold nx.edge_eqb. destruct e1, e2. simpl.
  rewrite andb_true_iff, !String.eqb_eq. split; [intros [-> ->] | intros [= -> ->]]; auto.
Qed.

Lemma has_edge_iff G u v : nx.has_edge G u v = true <-> edge G u v.
Proof.
  unfold nx.has_edge, edge. rewrite existsb_exists. split.
  - intros (e & He & E). apply edge_eqb_eq in E. now subst.
  - intros H. exists (u, v). split; [exact H | now apply edge_eqb_eq].
Qed.

Lemma nodes_add_node G n a :
  nx.nodes (nx.add_node G n a) =
  if mem n (nx.nodes G) then nx.nodes G else nx.nodes G ++ [n].
Proof. apply keys_set. Qed.

Lemma touch_node_known G n : In n (nx.nodes G) -> nx.touch_node G n = G.
Proof.
  intros H. unfold nx.touch_node, nx.has_node.
  apply mem_In in H. now rewrite H.
Qed.

Lemma add_edge_known G u v :
  In u (nx.nodes G) -> In v (nx.nodes G) ->
  nx._node (nx.add_edge G u v) = nx._node G /\
  (forall e, In e (nx._edges (nx.add_edge G u v)) <->
             In e (nx._edges G) \/ e = (u, v)).
Proof.
  intros Hu Hv. unfold nx.add_edge.
  rewrite (touch_node_known G u Hu), (touch_node_known G v Hv).
  destruct (nx.has_edge G u v) eqn:E; simpl.
  - split; [reflexivity |]. intros e. apply has_edge_iff in E.
    split; [now left | intros [H | ->]; assumption].
  - split; [reflexivity |]. intros e. rewrite in_app_iff. simpl. intuition.
Qed.

Lemma add_edge_length G u v :
  nx.number_of_edges (nx.add_edge G u v) <= S (nx.number_of_edges G).
Proof.
  unfold nx.add_edge, nx.number_of_edges.
  assert (T : forall H n, nx._edges (nx.touch_node H n) = nx._edges H).
  { intros H n. unfold nx.touch_node. now destruct (nx.has_node H n). }
  destruct (nx.has_edge _ u v); simpl; rewrite ?length_app, !T; simpl; lia.
Qed.

Section BuildFacts.
Variable index : Dict.t ScheduleActivity.

Lemma add_nodes_edges acts : forall G,
  nx._edges (add_nodes G acts) = nx._edges G.
Proof.
  induction acts as [| a acts IH]; intros G; [reflexivity |].
  unfold add_nodes in *. simpl. now rewrite IH.
Qed.

Lemma In_add_nodes acts : forall G x,
  In x (nx.nodes (add_nodes G acts)) <->
  In x (nx.nodes G) \/ In x (map id acts).
Proof.
  induction acts as [| a acts IH]; intros G x; [simpl; intuition |].
  unfold add_nodes in *. simpl. rewrite IH.
  unfold nx.nodes at 1, nx.add_node at 1. simpl. rewrite In_keys_set.
  fold (nx.nodes G). intuition.
Qed.

Lemma add_nodes_fresh acts : forall G,
  NoDup (nx.nodes G ++ map id acts) ->
  nx.nodes (add_nodes G acts) = nx.nodes G ++ map id acts.
Proof.
  induction acts as [| a acts IH]; intros G Hn; [now rewrite app_nil_r |].
  unfold add_nodes in *. simpl.
  assert (Hm : mem (id a) (nx.nodes G) = false).
  { apply mem_false. intros Hin. apply NoDup_remove_2 in Hn.
    apply Hn. apply in_or_app. now left. }
  rewrite IH; rewrite nodes_add_node, Hm, <- app_assoc; [reflexivity | exact Hn].
Qed.

Lemma NoDup_add_nodes acts : forall G,
  NoDup (nx.nodes G) -> NoDup (nx.nodes (add_nodes G acts)).
Proof.
  induction acts as [| a acts IH]; intros G Hn; [exact Hn |].
  unfold add_nodes in *. simpl. apply IH. rewrite nodes_add_node.
  destruct (mem (id a) (nx.nodes G)) eqn:E; [exact Hn |].
  apply mem_false in E. apply NoDup_app; auto.
  - constructor; [intros [] | constructor].
  - intros x Hx [<- | []]. contradiction.
Qed.

Lemma add_pred_edges_spec a : forall preds G,
  nodes_cover index G -> In (id a) (nx.nodes G) ->
  let G' := fold_left
              (fun g pred_id =>
                 if Dict.contains index pred_id
                 then nx.add_edge g pred_id (id a) else g) preds G in
  nx._node G' = nx._node G /\
  (forall e, In e (nx._edges G') <->
             In e (nx._edges G) \/
             exists u, e = (u, id a) /\ In u preds /\
                       Dict.contains index u = true).
Proof.
  induction preds as [| p preds IH]; intros G Hc Ha; simpl.
  - split; [reflexivity |]. intros e. split; [now left |].
    intros [H | (u & _ & [] & _)]. exact H.
  - destruct (Dict.contains index p) eqn:E.
    + destruct (add_edge_known G p (id a) (Hc _ E) Ha) as [Hn He].
      destruct (IH (nx.add_edge G p (id a))) as [Hn' He'].
      * intros k Hk. unfold nx.nodes. rewrite Hn. now apply Hc.
      * unfold nx.nodes. now rewrite Hn.
      * split; [now rewrite Hn', Hn |].
        intros e. rewrite He', He. split.
        -- intros [[H | ->] | (u & -> & Hu & Hk)]; auto.
           ++ right. exists p. auto.
           ++ right. exists u. auto.
        -- intros [H | (u & -> & [-> | Hu] & Hk)]; auto.
           right. exists u. auto.
    + destruct (IH G Hc Ha) as [Hn' He']. split; [exact Hn' |].
      intros e. rewrite He'. split.
      * intros [H | (u & -> & Hu & Hk)]; auto. right. exists u. auto.
      * intros [H | (u & -> & [-> | Hu] & Hk)]; auto; [congruence |].
        right. exists u. auto.
Qed.

Lemma add_edges_spec acts : forall G,
  nodes_cover index G -> (forall a, In a acts -> In (id a) (nx.nodes G)) ->
  nx._node (add_edges index G acts) = nx._node G /\
  (forall u v, edge (add_edges index G acts) u v <->
               edge G u v \/
               exists a, In a acts /\ id a = v /\ In u (predecessors a) /\
                         Dict.contains index u = true).
Proof.
  induction acts as [| a acts IH]; intros G Hc Ha.
  - split; [reflexivity |]. intros u v. split; [now left |].
    intros [H | (a & [] & _)]. exact H.
  - unfold add_edges in *. simpl.
    destruct (add_pred_edges_spec a (predecessors a) G Hc (Ha a (or_introl eq_refl)))
      as [Hn He].
    fold (add_pred_edges index G a) in Hn, He.
    destruct (IH (add_pred_edges index G a)) as [Hn' He'].
    + intros k Hk. unfold nx.nodes. rewrite Hn. now apply Hc.
    + intros b Hb. unfold nx.nodes. rewrite Hn. apply Ha. now right.
    + split; [now rewrite Hn', Hn |].
      intros u v. rewrite He'. unfold edge at 1. rewrite He. split.
      * intros [[H | (w & [= -> ->] & Hw & Hk)] | (b & Hb & <- & Hw & Hk)]; auto.
        -- right. exists a. auto.
        -- right. exists b. auto.
      * intros [H | (b & [<- | Hb] & <- & Hw & Hk)]; auto.
        -- left. right. exists u. auto.
        -- right. exists b. auto.
Qed.

Lemma add_pred_edges_length a : forall preds G,
  nx.number_of_edges
    (fold_left
       (fun g pred_id =>
          if Dict.contains index pred_id
          then nx.add_edge g pred_id (id a) else g) preds G)
  <= nx.number_of_edges G + List.length preds.
Proof.
  induction preds as [| p preds IH]; intros G; simpl; [lia |].
  destruct (Dict.contains index p).
  - pose proof (IH (nx.add_edge G p (id a))).
    pose proof (add_edge_length G p (id a)). lia.
  - pose proof (IH G). lia.
Qed.

Lemma add_edges_length acts : forall G,
  nx.number_of_edges (add_edges index G acts)
  <= nx.number_of_edges G
     + list_sum (map (fun a => List.length (predecessors a)) acts).
Proof.
  induction acts as [| a acts IH]; intros G; simpl; [lia |].
  unfold add_edges in *. simpl.
  pose proof (IH (add_pred_edges index G a)).
  pose proof (add_pred_edges_length a (predecessors a) G).
  unfold add_pred_edges in *. lia.
Qed.
End BuildFacts.

Lemma In_index_activities acts : forall (d : Dict.t ScheduleActivity) k,
  In k (Dict.keys (fold_left (fun d a => Dict.set d (id a) a) acts d)) <->
  In k (Dict.keys d) \/ In k (map id acts).
Proof.
  induction acts as [| a acts IH]; intros d k; simpl; [intuition |].
  rewrite IH, In_keys_set. intuition.
Qed.

(** the node attributes and the activity index are filled alike: the last
    activity with a given identifier wins in both *)
Lemma nodes_mirror_index acts : forall (G : nx.DiGraph) (d : Dict.t ScheduleActivity),
  (forall k, Dict.get (nx._node G) k =
             option_map (fun a => Some (node_attrs a)) (Dict.get d k)) ->
  forall k, Dict.get (nx._node (add_nodes G acts)) k =
            option_map (fun a => Some (node_attrs a))
              (Dict.get (fold_left (fun d a => Dict.set d (id a) a) acts d) k).
Proof.
  induction acts as [| a acts IH]; intros G d H k; [apply H |].
  unfold add_nodes in *. simpl. apply IH. clear k. intros k.
  unfold nx.add_node. simpl. destruct (string_dec (id a) k) as [<- | Hne].
  - now rewrite !get_set_same.
  - rewrite !get_set_other by assumption. apply H.
Qed.

Lemma built_graph schedule :
  graph (built schedule) = Some (schedule_graph schedule).
Proof. reflexivity. Qed.

Lemma built_activities schedule :
  engine_activities (built schedule) = index_activities (activities schedule).
Proof. reflexivity. Qed.

Section BuiltGraph.
Variable schedule : ScheduleInput.
Local Notation "'acts'" := (activities schedule).
Local Notation "'G'" := (schedule_graph schedule).
Local Notation "'index'" := (index_activities (activities schedule)).

Lemma index_contains k : Dict.contains index k = true <-> In k (map id acts).
Proof.
  rewrite contains_In_keys. unfold index_activities.
  rewrite In_index_activities. simpl. intuition.
Qed.

Lemma build_cover : nodes_cover index (add_nodes nx.empty_graph acts).
Proof.
  intros k Hk. apply In_add_nodes. right. now apply index_contains.
Qed.

Lemma build_ids a : In a acts -> In (id a) (nx.nodes (add_nodes nx.empty_graph acts)).
Proof. intros H. apply In_add_nodes. right. now apply in_map. Qed.

Lemma schedule_graph_node :
  nx._node G = nx._node (add_nodes nx.empty_graph acts).
Proof.
  exact (proj1 (add_edges_spec index acts _ build_cover build_ids)).
Qed.

Lemma schedule_graph_nodes x : In x (nx.nodes G) <-> In x (map id acts).
Proof.
  unfold nx.nodes. rewrite schedule_graph_node. fold (nx.nodes (add_nodes nx.empty_graph acts)).
  rewrite In_add_nodes. simpl. intuition.
Qed.

Lemma schedule_graph_NoDup : NoDup (nx.nodes G).
Proof.
  unfold nx.nodes. rewrite schedule_graph_node. apply NoDup_add_nodes. constructor.
Qed.

Lemma schedule_graph_nodes_distinct :
  NoDup (map id acts) -> nx.nodes G = map id acts.
Proof.
  intros H. unfold nx.nodes. rewrite schedule_graph_node.
  now apply (add_nodes_fresh acts nx.empty_graph).
Qed.

Lemma schedule_graph_edge u v :
  edge G u v <->
  exists a, In a acts /\ id a = v /\ In u (predecessors a) /\ In u (map id acts).
Proof.
  destruct (add_edges_spec index acts _ build_cover build_ids) as [_ He].
  change G with (add_edges index (add_nodes nx.empty_graph acts) acts).
  rewrite He. unfold edge at 1. rewrite add_nodes_edges. simpl. split.
  - intros [[] | (a & Ha & Hv & Hu & Hk)]. exists a. rewrite <- index_contains. auto.
  - intros (a & Ha & Hv & Hu & Hk). right. exists a. rewrite index_contains. auto.
Qed.

Lemma schedule_graph_well_formed : well_formed G.
Proof.
  intros u v H. apply schedule_graph_edge in H.
  destruct H as (a & Ha & <- & _ & Hu). rewrite !schedule_graph_nodes.
  split; [exact Hu | now apply in_map].
Qed.

Lemma schedule_graph_attrs k :
  Dict.get (nx._node G) k =
  option_map (fun a => Some (node_attrs a)) (Dict.get index k).
Proof.
  rewrite schedule_graph_node. now apply nodes_mirror_index.
Qed.

Lemma schedule_graph_edges_length :
  nx.number_of_edges G
  <= list_sum (map (fun a => List.length (predecessors a)) acts).
Proof.
  pose proof (add_edges_length index acts (add_nodes nx.empty_graph acts)) as H.
  unfold nx.number_of_edges in H at 2. rewrite add_nodes_edges in H. exact H.
Qed.

(** the duration the engine reads from its index is the node attribute *)
Lemma path_duration_weight p : path_duration index p = path_weight G p.
Proof.
  unfold path_duration, path_weight. f_equal. apply map_ext. intros k.
  unfold node_duration. rewrite schedule_graph_attrs.
  now destruct (Dict.get index k).
Qed.
End BuiltGraph.

(* ================================================================== *)
(** ** Sources, sinks and the candidate paths *)

Lemma In_sources G n : In n (sources G) <-> is_source G n.
Proof.
  unfold sources, is_source. rewrite filter_In, Nat.eqb_eq. reflexivity.
Qed.

Lemma In_sinks G n : In n (sinks G) <-> is_sink G n.
Proof.
  unfold sinks, is_sink. rewrite filter_In, Nat.eqb_eq. reflexivity.
Qed.

Lemma out_degree_zero G u : nx.out_degree G u = 0 <-> forall v, ~ edge G u v.
Proof.
  unfold nx.out_degree. split.
  - intros H v E. apply In_successors in E.
    destruct (nx.successors G u); [destruct E | discriminate].
  - intros H. destruct (nx.successors G u) as [| v r] eqn:E; [reflexivity |].
    elim (H v). apply In_successors. rewrite E. now left.
Qed.

Lemma in_degree_zero G v : nx.in_degree G v = 0 <-> forall u, ~ edge G u v.
Proof.
  unfold nx.in_degree. split.
  - intros H u E. apply In_predecessors_of in E.
    destruct (nx.predecessors_of G v); [destruct E | discriminate].
  - intros H. destruct (nx.predecessors_of G v) as [| u r] eqn:E; [reflexivity |].
    elim (H u). apply In_predecessors_of. rewrite E. now left.
Qed.

Lemma candidate_paths_iff G p :
  well_formed G -> In p (candidate_paths G) <-> source_to_sink_path G p.
Proof.
  intros W. unfold candidate_paths, source_to_sink_path.
  rewrite in_flat_map. split.
  - intros (s & Hs & H). apply in_flat_map in H. destruct H as (t & Ht & H).
    exists s, t. apply In_sources in Hs. apply In_sinks in Ht.
    repeat split; try apply Hs; try apply Ht.
    all: apply (all_simple_paths_sound G s t p W (proj1 Hs)) in H; apply H.
  - intros (s & t & Hs & Ht & H). exists s. split; [now apply In_sources |].
    apply in_flat_map. exists t. split; [now apply In_sinks |].
    now apply all_simple_paths_complete.
Qed.

(** in a graph without cycles every node starts a simple path to a sink *)
Lemma acyclic_reaches_sink G :
  well_formed G -> ~ has_cycle G ->
  forall m pre v,
    List.length (nx.nodes G) < List.length (pre ++ [v]) + m ->
    NoDup (pre ++ [v]) -> chain G (pre ++ [v]) ->
    incl (pre ++ [v]) (nx.nodes G) ->
    exists rest t,
      is_sink G t /\ ends_at (v :: rest) t /\ chain G (v :: rest) /\
      NoDup (v :: rest) /\ incl (v :: rest) (nx.nodes G).
Proof.
  intros W Hac. induction m as [| m IH]; intros pre v Hl Hn Hc Hi.
  - pose proof (NoDup_incl_length Hn Hi). exfalso. lia.
  - assert (Hv : In v (nx.nodes G)) by (apply Hi, in_or_app; right; now left).
    destruct (nx.successors G v) as [| w r] eqn:Es.
    + exists [], v. repeat split; auto.
      * unfold nx.out_degree. now rewrite Es.
      * now exists [].
      * constructor; [intros [] | constructor].
      * intros x [<- | []]. exact Hv.
    + assert (E : edge G v w) by (apply In_successors; rewrite Es; now left).
      assert (Hw : ~ In w (pre ++ [v])).
      { intros Hin. apply Hac. exists v.
        apply in_split in Hin. destruct Hin as (l1 & l2 & Hs). rewrite Hs in Hc.
        apply chain_app_r in Hc.
        assert (He : ends_at (w :: l2) v).
        { apply (ends_at_app l1 (w :: l2) v); [discriminate |].
          rewrite <- Hs. now exists pre. }
        destruct (chain_reachable G l2 w v Hc He) as [[_ ->] | Hr].
        - now apply reach_edge.
        - now apply reach_step with w. }
      destruct (IH (pre ++ [v]) w) as (rest & t & Ht & He & Hc' & Hn' & Hi').
      * rewrite !length_app. rewrite length_app in Hl. simpl in Hl |- *. lia.
      * apply NoDup_app; auto.
        -- constructor; [intros [] | constructor].
        -- intros x Hx [<- | []]. contradiction.
      * rewrite <- app_assoc. simpl. now apply chain_snoc.
      * intros x Hx. apply in_app_or in Hx. destruct Hx as [Hx | [<- | []]];
          [now apply Hi | exact (proj2 (W _ _ E))].
      * exists (w :: rest), t. repeat split; try apply Ht.
        -- now apply ends_at_cons.
        -- exact E.
        -- exact Hc'.
        -- constructor; [| exact Hn'].
           intros Hin. destruct Hin as [-> | Hin].
           ++ apply Hw, in_or_app. right. now left.
           ++ apply Hac. exists v. apply in_split in Hin.
              destruct Hin as (l1 & l2 & Hs).
              assert (Hwv : reachable G w v).
              { rewrite Hs in Hc'. now apply (chain_inner_reachable G l1 l2). }
              now apply reach_step with w.
        -- intros x [<- | Hx]; [exact Hv | now apply Hi'].
Qed.

Lemma acyclic_source_to_sink G s :
  well_formed G -> ~ has_cycle G -> is_source G s ->
  exists p, source_to_sink_path G p.
Proof.
  intros W Hac Hs.
  destruct (acyclic_reaches_sink G W Hac (List.length (nx.nodes G)) [] s)
    as (rest & t & Ht & He & Hc & Hn & Hi).
  - simpl. lia.
  - constructor; [intros [] | constructor].
  - exact I.
  - intros x [<- | []]. apply Hs.
  - exists (s :: rest), s, t. repeat split; try apply Hs; try apply Ht; auto.
    now exists rest.
Qed.

(* ================================================================== *)
(** ** The two loops of [find_critical_path] *)

Section Loops.
Variable index : Dict.t ScheduleActivity.

Lemma longest_fold paths : forall acc,
  let r := fold_left (keep_longer index) paths acc in
  (forall p, In p paths -> path_duration index p <= snd r) /\
  snd acc <= snd r /\
  (r = acc \/
   (In (fst r) paths /\ path_duration index (fst r) = snd r /\
    snd acc < snd r)).
Proof.
  induction paths as [| q paths IH]; intros acc; simpl.
  - repeat split; auto. intros p [].
  - specialize (IH (keep_longer index acc q)). simpl in IH.
    destruct IH as (Hub & Hle & Hor).
    set (r := fold_left (keep_longer index) paths (keep_longer index acc q)) in *.
    assert (Hk : snd acc <= snd (keep_longer index acc q) /\
                 path_duration index q <= snd (keep_longer index acc q) /\
                 (keep_longer index acc q = acc \/
                  keep_longer index acc q = (q, path_duration index q) /\
                  snd acc < path_duration index q)).
    { unfold keep_longer.
      destruct (snd acc <? path_duration index q) eqn:E.
      - apply Nat.ltb_lt in E. simpl. repeat split; try lia. right. auto.
      - apply Nat.ltb_ge in E. repeat split; auto. }
    destruct Hk as (Hk1 & Hk2 & Hk3). repeat split.
    + intros p [<- | Hp]; [lia | now apply Hub].
    + lia.
    + destruct Hor as [Hr | (Hin & Hd & Hlt)].
      * destruct Hk3 as [Hk3 | [Hk3 Hlt]].
        -- left. now rewrite Hr.
        -- right. rewrite Hr, Hk3. simpl. auto.
      * right. repeat split; auto. lia.
Qed.

Lemma longest_spec paths :
  let r := longest index paths in
  (forall p, In p paths -> path_duration index p <= snd r) /\
  (r = ([], 0) \/
   (In (fst r) paths /\ path_duration index (fst r) = snd r /\ 0 < snd r)).
Proof.
  destruct (longest_fold paths ([], 0)) as (H1 & _ & H3). split; assumption.
Qed.

Lemma bottleneck_step_alt acc k :
  bottleneck_step index acc k =
  if snd acc <? indexed_duration index k then (Some k, indexed_duration index k) else acc.
Proof.
  unfold bottleneck_step, indexed_duration.
  destruct (Dict.get index k); [reflexivity |].
  now destruct (snd acc <? 0) eqn:E; [apply Nat.ltb_lt in E; lia |].
Qed.

Lemma bottleneck_fold p : forall seen acc,
  bottleneck_inv index seen acc ->
  bottleneck_inv index (seen ++ p) (fold_left (bottleneck_step index) p acc).
Proof.
  induction p as [| k p IH]; intros seen acc H; simpl.
  - now rewrite app_nil_r.
  - replace (seen ++ k :: p) with ((seen ++ [k]) ++ p)
      by (now rewrite <- app_assoc).
    apply IH. rewrite bottleneck_step_alt.
    destruct (snd acc <? indexed_duration index k) eqn:E.
    + apply Nat.ltb_lt in E. unfold bottleneck_inv in *. simpl.
      repeat split; [lia |]. exists seen, []. repeat split; [| intros x []].
      intros x Hx. destruct (fst acc) as [b |].
      * destruct H as (Hb & _ & l1 & l2 & -> & H1 & H2).
        apply in_app_or in Hx. destruct Hx as [Hx | [<- | Hx]].
        -- specialize (H1 _ Hx). lia.
        -- lia.
        -- specialize (H2 _ Hx). lia.
      * destruct H as [_ H]. rewrite (H _ Hx). lia.
    + apply Nat.ltb_ge in E. unfold bottleneck_inv in *.
      destruct (fst acc) as [b |].
      * destruct H as (Hb & Hpos & l1 & l2 & -> & H1 & H2).
        repeat split; auto. exists l1, (l2 ++ [k]). repeat split; auto.
        -- now rewrite <- app_assoc.
        -- intros x Hx. apply in_app_or in Hx.
           destruct Hx as [Hx | [<- | []]]; [now apply H2 | lia].
      * destruct H as [H0 H]. split; [exact H0 |]. intros x Hx.
        apply in_app_or in Hx. destruct Hx as [Hx | [<- | []]]; [now apply H | lia].
Qed.

Lemma find_bottleneck_spec p :
  match find_bottleneck index p with
  | Some b => first_longest index p b /\ 0 < indexed_duration index b
  | None => forall x, In x p -> indexed_duration index x = 0
  end.
Proof.
  unfold find_bottleneck.
  pose proof (bottleneck_fold p [] (None, 0)) as H. simpl in H.
  specialize (H (conj eq_refl (fun x (F : False) => match F with end))).
  unfold bottleneck_inv in H.
  destruct (fst (fold_left (bottleneck_step index) p (None, 0))).
  - destruct H as (H1 & H2 & H3). split; [exact H3 | lia].
  - apply H.
Qed.

Lemma path_duration_zero p :
  (forall x, In x p -> indexed_duration index x = 0) -> path_duration index p = 0.
Proof.
  unfold path_duration. induction p as [| k p IH]; intros H; [reflexivity |].
  simpl. fold (indexed_duration index k).
  rewrite (H k (or_introl eq_refl)), IH; [reflexivity |].
  intros x Hx. apply H. now right.
Qed.
End Loops.

(* ================================================================== *)
(** ** The NetworkX predicates meet their contracts *)

Lemma single_simple_path G v : In v (nx.nodes G) -> simple_path G v v [v].
Proof.
  intros H. apply simple_path_intro.
  - now exists [].
  - exact I.
  - constructor; [intros [] | constructor].
  - intros x [<- | []]. exact H.
Qed.

Lemma reaches_or_same_simple_path G u v :
  well_formed G -> In u (nx.nodes G) ->
  (u = v \/ reachable G u v) <-> exists p, simple_path G u v p.
Proof.
  intros W Hu. split.
  - intros [<- | H].
    + exists [u]. now apply single_simple_path.
    + now apply reachable_simple_path.
  - intros (p & (r & ->) & He & Hc & _).
    destruct (chain_reachable G r u v Hc He) as [[_ H] | H]; auto.
Qed.

Lemma nonempty_paths_iff G u v :
  well_formed G -> In u (nx.nodes G) ->
  nx.is_nil (nx.all_simple_paths G u v) = false <-> (u = v \/ reachable G u v).
Proof.
  intros W Hu. rewrite (reaches_or_same_simple_path G u v W Hu). split.
  - destruct (nx.all_simple_paths G u v) as [| p l] eqn:E; [discriminate |].
    intros _. exists p. apply all_simple_paths_sound; auto. rewrite E. now left.
  - intros (p & Hp). apply all_simple_paths_complete in Hp.
    now destruct (nx.all_simple_paths G u v).
Qed.

Theorem is_directed_acyclic_graph_spec G :
  well_formed G -> nx.is_directed_acyclic_graph G = true <-> ~ has_cycle G.
Proof.
  intros W. unfold nx.is_directed_acyclic_graph. rewrite forallb_forall. split.
  - intros H (x & Hx).
    assert (exists w, edge G x w /\ (w = x \/ reachable G w x)) as (w & E & Hw).
    { inversion Hx; subst; eauto. }
    specialize (H (x, w) E). simpl in H.
    apply (nonempty_paths_iff G w x W (proj2 (W _ _ E))) in Hw. congruence.
  - intros Hac [u v] E. simpl.
    destruct (nx.is_nil (nx.all_simple_paths G v u)) eqn:En; [reflexivity |].
    apply (nonempty_paths_iff G v u W (proj2 (W _ _ E))) in En.
    elim Hac. exists u. destruct En as [-> | Hr].
    + now apply reach_edge.
    + now apply reach_step with v.
Qed.

Lemma to_undirected_edge G u v :
  edge (nx.to_undirected G) u v <-> edge G u v \/ edge G v u.
Proof.
  unfold edge, nx.to_undirected. simpl. rewrite in_app_iff, in_map_iff. split.
  - intros [H | ([a b] & [= -> ->] & H)]; auto.
  - intros [H | H]; auto. right. now exists (v, u).
Qed.

Lemma to_undirected_well_formed G :
  well_formed G -> well_formed (nx.to_undirected G).
Proof.
  intros W u v H. apply to_undirected_edge in H.
  change (nx.nodes (nx.to_undirected G)) with (nx.nodes G).
  destruct H as [H | H]; apply W in H; tauto.
Qed.

Lemma undirected_reachable_sym G u v :
  reachable (nx.to_undirected G) u v -> reachable (nx.to_undirected G) v u.
Proof.
  assert (S : forall a b, edge (nx.to_undirected G) a b ->
                          edge (nx.to_undirected G) b a).
  { intros a b. rewrite !to_undirected_edge. tauto. }
  induction 1 as [u v E | u w v E _ IH].
  - apply reach_edge. now apply S.
  - apply reachable_trans with w; [exact IH | apply reach_edge; now apply S].
Qed.

Lemma connected_sym G u v : connected G u v -> connected G v u.
Proof.
  intros [-> | H]; [now left | right; now apply undirected_reachable_sym].
Qed.

Lemma connected_trans G u w v :
  connected G u w -> connected G w v -> connected G u v.
Proof.
  unfold connected. intros [-> | H1] [<- | H2]; auto.
  right. now apply reachable_trans with w.
Qed.

Lemma In_component G v u :
  well_formed G -> In v (nx.nodes G) ->
  In u (nx.node_connected_component (nx.to_undirected G) v) <->
  In u (nx.nodes G) /\ connected G v u.
Proof.
  intros W Hv. unfold nx.node_connected_component. rewrite filter_In.
  change (nx.nodes (nx.to_undirected G)) with (nx.nodes G).
  rewrite negb_true_iff.
  rewrite (nonempty_paths_iff (nx.to_undirected G) v u
             (to_undirected_well_formed G W) Hv).
  reflexivity.
Qed.

Lemma components_loop_nonempty U todo : forall seen,
  nx.components_loop U todo seen <> [] <->
  exists x, In x todo /\ ~ In x seen.
Proof.
  induction todo as [| v rest IH]; intros seen; simpl.
  - split; [congruence | intros (x & [] & _)].
  - destruct (mem v seen) eqn:E.
    + apply mem_In in E. rewrite IH. split.
      * intros (x & Hx & Hn). exists x. auto.
      * intros (x & [<- | Hx] & Hn); [contradiction | exists x; auto].
    + apply mem_false in E. split; [| discriminate].
      intros _. exists v. auto.
Qed.

Theorem connected_components_spec G :
  well_formed G ->
  1 < List.length (nx.connected_components (nx.to_undirected G)) <->
  disconnected G.
Proof.
  intros W. unfold nx.connected_components, disconnected.
  change (nx.nodes (nx.to_undirected G)) with (nx.nodes G).
  destruct (nx.nodes G) as [| v0 rest] eqn:En.
  - simpl. split; [lia | intros (u & _ & [] & _)].
  - assert (Hv0 : In v0 (nx.nodes G)) by (rewrite En; now left).
    simpl.
    set (c0 := nx.node_connected_component (nx.to_undirected G) v0).
    assert (Hc0 : forall u, In u c0 <-> In u (nx.nodes G) /\ connected G v0 u)
      by (intros u; now apply In_component).
    assert (Hlen : 1 < S (List.length (nx.components_loop (nx.to_undirected G) rest c0))
                   <-> nx.components_loop (nx.to_undirected G) rest c0 <> []).
    { destruct (nx.components_loop (nx.to_undirected G) rest c0); simpl;
        split; intros; try lia; congruence. }
    rewrite Hlen, components_loop_nonempty. split.
    + intros (x & Hx & Hn). exists v0, x.
      assert (Hxn : In x (nx.nodes G)) by (rewrite En; now right).
      repeat split; auto. intros Hcon. apply Hn. now apply Hc0.
    + intros (u & v & Hu' & Hv' & Hn).
      assert (Hu : In u (nx.nodes G)) by (rewrite En; exact Hu').
      assert (Hv : In v (nx.nodes G)) by (rewrite En; exact Hv').
      assert (Hout : forall x, In x (nx.nodes G) -> ~ In x c0 ->
                               exists y, In y rest /\ ~ In y c0).
      { intros x Hx Hx0. exists x. split; [| exact Hx0].
        rewrite En in Hx. destruct Hx as [<- | Hx]; [| exact Hx].
        elim Hx0. apply Hc0. split; [exact Hv0 | now left]. }
      destruct (in_dec string_dec u c0) as [Hu0 | Hu0]; [| now apply (Hout u)].
      destruct (in_dec string_dec v c0) as [Hv1 | Hv1]; [| now apply (Hout v)].
      elim Hn. apply connected_trans with v0.
      * apply connected_sym. now apply Hc0.
      * now apply Hc0.
Qed.

(** [simple_cycles] finds a circuit exactly when there is a cycle *)

Lemma subgraph_edge G keep u v :
  edge (nx.subgraph G keep) u v <-> edge G u v /\ In u keep /\ In v keep.
Proof.
  unfold edge, nx.subgraph. simpl. rewrite filter_In. simpl.
  rewrite andb_true_iff, !mem_In. reflexivity.
Qed.

Lemma subgraph_nodes G keep x :
  In x (nx.nodes (nx.subgraph G keep)) <-> In x (nx.nodes G) /\ In x keep.
Proof.
  unfold nx.nodes, nx.subgraph, Dict.keys. simpl. rewrite !in_map_iff. split.
  - intros ([k a] & <- & H). apply filter_In in H. simpl in *.
    destruct H as [H Hm]. apply mem_In in Hm. split; [| exact Hm].
    exists (k, a). auto.
  - intros [([k a] & <- & H) Hk]. exists (k, a). split; [reflexivity |].
    apply filter_In. split; [exact H | now apply mem_In].
Qed.

Lemma subgraph_well_formed G keep :
  well_formed G -> well_formed (nx.subgraph G keep).
Proof.
  intros W u v E. apply subgraph_edge in E. destruct E as (E & Hu & Hv).
  rewrite !subgraph_nodes. destruct (W _ _ E). tauto.
Qed.

Lemma subgraph_reachable G keep u v :
  reachable (nx.subgraph G keep) u v -> reachable G u v.
Proof.
  induction 1 as [u v E | u w v E _ IH]; apply subgraph_edge in E.
  - apply reach_edge. tauto.
  - apply reach_step with w; tauto.
Qed.

Lemma subgraph_reachable_mono G keep keep' u v :
  incl keep keep' ->
  reachable (nx.subgraph G keep) u v -> reachable (nx.subgraph G keep') u v.
Proof.
  intros Hi. induction 1 as [u v E | u w v E _ IH]; apply subgraph_edge in E.
  - apply reach_edge. apply subgraph_edge. intuition.
  - apply reach_step with w; [| exact IH]. apply subgraph_edge. intuition.
Qed.

Lemma reachable_last_edge G a b :
  reachable G a b -> exists u, edge G u b /\ (a = u \/ reachable G a u).
Proof.
  induction 1 as [a b E | a w b E _ (u & Eu & [-> | Hr])].
  - exists a. auto.
  - exists u. split; [exact Eu | right; now apply reach_edge].
  - exists u. split; [exact Eu | right; now apply reach_step with w].
Qed.

Lemma reachable_through_or_around G s rest a b :
  reachable (nx.subgraph G (s :: rest)) a b ->
  (reachable (nx.subgraph G (s :: rest)) a s /\
   reachable (nx.subgraph G (s :: rest)) s b)
  \/ a = s \/ b = s \/ reachable (nx.subgraph G rest) a b.
Proof.
  induction 1 as [a b E | a w b E Hr IH].
  - destruct (string_dec a s) as [-> | Ha]; [tauto |].
    destruct (string_dec b s) as [-> | Hb]; [tauto |].
    right. right. right. apply reach_edge.
    apply subgraph_edge in E. apply subgraph_edge. simpl in E. intuition congruence.
  - destruct (string_dec a s) as [-> | Ha]; [tauto |].
    destruct IH as [[H1 H2] | [-> | [-> | H]]].
    + left. split; [now apply reach_step with w | exact H2].
    + left. split; [now apply reach_edge | exact Hr].
    + tauto.
    + right. right. right. apply reach_step with w; [| exact H].
      assert (Hw : In w rest).
      { inversion H as [? ? E' | ? ? ? E' _]; subst; apply subgraph_edge in E'; tauto. }
      apply subgraph_edge in E. apply subgraph_edge. simpl in E. intuition congruence.
Qed.

Lemma cycles_from_spec G :
  well_formed G ->
  forall order,
    nx.cycles_from G order <> [] <->
    exists v, reachable (nx.subgraph G order) v v.
Proof.
  intros W. induction order as [| s rest IH]; simpl.
  - split; [congruence |]. intros (v & H).
    inversion H as [? ? E | ? ? ? E _]; subst; apply subgraph_edge in E; simpl in E; tauto.
  - set (H := nx.subgraph G (s :: rest)).
    assert (WH : well_formed H) by now apply subgraph_well_formed.
    assert (Hs : (exists u, In u (nx.predecessors_of H s) /\
                            nx.all_simple_paths H s u <> []) <->
                 reachable H s s).
    { split.
      - intros (u & Hu & Hp). apply In_predecessors_of in Hu.
        assert (Hn : nx.is_nil (nx.all_simple_paths H s u) = false)
          by (destruct (nx.all_simple_paths H s u); [congruence | reflexivity]).
        apply (nonempty_paths_iff H s u WH (proj2 (WH _ _ Hu))) in Hn.
        destruct Hn as [-> | Hr]; [now apply reach_edge |].
        apply reachable_trans with u; [exact Hr | now apply reach_edge].
      - intros Hr. destruct (reachable_last_edge H s s Hr) as (u & E & Hu).
        exists u. split; [now apply In_predecessors_of |].
        apply (nonempty_paths_iff H s u WH (proj2 (WH _ _ E))) in Hu.
        destruct (nx.all_simple_paths H s u); [discriminate | discriminate]. }
    split.
    + intros Hne.
      destruct (flat_map (nx.all_simple_paths H s) (nx.predecessors_of H s))
        as [| p l] eqn:E.
      * simpl in Hne. apply IH in Hne. destruct Hne as (v & Hv). exists v.
        apply (subgraph_reachable_mono G rest (s :: rest)); [| exact Hv].
        intros x Hx. now right.
      * exists s. apply Hs.
        assert (Hin : In p (flat_map (nx.all_simple_paths H s) (nx.predecessors_of H s)))
          by (rewrite E; now left).
        apply in_flat_map in Hin. destruct Hin as (u & Hu & Hp).
        exists u. split; [exact Hu |]. intros En. rewrite En in Hp. destruct Hp.
    + intros (v & Hv).
      assert (Hcase : reachable H s s \/ reachable (nx.subgraph G rest) v v).
      { destruct (reachable_through_or_around G s rest v v Hv)
          as [[H1 H2] | [-> | [-> | Hr]]]; auto.
        left. now apply reachable_trans with v. }
      destruct Hcase as [Hr | Hr].
      * apply Hs in Hr. destruct Hr as (u & Hu & Hp).
        intros E. apply app_eq_nil in E. destruct E as [E _].
        destruct (nx.all_simple_paths H s u) as [| p l] eqn:Ep; [congruence |].
        assert (Hin : In p (flat_map (nx.all_simple_paths H s) (nx.predecessors_of H s))).
        { apply in_flat_map. exists u. split; [exact Hu | rewrite Ep; now left]. }
        rewrite E in Hin. destruct Hin.
      * intros E. apply app_eq_nil in E. destruct E as [_ E].
        assert (Hne : nx.cycles_from G rest <> []) by (apply IH; eauto).
        contradiction.
Qed.

Lemma whole_subgraph_reachable G u v :
  well_formed G -> reachable G u v ->
  reachable (nx.subgraph G (nx.nodes G)) u v.
Proof.
  intros W. induction 1 as [u v E | u w v E _ IH].
  - apply reach_edge. apply subgraph_edge. destruct (W _ _ E). tauto.
  - apply reach_step with w; [| exact IH].
    apply subgraph_edge. destruct (W _ _ E). tauto.
Qed.

Theorem simple_cycles_spec G :
  well_formed G -> nx.simple_cycles G <> [] <-> has_cycle G.
Proof.
  intros W. unfold nx.simple_cycles, has_cycle. rewrite (cycles_from_spec G W).
  split; intros (v & Hv); exists v.
  - now apply subgraph_reachable in Hv.
  - now apply whole_subgraph_reachable.
Qed.

(* ================================================================== *)
(** ** [find_critical_path] *)

Lemma graph_truthy_built schedule :
  nx.nodes (schedule_graph schedule) <> [] ->
  graph_truthy (graph (built schedule)) = Some (schedule_graph schedule).
Proof.
  intros H. rewrite built_graph. unfold graph_truthy, nx.number_of_nodes.
  destruct (nx.nodes (schedule_graph schedule)); [congruence | reflexivity].
Qed.

Lemma graph_truthy_empty schedule :
  nx.nodes (schedule_graph schedule) = [] ->
  graph_truthy (graph (built schedule)) = None.
Proof.
  intros H. rewrite built_graph. unfold graph_truthy, nx.number_of_nodes.
  now rewrite H.
Qed.

Lemma find_critical_path_fallback schedule :
  let G := schedule_graph schedule in
  nx.nodes G <> [] -> sources G = [] \/ sinks G = [] ->
  find_critical_path (built schedule) = fallback_result (built schedule) G.
Proof.
  intros G Hn H. unfold find_critical_path.
  rewrite (graph_truthy_built schedule Hn). fold G.
  unfold nx.number_of_nodes.
  destruct (nx.nodes G) eqn:E; [congruence |]. simpl.
  destruct H as [-> | ->]; [reflexivity |]. now destruct (sources G).
Qed.

Lemma find_critical_path_longest schedule :
  let G := schedule_graph schedule in
  sources G <> [] -> sinks G <> [] ->
  find_critical_path (built schedule) = longest_path_result (built schedule) G.
Proof.
  intros G Hs Ht. unfold find_critical_path.
  assert (Hn : nx.nodes G <> []).
  { intros E. apply Hs. unfold sources. now rewrite E. }
  rewrite (graph_truthy_built schedule Hn). fold G.
  unfold nx.number_of_nodes.
  destruct (nx.nodes G) eqn:E; [congruence |]. simpl.
  destruct (sources G); [congruence |]. destruct (sinks G); [congruence |].
  reflexivity.
Qed.

Lemma find_critical_path_empty schedule :
  nx.nodes (schedule_graph schedule) = [] ->
  find_critical_path (built schedule) = empty_result.
Proof.
  intros H. unfold find_critical_path.
  now rewrite (graph_truthy_empty schedule H).
Qed.

Lemma has_source_sources G : (exists s, is_source G s) <-> sources G <> [].
Proof.
  split.
  - intros (s & Hs) E. apply In_sources in Hs. rewrite E in Hs. destruct Hs.
  - destruct (sources G) as [| s r] eqn:E; [congruence |]. intros _.
    exists s. apply In_sources. rewrite E. now left.
Qed.

Lemma has_sink_sinks G : (exists t, is_sink G t) <-> sinks G <> [].
Proof.
  split.
  - intros (s & Hs) E. apply In_sinks in Hs. rewrite E in Hs. destruct Hs.
  - destruct (sinks G) as [| s r] eqn:E; [congruence |]. intros _.
    exists s. apply In_sinks. rewrite E. now left.
Qed.

Lemma no_source_sources G : (forall n, ~ is_source G n) <-> sources G = [].
Proof.
  split.
  - intros H. destruct (sources G) as [| s r] eqn:E; [reflexivity |].
    elim (H s). apply In_sources. rewrite E. now left.
  - intros E n Hn. apply In_sources in Hn. rewrite E in Hn. destruct Hn.
Qed.

Lemma no_sink_sinks G : (forall n, ~ is_sink G n) <-> sinks G = [].
Proof.
  split.
  - intros H. destruct (sinks G) as [| s r] eqn:E; [reflexivity |].
    elim (H s). apply In_sinks. rewrite E. now left.
  - intros E n Hn. apply In_sinks in Hn. rewrite E in Hn. destruct Hn.
Qed.

(** what the three loops leave in [(longest_path, longest_duration)] *)
Lemma longest_path_result_spec schedule :
  let G := schedule_graph schedule in
  let r := longest_path_result (built schedule) G in
  (forall p, source_to_sink_path G p -> path_weight G p <= total_duration_days r) /\
  ((path_activities r = [] /\ total_duration_days r = 0) \/
   (source_to_sink_path G (path_activities r) /\
    path_weight G (path_activities r) = total_duration_days r /\
    0 < total_duration_days r)) /\
  bottleneck_activity r =
    find_bottleneck (index_activities (activities schedule)) (path_activities r) /\
  path_risk_level r =
    _assess_path_risk (index_activities (activities schedule)) (path_activities r).
Proof.
  intros G r. subst r. unfold longest_path_result. rewrite built_activities.
  pose proof (longest_spec (index_activities (activities schedule))
                (candidate_paths G)) as [Hub Hor].
  pose proof (schedule_graph_well_formed schedule) as W. fold G in W.
  destruct (longest (index_activities (activities schedule)) (candidate_paths G))
    as [lp ld]. simpl in *.
  split; [| split; [| split; reflexivity]].
  - intros p Hp. rewrite <- (path_duration_weight schedule).
    apply Hub. now apply candidate_paths_iff.
  - destruct Hor as [[= -> ->] | (Hin & Hd & Hpos)]; [now left | right].
    rewrite <- (path_duration_weight schedule).
    repeat split; auto. now apply candidate_paths_iff.
Qed.

(** C1: on a graph without cycles that has a source and a sink, the total
    duration [find_critical_path] returns is the maximum, over the simple
    paths from a source to a sink, of the sum of the durations of the
    activities on the path. *)
Theorem critical_path_duration_is_maximum schedule :
  let G := schedule_graph schedule in
  ~ has_cycle G ->
  (exists s, is_source G s) -> (exists t, is_sink G t) ->
  max_source_to_sink_duration G
    (total_duration_days (find_critical_path (built schedule))).
Proof.
  intros G Hac Hs Ht.
  rewrite find_critical_path_longest;
    [| now apply has_source_sources | now apply has_sink_sinks].
  destruct (longest_path_result_spec schedule) as (Hub & Hor & _). fold G in Hub, Hor.
  split; [| exact Hub].
  destruct Hor as [[_ H0] | (Hp & Hw & _)].
  - destruct Hs as (s & Hs).
    destruct (acyclic_source_to_sink G s (schedule_graph_well_formed schedule) Hac Hs)
      as (p & Hp).
    exists p. split; [exact Hp |]. specialize (Hub p Hp). fold G. lia.
  - eauto.
Qed.

Lemma critical_path_duration_is_maximum_witness :
  max_source_to_sink_duration (schedule_graph parallel_schedule) 84.
Proof.
  apply (critical_path_duration_is_maximum parallel_schedule).
  - apply is_directed_acyclic_graph_spec.
    + apply schedule_graph_well_formed.
    + vm_compute. reflexivity.
  - exists "A"%string. split; [simpl; auto | reflexivity].
  - exists "D"%string. split; [simpl; auto 6 | reflexivity].
Defined.

(** C4: on a non-empty graph without a source or without a sink
    [find_critical_path] returns every node as the path, the sum of all
    node durations as the total, and the medium risk level. *)
Theorem no_source_or_sink_gives_fallback schedule :
  let G := schedule_graph schedule in
  let r := find_critical_path (built schedule) in
  nx.nodes G <> [] ->
  (forall n, ~ is_source G n) \/ (forall n, ~ is_sink G n) ->
  path_activities r = nx.nodes G /\
  total_duration_days r = path_weight G (nx.nodes G) /\
  path_risk_level r = MEDIUM.
Proof.
  intros G r Hn H. subst r.
  rewrite find_critical_path_fallback; fold G.
  - unfold fallback_result.
    cbn [path_activities total_duration_days path_risk_level].
    rewrite built_activities, (path_duration_weight schedule). fold G. auto.
  - exact Hn.
  - destruct H as [H | H]; [left; now apply no_source_sources
                           | right; now apply no_sink_sinks].
Qed.

Lemma no_source_or_sink_gives_fallback_witness :
  path_activities (find_critical_path (built deadlock_schedule)) = ["A"; "B"]%string /\
  total_duration_days (find_critical_path (built deadlock_schedule)) = 30 /\
  path_risk_level (find_critical_path (built deadlock_schedule)) = MEDIUM.
Proof.
  apply (no_source_or_sink_gives_fallback deadlock_schedule).
  - vm_compute. discriminate.
  - left. apply no_source_sources. vm_compute. reflexivity.
Defined.

(** C5, counterexample: without a source or a sink the result lists every
    node as the path and still has no bottleneck. *)
Lemma fallback_has_no_bottleneck :
  path_activities (find_critical_path (built deadlock_schedule)) = ["A"; "B"]%string /\
  bottleneck_activity (find_critical_path (built deadlock_schedule)) = None.
Proof. split; reflexivity. Qed.

(** C5, amended: when the graph has a source and a sink (or no node at
    all) the bottleneck is the first node of largest duration on the
    returned path, and there is none only when that path is empty; when a
    non-empty graph has no source or no sink, the path is the list of all
    nodes and there is no bottleneck. *)
Theorem bottleneck_of_result schedule :
  let G := schedule_graph schedule in
  let index := index_activities (activities schedule) in
  let r := find_critical_path (built schedule) in
  (nx.nodes G <> [] /\
   ((forall n, ~ is_source G n) \/ (forall n, ~ is_sink G n)) /\
   path_activities r = nx.nodes G /\ bottleneck_activity r = None)
  \/
  ((nx.nodes G = [] \/ ((exists s, is_source G s) /\ (exists t, is_sink G t))) /\
   match bottleneck_activity r with
   | Some b => first_longest index (path_activities r) b
   | None => path_activities r = []
   end).
Proof.
  intros G index r. subst r.
  destruct (nx.nodes G) as [| n0 ns] eqn:En.
  - right. split; [now left |].
    rewrite find_critical_path_empty by exact En. reflexivity.
  - assert (Hn : nx.nodes G <> []) by (rewrite En; discriminate).
    destruct (sources G) as [| s ss] eqn:Es.
    { left. rewrite find_critical_path_fallback; auto.
      repeat split; auto; try discriminate. left. now apply no_source_sources. }
    destruct (sinks G) as [| t ts] eqn:Et.
    { left. rewrite find_critical_path_fallback; auto.
      repeat split; auto; try discriminate. right. now apply no_sink_sinks. }
    right. split.
    + right. split; [apply has_source_sources | apply has_sink_sinks];
        fold G; congruence.
    + rewrite find_critical_path_longest by (fold G; congruence).
      destruct (longest_path_result_spec schedule) as (_ & Hor & Hb & _).
      fold G in Hor. rewrite Hb. fold index.
      pose proof (find_bottleneck_spec index
                    (path_activities (longest_path_result (built schedule) G))) as Hf.
      destruct (find_bottleneck index _) as [b |]; [apply Hf |].
      destruct Hor as [[H _] | (_ & Hw & Hpos)]; [exact H |].
      rewrite <- (path_duration_weight schedule) in Hw.
      fold index in Hw. rewrite (path_duration_zero index _ Hf) in Hw. lia.
Qed.

(** C10: when the graph has a source and a sink and every simple path from
    a source to a sink has total duration zero, [find_critical_path]
    returns the empty path, total duration zero, no bottleneck and the
    lowest risk level, although the graph has nodes. *)
Theorem zero_duration_paths_give_empty_result schedule :
  let G := schedule_graph schedule in
  ~ has_cycle G ->
  (exists s, is_source G s) -> (exists t, is_sink G t) ->
  (forall p, source_to_sink_path G p -> path_weight G p = 0) ->
  nx.nodes G <> [] /\
  find_critical_path (built schedule) =
  {| path_activities := []; total_duration_days := 0;
     bottleneck_activity := None; path_risk_level := LOW |}.
Proof.
  intros G _ Hs Ht Hz. split.
  { destruct Hs as (s & Hs & _). intros E. rewrite E in Hs. destruct Hs. }
  rewrite find_critical_path_longest;
    [| now apply has_source_sources | now apply has_sink_sinks].
  destruct (longest_path_result_spec schedule) as (_ & Hor & Hb & Hr).
  subst G.
  destruct (longest_path_result (built schedule) (schedule_graph schedule))
    as [lp ld b rl].
  simpl in *. destruct Hor as [[-> ->] | (Hp & Hw & Hpos)].
  - subst b rl. reflexivity.
  - rewrite (Hz lp Hp) in Hw. lia.
Qed.

Lemma index_activities_In acts : forall (d : Dict.t ScheduleActivity) k a,
  Dict.get (fold_left (fun d a => Dict.set d (id a) a) acts d) k = Some a ->
  Dict.get d k = Some a \/ In a acts.
Proof.
  induction acts as [| b acts IH]; intros d k a H; [now left |].
  simpl in H. apply IH in H. destruct H as [H | H]; [| right; now right].
  destruct (string_dec (id b) k) as [<- | Hne].
  - rewrite get_set_same in H. injection H as ->. right. now left.
  - rewrite get_set_other in H by assumption. now left.
Qed.

Lemma all_zero_path_weight schedule :
  (forall a, In a (activities schedule) -> duration_days a = 0) ->
  forall p, path_weight (schedule_graph schedule) p = 0.
Proof.
  intros H p. rewrite <- (path_duration_weight schedule).
  apply path_duration_zero. intros x _. unfold indexed_duration.
  destruct (Dict.get (index_activities (activities schedule)) x) as [a |] eqn:E;
    [| reflexivity].
  apply index_activities_In in E. destruct E as [E | E]; [discriminate |].
  now apply H.
Qed.

Lemma zero_duration_paths_give_empty_result_witness :
  nx.nodes (schedule_graph milestone_schedule) <> [] /\
  find_critical_path (built milestone_schedule) =
  {| path_activities := []; total_duration_days := 0;
     bottleneck_activity := None; path_risk_level := LOW |}.
Proof.
  apply (zero_duration_paths_give_empty_result milestone_schedule).
  - apply is_directed_acyclic_graph_spec.
    + apply schedule_graph_well_formed.
    + vm_compute. reflexivity.
  - exists "M1"%string. split; [simpl; auto | reflexivity].
  - exists "M2"%string. split; [simpl; auto | reflexivity].
  - intros p _. apply all_zero_path_weight.
    intros a [<- | [<- | []]]; reflexivity.
Defined.

(* ================================================================== *)
(** ** [build_graph] *)

Lemma index_untouched acts : forall (d : Dict.t ScheduleActivity) k,
  ~ In k (map id acts) ->
  Dict.get (fold_left (fun d a => Dict.set d (id a) a) acts d) k = Dict.get d k.
Proof.
  induction acts as [| b acts IH]; intros d k H; [reflexivity |].
  simpl in *. rewrite IH by tauto. apply get_set_other. tauto.
Qed.

Lemma index_get_distinct acts : forall (d : Dict.t ScheduleActivity) a,
  NoDup (map id acts) -> In a acts ->
  Dict.get (fold_left (fun d a => Dict.set d (id a) a) acts d) (id a) = Some a.
Proof.
  induction acts as [| b acts IH]; intros d a Hn Ha; [destruct Ha |].
  simpl in *. inversion Hn as [| ? ? Hb Hn']; subst.
  destruct Ha as [-> | Ha].
  - rewrite index_untouched by assumption. apply get_set_same.
  - now apply IH.
Qed.

(** C7, counterexample: an activity that lists itself as a predecessor
    gets a self-loop, although the identifier names no other activity. *)
Lemma self_reference_makes_edge :
  let acts := activities self_reference_schedule in
  edge (schedule_graph self_reference_schedule) "A" "A" /\
  ~ (exists a, In a acts /\ id a = "A"%string /\
               In "A"%string (predecessors a) /\
               In "A"%string (map id acts) /\ "A"%string <> id a).
Proof.
  split.
  - simpl. now left.
  - intros (a & _ & Ha & _ & _ & Hne). now elim Hne.
Qed.

(** C7, amended: for activities with distinct identifiers the nodes are
    the activity identifiers, in input order, each carrying the name, the
    duration, the trade (or "general") and the status value of its
    activity; [u -> v] is an edge exactly when the activity [v] declares the
    predecessor [u] and [u] is the identifier of an activity of the input,
    the activity itself included; other references add nothing. *)
Theorem build_graph_nodes_and_edges schedule :
  let acts := activities schedule in
  let G := schedule_graph schedule in
  NoDup (map id acts) ->
  nx.nodes G = map id acts /\
  (forall a, In a acts ->
     Dict.get (nx._node G) (id a) =
     Some (Some {| nx.attr_name := name a;
                   nx.attr_duration := duration_days a;
                   nx.attr_trade := trade_or_general (trade a);
                   nx.attr_status := status_value (status a) |})) /\
  (forall u v,
     edge G u v <->
     exists a, In a acts /\ id a = v /\ In u (predecessors a) /\
               In u (map id acts)).
Proof.
  intros acts G Hn. split; [| split].
  - now apply schedule_graph_nodes_distinct.
  - intros a Ha. unfold G. rewrite schedule_graph_attrs.
    unfold index_activities. fold acts.
    now rewrite (index_get_distinct acts Dict.empty a Hn Ha).
  - apply schedule_graph_edge.
Qed.

Lemma build_graph_nodes_and_edges_witness :
  nx.nodes (schedule_graph parallel_schedule) = ["A"; "B"; "C"; "D"]%string /\
  edge (schedule_graph parallel_schedule) "B" "D" /\
  ~ edge (schedule_graph parallel_schedule) "A" "D".
Proof.
  assert (Hn : NoDup (map id (activities parallel_schedule))).
  { simpl. repeat constructor; simpl; intuition discriminate. }
  destruct (build_graph_nodes_and_edges parallel_schedule Hn) as (H1 & _ & H3).
  split; [exact H1 | split].
  - apply H3. exists (activity "D" 14 ["B"; "C"]%string). simpl. intuition.
  - intros E. apply H3 in E. destruct E as (a & Ha & Hid & Hp & _).
    simpl in Ha. destruct Ha as [<- | [<- | [<- | [<- | []]]]]; simpl in *;
      intuition discriminate.
Defined.

(* ================================================================== *)
(** ** A schedule of one activity *)

(** C8, counterexample: a single milestone (duration zero) gets two
    findings, and its critical path is empty. *)
Lemma single_milestone_report :
  let s := schedule_of [activity "X" 0 []] in
  validate_schedule_integrity (built s) = [ZeroDuration 1; IsolatedActivity "X"] /\
  path_activities (find_critical_path (built s)) = [].
Proof. split; reflexivity. Qed.

(** C8, amended: for a single activity without predecessors, the report
    is the isolated-activity finding for that node, preceded by the
    zero-duration finding when the duration is zero; the total duration of
    the critical path is the activity's duration, and when that is
    positive the path is that node alone. *)
Theorem single_activity_schedule a nm :
  let s := {| project_name := nm; activities := [a] |} in
  predecessors a = [] ->
  validate_schedule_integrity (built s) =
    (if duration_days a =? 0 then [ZeroDuration 1] else [])
    ++ [IsolatedActivity (id a)] /\
  total_duration_days (find_critical_path (built s)) = duration_days a /\
  (0 < duration_days a ->
   path_activities (find_critical_path (built s)) = [id a]).
Proof.
  destruct a as [i n d st ps ss tr]. intros s Hp. simpl in Hp. subst ps s.
  destruct d as [| d].
  - cbn. rewrite ?String.eqb_refl. cbn.
    unfold zero_duration_issues, zero_duration_ids, longest_path_result,
      candidate_paths, sources, sinks, longest, keep_longer, path_duration.
    cbn. rewrite ?String.eqb_refl. cbn. rewrite ?String.eqb_refl. cbn.
    repeat split. intros H. inversion H.
  - cbn. rewrite ?String.eqb_refl. cbn.
    unfold zero_duration_issues, zero_duration_ids, longest_path_result,
      candidate_paths, sources, sinks, longest, keep_longer, path_duration.
    cbn. rewrite ?String.eqb_refl. cbn. rewrite ?String.eqb_refl. cbn.
    repeat split. f_equal. lia.
Qed.

Lemma single_activity_schedule_witness :
  let s := schedule_of [activity "X" 100 []] in
  validate_schedule_integrity (built s) = [IsolatedActivity "X"] /\
  total_duration_days (find_critical_path (built s)) = 100 /\
  path_activities (find_critical_path (built s)) = ["X"]%string.
Proof.
  destruct (single_activity_schedule (activity "X" 100 []) "Project" eq_refl)
    as (H1 & H2 & H3).
  split; [exact H1 | split; [exact H2 |]]. apply H3. simpl. lia.
Defined.

(* ================================================================== *)
(** ** [validate_schedule_integrity] *)

Lemma no_elements_nil {A} (l : list A) : (forall x, ~ In x l) -> l = [].
Proof.
  destruct l as [| a l]; [reflexivity |]. intros H. elim (H a). now left.
Qed.

Lemma has_cycle_dec G : well_formed G -> has_cycle G \/ ~ has_cycle G.
Proof.
  intros W. destruct (nx.is_directed_acyclic_graph G) eqn:E.
  - right. now apply is_directed_acyclic_graph_spec.
  - left. unfold nx.is_directed_acyclic_graph in E.
    assert (exists e, In e (nx._edges G) /\
              nx.is_nil (nx.all_simple_paths G (snd e) (fst e)) = false)
      as ([u v] & He & Hp).
    { clear W. induction (nx._edges G) as [| e l IH]; [discriminate |].
      simpl in E. apply andb_false_iff in E. destruct E as [E | E].
      - exists e. split; [now left | exact E].
      - destruct (IH E) as (e' & H1 & H2). exists e'. split; [now right | exact H2]. }
    simpl in Hp. apply (nonempty_paths_iff G v u W (proj2 (W _ _ He))) in Hp.
    exists u. destruct Hp as [-> | Hr].
    + now apply reach_edge.
    + now apply reach_step with v.
Qed.

Lemma cycle_issues_spec G :
  well_formed G ->
  (has_cycle G /\ exists n, 0 < n /\ cycle_issues G = [CircularDependency n]) \/
  (~ has_cycle G /\ cycle_issues G = []).
Proof.
  intros W. unfold cycle_issues.
  destruct (nx.is_directed_acyclic_graph G) eqn:E.
  - right. split; [now apply is_directed_acyclic_graph_spec | reflexivity].
  - assert (Hc : has_cycle G).
    { destruct (has_cycle_dec G W) as [H | H]; [exact H |].
      apply is_directed_acyclic_graph_spec in H; [congruence | exact W]. }
    left. split; [exact Hc |].
    exists (List.length (nx.simple_cycles G)). split; [| reflexivity].
    apply (simple_cycles_spec G W) in Hc.
    destruct (nx.simple_cycles G); [congruence | simpl; lia].
Qed.

Lemma component_issues_spec G :
  well_formed G ->
  (disconnected G /\
   exists n, 1 < n /\ component_issues G = [DisconnectedGroups n]) \/
  (~ disconnected G /\ component_issues G = []).
Proof.
  intros W. unfold component_issues.
  pose proof (connected_components_spec G W) as S.
  destruct (1 <? List.length (nx.connected_components (nx.to_undirected G))) eqn:E.
  - apply Nat.ltb_lt in E. left. split; [now apply S | eauto].
  - apply Nat.ltb_ge in E. right. split; [| reflexivity].
    intros H. apply S in H. lia.
Qed.

Lemma NoDup_keys_set {V} (d : Dict.t V) k v :
  NoDup (Dict.keys d) -> NoDup (Dict.keys (Dict.set d k v)).
Proof.
  intros H. rewrite keys_set. destruct (mem k (Dict.keys d)) eqn:E; [exact H |].
  apply mem_false in E. apply NoDup_app; auto.
  - constructor; [intros [] | constructor].
  - intros x Hx [<- | []]. contradiction.
Qed.

Lemma NoDup_keys_index acts : forall d : Dict.t ScheduleActivity,
  NoDup (Dict.keys d) ->
  NoDup (Dict.keys (fold_left (fun d a => Dict.set d (id a) a) acts d)).
Proof.
  induction acts as [| a acts IH]; intros d H; [exact H |].
  simpl. apply IH. now apply NoDup_keys_set.
Qed.

Lemma In_get {V} (d : Dict.t V) k v :
  NoDup (Dict.keys d) -> In (k, v) d -> Dict.get d k = Some v.
Proof.
  induction d as [| [k' v'] r IH]; intros Hn H; [destruct H |].
  simpl in *. inversion Hn as [| ? ? Hk Hn']; subst.
  destruct H as [[= -> ->] | H].
  - now rewrite String.eqb_refl.
  - destruct (String.eqb k' k) eqn:E; [| now apply IH].
    apply String.eqb_eq in E. subst k'. elim Hk.
    change k with (fst (k, v)). now apply in_map.
Qed.

Lemma zero_duration_issues_spec schedule :
  let G := schedule_graph schedule in
  let index := index_activities (activities schedule) in
  (has_milestone G /\
   exists n, 0 < n /\ zero_duration_issues index = [ZeroDuration n]) \/
  (~ has_milestone G /\ zero_duration_issues index = []).
Proof.
  intros G index.
  assert (Hk : NoDup (Dict.keys index)).
  { apply NoDup_keys_index. constructor. }
  assert (Hiff : zero_duration_ids index <> [] <-> has_milestone G).
  { unfold zero_duration_ids, has_milestone. split.
    - destruct (filter _ (Dict.values index)) as [| a l] eqn:E; [simpl; congruence |].
      intros _. assert (Ha : In a (filter (fun a => duration_days a =? 0) (Dict.values index)))
        by (rewrite E; now left).
      apply filter_In in Ha. destruct Ha as [Ha Hz]. apply Nat.eqb_eq in Hz.
      unfold Dict.values in Ha. apply in_map_iff in Ha.
      destruct Ha as ([k a'] & Hs & Hin). simpl in Hs. subst a'.
      pose proof (In_get index k a Hk Hin) as Hg.
      exists k. split.
      + apply schedule_graph_nodes. apply index_contains.
        unfold Dict.contains. fold index. now rewrite Hg.
      + unfold node_duration, G. rewrite schedule_graph_attrs. fold index.
        now rewrite Hg.
    - intros (k & Hin & Hz) E.
      apply schedule_graph_nodes, index_contains in Hin.
      unfold Dict.contains in Hin. fold index in Hin.
      unfold node_duration, G in Hz. rewrite schedule_graph_attrs in Hz.
      fold index in Hz.
      destruct (Dict.get index k) as [a |] eqn:Hg; [| discriminate].
      simpl in Hz. apply get_In in Hg.
      assert (Ha : In (id a) (map id (filter (fun a => duration_days a =? 0)
                                            (Dict.values index)))).
      { apply in_map, filter_In. split; [| now apply Nat.eqb_eq].
        unfold Dict.values. change a with (snd (k, a)). now apply in_map. }
      rewrite E in Ha. destruct Ha. }
  unfold zero_duration_issues. destruct (zero_duration_ids index) eqn:E.
  - right. split; [| reflexivity]. intros H. apply Hiff in H. congruence.
  - left. split; [apply Hiff; discriminate |].
    eexists. split; [| reflexivity]. simpl. lia.
Qed.

Lemma is_isolated_iff G x :
  is_isolated G x = true <->
  (forall u, ~ edge G u x) /\ (forall v, ~ edge G x v).
Proof.
  unfold is_isolated.
  now rewrite andb_true_iff, !Nat.eqb_eq, in_degree_zero, out_degree_zero.
Qed.

Lemma validate_built schedule :
  let G := schedule_graph schedule in
  nx.nodes G <> [] ->
  validate_schedule_integrity (built schedule) =
  cycle_issues G ++ component_issues G
  ++ zero_duration_issues (index_activities (activities schedule))
  ++ isolated_issues G.
Proof.
  intros G H. unfold validate_schedule_integrity.
  now rewrite (graph_truthy_built schedule H).
Qed.

Lemma schedule_graph_nonempty schedule :
  activities schedule <> [] -> nx.nodes (schedule_graph schedule) <> [].
Proof.
  intros H E. destruct (activities schedule) as [| a acts] eqn:Ea;
    [now elim H |].
  assert (Hin : In (id a) (nx.nodes (schedule_graph schedule))).
  { apply schedule_graph_nodes. rewrite Ea. now left. }
  rewrite E in Hin. destruct Hin.
Qed.

(** C6: for the graph built from a schedule, which has at least one
    activity, [validate_schedule_integrity] returns a report, which is,
    in this order: the cycle finding exactly when the graph has a cycle,
    the disconnection finding exactly when two nodes are not joined by
    edges taken in either direction, the zero-duration finding exactly
    when some node has duration zero, and one finding for each node
    without incoming and outgoing edges, in node order; without any of
    these the report is empty. *)
Theorem integrity_report_order schedule :
  let G := schedule_graph schedule in
  let report := validate_schedule_integrity (built schedule) in
  activities schedule <> [] ->
  exists cyc dis zer iso,
    report = cyc ++ dis ++ zer ++ map IsolatedActivity iso /\
    ((has_cycle G /\ exists n, 0 < n /\ cyc = [CircularDependency n]) \/
     (~ has_cycle G /\ cyc = [])) /\
    ((disconnected G /\ exists n, 1 < n /\ dis = [DisconnectedGroups n]) \/
     (~ disconnected G /\ dis = [])) /\
    ((has_milestone G /\ exists n, 0 < n /\ zer = [ZeroDuration n]) \/
     (~ has_milestone G /\ zer = [])) /\
    iso = filter (is_isolated G) (nx.nodes G) /\
    (forall x, In x iso <->
               In x (nx.nodes G) /\
               (forall u, ~ edge G u x) /\ (forall v, ~ edge G x v)) /\
    (report = [] <->
     ~ has_cycle G /\ ~ disconnected G /\ ~ has_milestone G /\
     forall x, In x (nx.nodes G) ->
               ~ ((forall u, ~ edge G u x) /\ (forall v, ~ edge G x v))).
Proof.
  intros G report Ha. subst report.
  pose proof (schedule_graph_nonempty schedule Ha) as Hn.
  pose proof (schedule_graph_well_formed schedule) as W. fold G in W.
  rewrite (validate_built schedule Hn). fold G.
  exists (cycle_issues G), (component_issues G),
    (zero_duration_issues (index_activities (activities schedule))),
    (filter (is_isolated G) (nx.nodes G)).
  pose proof (cycle_issues_spec G W) as Hc.
  pose proof (component_issues_spec G W) as Hd.
  pose proof (zero_duration_issues_spec schedule) as Hz. fold G in Hz. simpl in Hz.
  assert (Hi : forall x, In x (filter (is_isolated G) (nx.nodes G)) <->
                 In x (nx.nodes G) /\
                 (forall u, ~ edge G u x) /\ (forall v, ~ edge G x v)).
  { intros x. now rewrite filter_In, is_isolated_iff. }
  repeat (split; [first [reflexivity | assumption] |]).
  unfold isolated_issues. split.
  - intros E. apply app_eq_nil in E. destruct E as [E1 E].
    apply app_eq_nil in E. destruct E as [E2 E].
    apply app_eq_nil in E. destruct E as [E3 E4].
    apply map_eq_nil in E4.
    repeat split.
    + destruct Hc as [(_ & n & _ & H) | [H _]]; [congruence | exact H].
    + destruct Hd as [(_ & n & _ & H) | [H _]]; [congruence | exact H].
    + destruct Hz as [(_ & n & _ & H) | [H _]]; [congruence | exact H].
    + intros x Hx Hiso. assert (Hin : In x (filter (is_isolated G) (nx.nodes G)))
        by (apply Hi; tauto).
      rewrite E4 in Hin. destruct Hin.
  - intros (H1 & H2 & H3 & H4).
    destruct Hc as [[H _] | [_ ->]]; [contradiction |].
    destruct Hd as [[H _] | [_ ->]]; [contradiction |].
    destruct Hz as [[H _] | [_ ->]]; [contradiction |].
    simpl. rewrite (no_elements_nil (filter (is_isolated G) (nx.nodes G)));
      [reflexivity |].
    intros x Hin. apply Hi in Hin. elim (H4 x); tauto.
Qed.

Lemma integrity_report_order_witness :
  validate_schedule_integrity (built loop_schedule) <> [].
Proof.
  destruct (integrity_report_order loop_schedule)
    as (cyc & dis & zer & iso & _ & _ & _ & _ & _ & _ & Hiff).
  - vm_compute. discriminate.
  - intros E. apply Hiff in E. destruct E as [Hac _]. apply Hac.
    exists "B"%string. apply reach_step with "C"%string.
    + unfold edge. simpl. tauto.
    + apply reach_edge. unfold edge. simpl. tauto.
Defined.

(* ================================================================== *)
(** ** Schedules with a dependency cycle *)

Lemma loop_schedule_has_cycle : has_cycle (schedule_graph loop_schedule).
Proof.
  exists "B"%string. apply reach_step with "C"%string.
  - unfold edge. simpl. tauto.
  - apply reach_edge. unfold edge. simpl. tauto.
Qed.

(** C9, counterexample: a cycle between a source and a sink is not
    handled by the fallback branch; the path search runs, and returns a
    path through the cycle's nodes. *)
Lemma cycle_with_source_and_sink_is_searched :
  has_cycle (schedule_graph loop_schedule) /\
  find_critical_path (built loop_schedule) <>
    fallback_result (built loop_schedule) (schedule_graph loop_schedule) /\
  find_critical_path (built loop_schedule) =
    {| path_activities := ["A"; "B"; "C"; "D"]%string;
       total_duration_days := 4;
       bottleneck_activity := Some "A"%string;
       path_risk_level := LOW |}.
Proof.
  split; [exact loop_schedule_has_cycle | split; [| reflexivity]].
  vm_compute. discriminate.
Qed.

(** C9, amended: for a graph with a cycle the report starts with the
    cycle finding, and [find_critical_path] returns a result: the
    fallback result when the graph has no source or no sink, and
    otherwise the result of the search, which looks at the simple paths
    from a source to a sink and at nothing else, so at finitely many
    paths even though the graph has a cycle. *)
Theorem cyclic_schedule_handled schedule :
  let G := schedule_graph schedule in
  let r := find_critical_path (built schedule) in
  has_cycle G ->
  (exists n rest,
     0 < n /\
     validate_schedule_integrity (built schedule) =
     CircularDependency n :: rest) /\
  (((forall n, ~ is_source G n) \/ (forall n, ~ is_sink G n)) /\
   r = fallback_result (built schedule) G
   \/
   ((exists s, is_source G s) /\ (exists t, is_sink G t)) /\
   r = longest_path_result (built schedule) G /\
   forall p, In p (candidate_paths G) <-> source_to_sink_path G p).
Proof.
  intros G r Hc. subst r.
  pose proof (schedule_graph_well_formed schedule) as W. fold G in W.
  assert (Hn : nx.nodes G <> []).
  { destruct Hc as (v & Hv). apply (reachable_nodes G v v W) in Hv.
    intros E. rewrite E in Hv. now destruct Hv. }
  split.
  - rewrite (validate_built schedule Hn). fold G.
    destruct (cycle_issues_spec G W) as [(_ & n & Hpos & ->) | [H _]];
      [| contradiction].
    simpl. eauto.
  - destruct (sources G) as [| s ss] eqn:Es.
    { left. split; [left; now apply no_source_sources |].
      apply find_critical_path_fallback; auto. }
    destruct (sinks G) as [| t ts] eqn:Et.
    { left. split; [right; now apply no_sink_sinks |].
      apply find_critical_path_fallback; auto. }
    right. split; [| split].
    + split; [apply has_source_sources | apply has_sink_sinks]; congruence.
    + apply find_critical_path_longest; fold G; congruence.
    + intros p. now apply candidate_paths_iff.
Qed.

Lemma cyclic_schedule_handled_witness :
  exists n rest,
    0 < n /\
    validate_schedule_integrity (built loop_schedule) =
    CircularDependency n :: rest.
Proof.
  exact (proj1 (cyclic_schedule_handled loop_schedule loop_schedule_has_cycle)).
Defined.

(* ================================================================== *)
(** ** [find_high_risk_activities] *)

Section Ranking.
Variable N : Numerics.
Hypothesis order : strict_weak_order N.

Local Notation "'item'" := (string * float N)%type.
Local Notation "'not_below'" :=
  (fun x y : string * float N => flt N (snd x) (snd y) = false).

Lemma insert_desc_perm (x : item) l : Permutation (insert_desc N x l) (x :: l).
Proof.
  induction l as [| y r IH]; simpl; [reflexivity |].
  destruct (flt N (snd x) (snd y)); [| reflexivity].
  rewrite IH. apply perm_swap.
Qed.

Lemma sorted_desc_perm (l : list item) : Permutation (sorted_desc N l) l.
Proof.
  induction l as [| x r IH]; simpl; [reflexivity |].
  rewrite insert_desc_perm. now constructor.
Qed.

Lemma insert_desc_sorted (x : item) l :
  StronglySorted not_below l -> StronglySorted not_below (insert_desc N x l).
Proof.
  destruct order as [asym ntrans].
  induction 1 as [| y r Hs IH Hf]; simpl.
  - constructor; [constructor | constructor].
  - destruct (flt N (snd x) (snd y)) eqn:E.
    + constructor; [exact IH |].
      eapply Permutation_Forall.
      * apply Permutation_sym, insert_desc_perm.
      * constructor; [now apply asym | exact Hf].
    + constructor; [now constructor |].
      constructor; [exact E |].
      apply Forall_forall. intros z Hz.
      rewrite Forall_forall in Hf. cbv beta in *.
      apply ntrans with (snd y); auto.
Qed.

Lemma sorted_desc_sorted (l : list item) :
  StronglySorted not_below (sorted_desc N l).
Proof.
  induction l as [| x r IH]; simpl; [constructor |].
  now apply insert_desc_sorted.
Qed.


End Ranking.



(** the call raises only for a duration beyond the range *)
Lemma no_overflow_in_float_range schedule :
  durations_in_float_range schedule = true ->
  find_high_risk_activities_raises (built schedule) = false.
Proof.
  intros H. unfold find_high_risk_activities_raises.
  destruct (graph_truthy (graph (built schedule))) as [G |]; [| reflexivity].
  destruct (existsb (risk_score_overflows (engine_activities (built schedule)))
                    (nx.nodes G)) eqn:E; [| reflexivity].
  apply existsb_exists in E. destruct E as (node & _ & E).
  unfold risk_score_overflows in E. rewrite built_activities in E.
  destruct (Dict.get (index_activities (activities schedule)) node)
    as [a |] eqn:Ea; [| discriminate].
  unfold index_activities in Ea. apply index_activities_In in Ea.
  destruct Ea as [Ea | Ea]; [discriminate |].
  unfold durations_in_float_range in H. rewrite forallb_forall in H.
  specialize (H a Ea). rewrite E in H. discriminate.
Qed.

Lemma run_in_float_range N schedule :
  durations_in_float_range schedule = true ->
  run_find_high_risk_activities N (built schedule)
  = Some (find_high_risk_activities N (built schedule)).
Proof.
  intros H. unfold run_find_high_risk_activities.
  now rewrite (no_overflow_in_float_range schedule H).
Qed.

(** one activity that lasts too long for the division: the call raises *)
Lemma overflowing_duration_raises N a nm :
  truediv_overflows (duration_days a) 30 = true ->
  run_find_high_risk_activities N
    (built {| project_name := nm; activities := [a] |}) = None.
Proof.
  intros H. set (s := {| project_name := nm; activities := [a] |}).
  assert (Hd : NoDup (map id (activities s))).
  { simpl. constructor; [intros [] | constructor]. }
  assert (Hn : nx.nodes (schedule_graph s) = [id a])
    by exact (schedule_graph_nodes_distinct s Hd).
  assert (Hg : Dict.get (index_activities (activities s)) (id a) = Some a).
  { unfold index_activities.
    apply (index_get_distinct (activities s) Dict.empty a Hd). now left. }
  unfold run_find_high_risk_activities, find_high_risk_activities_raises.
  rewrite graph_truthy_built by (rewrite Hn; discriminate).
  rewrite Hn, built_activities. unfold risk_score_overflows at 1.
  cbn [existsb]. now rewrite Hg, H.
Qed.

Lemma high_risk_count N schedule :
  let n := nx.number_of_nodes (schedule_graph schedule) in
  List.length (find_high_risk_activities N (built schedule)) =
  if n =? 0 then 0 else Nat.max 1 (n / 5).
Proof.
  intros n. unfold find_high_risk_activities.
  destruct (nx.nodes (schedule_graph schedule)) as [| v r] eqn:E.
  - rewrite (graph_truthy_empty schedule E). subst n.
    unfold nx.number_of_nodes. now rewrite E.
  - rewrite graph_truthy_built by (rewrite E; discriminate).
    assert (Hl : List.length (sorted_desc N (risk_scores N (schedule_graph schedule)
                   (engine_activities (built schedule)))) = n).
    { rewrite (Permutation_length (sorted_desc_perm N _)).
      unfold risk_scores. now rewrite length_map. }
    rewrite length_map, length_firstn, Hl.
    assert (Hn : n <> 0) by (subst n; unfold nx.number_of_nodes; rewrite E; discriminate).
    apply Nat.eqb_neq in Hn. rewrite Hn. apply Nat.eqb_neq in Hn.
    apply Nat.min_l.
    assert (Hd : n / 5 <= n) by (apply Nat.Div0.div_le_upper_bound; lia). lia.
Qed.



Lemma rational_numerics_order : strict_weak_order rational_numerics.
Proof.
  split; simpl.
  - intros x y H. apply negb_true_iff in H. apply negb_false_iff.
    apply Qle_bool_iff. apply Qlt_le_weak. apply Qnot_le_lt.
    intros Hle. apply Qle_bool_iff in Hle. congruence.
  - intros x y z H1 H2. apply negb_false_iff in H1, H2. apply negb_false_iff.
    apply Qle_bool_iff in H1, H2. apply Qle_bool_iff.
    now apply Qle_trans with y.
Defined.


(* ================================================================== *)
(** ** The cost of the path search: a chain of diamonds *)

Lemma tally_length i : String.length (tally i) = i.
Proof. induction i as [| i IH]; simpl; [reflexivity | now rewrite IH]. Qed.

Lemma tally_inj i j : tally i = tally j -> i = j.
Proof. intros H. apply (f_equal String.length) in H. now rewrite !tally_length in H. Qed.

Lemma rank_S i : ladder_rank (S_ i) = 3 * i.
Proof. unfold S_, ladder_rank. rewrite tally_length. simpl. lia. Qed.

Lemma rank_B i : ladder_rank (B_ i) = 3 * i + 1.
Proof. unfold B_, ladder_rank. rewrite tally_length. simpl. lia. Qed.

Lemma rank_C i : ladder_rank (C_ i) = 3 * i + 2.
Proof. unfold C_, ladder_rank. rewrite tally_length. simpl. lia. Qed.

Lemma stages_ranks k : forall a,
  map ladder_rank (map id (flat_map stage (seq a k))) = seq (3 * a + 1) (3 * k).
Proof.
  induction k as [| k IH]; intros a; [reflexivity |].
  cbn [seq flat_map]. rewrite !map_app, IH.
  cbn [stage map id activity app].
  rewrite rank_B, rank_C, rank_S.
  replace (3 * S k) with (S (S (S (3 * k)))) by lia. cbn [seq].
  repeat f_equal; lia.
Qed.

Lemma ladder_ranks k :
  map ladder_rank (map id (activities (ladder k))) = seq 0 (3 * k + 1).
Proof.
  unfold ladder, schedule_of. cbn [activities map id activity].
  rewrite stages_ranks, rank_S.
  replace (3 * k + 1) with (S (3 * k)) by lia. reflexivity.
Qed.

Lemma ladder_ids_distinct k : NoDup (map id (activities (ladder k))).
Proof.
  apply (NoDup_map_inv ladder_rank). rewrite ladder_ranks. apply seq_NoDup.
Qed.

Lemma ladder_nodes k :
  nx.number_of_nodes (schedule_graph (ladder k)) = 3 * k + 1.
Proof.
  unfold nx.number_of_nodes.
  rewrite (schedule_graph_nodes_distinct (ladder k) (ladder_ids_distinct k)).
  rewrite <- (length_map ladder_rank), ladder_ranks. apply length_seq.
Qed.

Lemma ladder_edges k :
  nx.number_of_edges (schedule_graph (ladder k)) <= 4 * k.
Proof.
  assert (E : forall a,
             list_sum (map (fun x => List.length (predecessors x))
                           (flat_map stage (seq a k))) = 4 * k).
  { induction k as [| j IH]; intros a; [reflexivity |].
    cbn [seq flat_map]. rewrite map_app, list_sum_app, IH. simpl. lia. }
  pose proof (schedule_graph_edges_length (ladder k)) as H.
  replace (list_sum _) with (4 * k) in H; [exact H |].
  unfold ladder, schedule_of. cbn [activities map list_sum fold_right].
  rewrite E. reflexivity.
Qed.

Lemma In_ladder k a :
  In a (activities (ladder k)) <->
  a = activity (S_ 0) 1 [] \/ exists i, i < k /\ In a (stage i).
Proof.
  unfold ladder, schedule_of. cbn [activities]. simpl In at 1.
  rewrite in_flat_map. split.
  - intros [<- | (i & Hi & Ha)]; [now left | right].
    apply in_seq in Hi. exists i. split; [lia | exact Ha].
  - intros [-> | (i & Hi & Ha)]; [now left | right].
    exists i. split; [apply in_seq; lia | exact Ha].
Qed.

Lemma ladder_has_S k i : i <= k -> In (S_ i) (map id (activities (ladder k))).
Proof.
  intros H. destruct i as [| i].
  - apply in_map_iff. exists (activity (S_ 0) 1 []). split; [reflexivity |].
    apply In_ladder. now left.
  - apply in_map_iff. exists (activity (S_ (S i)) 1 [B_ i; C_ i]).
    split; [reflexivity |]. apply In_ladder. right. exists i.
    split; [lia | simpl; tauto].
Qed.

Lemma ladder_has_side k i (b : bool) :
  i < k -> In (if b then B_ i else C_ i) (map id (activities (ladder k))).
Proof.
  intros H. apply in_map_iff.
  exists (activity (if b then B_ i else C_ i) 1 [S_ i]).
  split; [reflexivity |]. apply In_ladder. right. exists i.
  split; [lia | destruct b; simpl; tauto].
Qed.

Lemma ladder_edge_down k i (b : bool) :
  i < k -> edge (schedule_graph (ladder k)) (S_ i) (if b then B_ i else C_ i).
Proof.
  intros H. apply schedule_graph_edge.
  exists (activity (if b then B_ i else C_ i) 1 [S_ i]). repeat split.
  - apply In_ladder. right. exists i. split; [lia | destruct b; simpl; tauto].
  - simpl. now left.
  - apply ladder_has_S. lia.
Qed.

Lemma ladder_edge_up k i (b : bool) :
  i < k -> edge (schedule_graph (ladder k)) (if b then B_ i else C_ i) (S_ (S i)).
Proof.
  intros H. apply schedule_graph_edge.
  exists (activity (S_ (S i)) 1 [B_ i; C_ i]). repeat split.
  - apply In_ladder. right. exists i. split; [lia | simpl; tauto].
  - destruct b; simpl; tauto.
  - now apply ladder_has_side.
Qed.

Lemma ladder_source k : is_source (schedule_graph (ladder k)) (S_ 0).
Proof.
  split.
  - apply schedule_graph_nodes, ladder_has_S. lia.
  - apply in_degree_zero. intros u E. apply schedule_graph_edge in E.
    destruct E as (a & Ha & Hid & Hu & _). apply In_ladder in Ha.
    destruct Ha as [-> | (i & _ & Ha)]; [destruct Hu |].
    simpl in Ha. destruct Ha as [<- | [<- | [<- | []]]]; discriminate.
Qed.

Lemma ladder_sink k : is_sink (schedule_graph (ladder k)) (S_ k).
Proof.
  split.
  - apply schedule_graph_nodes, ladder_has_S. lia.
  - apply out_degree_zero. intros v E. apply schedule_graph_edge in E.
    destruct E as (a & Ha & _ & Hu & _). apply In_ladder in Ha.
    destruct Ha as [-> | (i & Hi & Ha)]; [destruct Hu |].
    simpl in Ha. destruct Ha as [<- | [<- | [<- | []]]]; simpl in Hu.
    + destruct Hu as [Hu | []]. injection Hu as Hu. apply tally_inj in Hu. lia.
    + destruct Hu as [Hu | []]. injection Hu as Hu. apply tally_inj in Hu. lia.
    + destruct Hu as [Hu | [Hu | []]]; discriminate.
Qed.

Lemma ladder_path_rank choices : forall i x,
  In x (ladder_path i choices) -> 3 * i <= ladder_rank x.
Proof.
  induction choices as [| b r IH]; intros i x; simpl.
  - intros [<- | []]. rewrite rank_S. lia.
  - intros [<- | [<- | H]].
    + rewrite rank_S. lia.
    + destruct b; rewrite ?rank_B, ?rank_C; lia.
    + apply IH in H. lia.
Qed.

Lemma ladder_path_NoDup choices : forall i, NoDup (ladder_path i choices).
Proof.
  induction choices as [| b r IH]; intros i; simpl.
  - constructor; [intros [] | constructor].
  - constructor; [| constructor; [| apply IH]].
    + intros [H | H].
      * apply (f_equal ladder_rank) in H.
        destruct b; rewrite ?rank_B, ?rank_C, rank_S in H; lia.
      * apply ladder_path_rank in H. rewrite rank_S in H. lia.
    + intros H. apply ladder_path_rank in H.
      destruct b; rewrite ?rank_B, ?rank_C in H; lia.
Qed.

Lemma ladder_path_ends choices : forall i,
  ends_at (ladder_path i choices) (S_ (i + List.length choices)).
Proof.
  induction choices as [| b r IH]; intros i; simpl.
  - rewrite Nat.add_0_r. now exists [].
  - replace (i + S (List.length r)) with (S i + List.length r) by lia.
    destruct (IH (S i)) as (q & Hq).
    exists (S_ i :: (if b then B_ i else C_ i) :: q).
    simpl. now rewrite Hq.
Qed.

Lemma ladder_path_chain k choices : forall i,
  i + List.length choices <= k ->
  chain (schedule_graph (ladder k)) (ladder_path i choices).
Proof.
  induction choices as [| b r IH]; intros i H; simpl in *; [exact I |].
  split; [apply ladder_edge_down; lia |].
  specialize (IH (S i)). destruct r as [| b' r]; simpl in *.
  - split; [apply ladder_edge_up; lia | exact I].
  - split; [apply ladder_edge_up; lia |]. apply IH. lia.
Qed.

Lemma ladder_path_incl k choices : forall i,
  i + List.length choices <= k ->
  incl (ladder_path i choices) (nx.nodes (schedule_graph (ladder k))).
Proof.
  induction choices as [| b r IH]; intros i H x; simpl in *.
  - intros [<- | []]. apply schedule_graph_nodes, ladder_has_S. lia.
  - intros [<- | [<- | Hx]].
    + apply schedule_graph_nodes, ladder_has_S. lia.
    + apply schedule_graph_nodes, ladder_has_side. lia.
    + apply (IH (S i)); [lia | exact Hx].
Qed.

Lemma ladder_path_inj i : forall c1 c2,
  ladder_path i c1 = ladder_path i c2 -> c1 = c2.
Proof.
  revert i. intros i c1. revert i.
  induction c1 as [| b1 r1 IH]; intros i [| b2 r2] H; simpl in H;
    try reflexivity; try discriminate.
  injection H as Hb Hr. f_equal.
  - destruct b1, b2; try reflexivity; discriminate.
  - exact (IH _ _ Hr).
Qed.

Lemma ladder_path_is_candidate k choices :
  List.length choices = k ->
  source_to_sink_path (schedule_graph (ladder k)) (ladder_path 0 choices).
Proof.
  intros H. exists (S_ 0), (S_ k).
  split; [apply ladder_source | split; [apply ladder_sink |]].
  split; [| split; [| split; [| split]]].
  - destruct choices; simpl; eexists; reflexivity.
  - rewrite <- H. apply (ladder_path_ends choices 0).
  - apply ladder_path_chain. simpl. lia.
  - apply ladder_path_NoDup.
  - apply ladder_path_incl. simpl. lia.
Qed.

Lemma all_choices_length k : List.length (all_choices k) = 2 ^ k.
Proof.
  induction k as [| k IH]; [reflexivity |].
  simpl. rewrite length_app, !length_map, IH. lia.
Qed.

Lemma all_choices_each k c : In c (all_choices k) -> List.length c = k.
Proof.
  revert c. induction k as [| k IH]; intros c; simpl.
  - intros [<- | []]. reflexivity.
  - intros H. apply in_app_or in H.
    destruct H as [H | H]; apply in_map_iff in H;
      destruct H as (r & <- & Hr); simpl; now rewrite (IH r Hr).
Qed.

Lemma all_choices_NoDup k : NoDup (all_choices k).
Proof.
  induction k as [| k IH]; simpl.
  - constructor; [intros [] | constructor].
  - apply NoDup_app.
    + apply Finite.Injective_map_NoDup; [| exact IH]. intros x y [= ->]. reflexivity.
    + apply Finite.Injective_map_NoDup; [| exact IH]. intros x y [= ->]. reflexivity.
    + intros c H1 H2. apply in_map_iff in H1. apply in_map_iff in H2.
      destruct H1 as (r1 & <- & _). destruct H2 as (r2 & [=] & _).
Qed.

Lemma ladder_paths_examined k :
  2 ^ k <= paths_examined (schedule_graph (ladder k)).
Proof.
  unfold paths_examined. rewrite <- all_choices_length.
  rewrite <- (length_map (ladder_path 0)).
  apply NoDup_incl_length.
  - apply Finite.Injective_map_NoDup; [| apply all_choices_NoDup].
    intros x y. apply ladder_path_inj.
  - intros p Hp. apply in_map_iff in Hp. destruct Hp as (c & <- & Hc).
    apply candidate_paths_iff; [apply schedule_graph_well_formed |].
    apply ladder_path_is_candidate. now apply all_choices_each.
Qed.

Lemma linear_bound_overtaken c : c * (7 * (c + 10) + 1) < 2 ^ (c + 10).
Proof.
  assert (A : forall n, 14 * n + 78 <= 2 ^ (n + 10)).
  { induction n as [| n IH]; [simpl; lia |].
    replace (S n + 10) with (S (n + 10)) by lia. rewrite Nat.pow_succ_r'. lia. }
  induction c as [| c IH]; [simpl; lia |].
  replace (S c + 10) with (S (c + 10)) by lia. rewrite Nat.pow_succ_r'.
  specialize (A c). nia.
Qed.

(** C2, counterexample: no constant bounds the number of paths examined
    by a multiple of the number of nodes plus the number of edges. *)
Lemma path_search_is_not_linear :
  ~ exists c, forall schedule,
      paths_examined (schedule_graph schedule)
      <= c * (nx.number_of_nodes (schedule_graph schedule)
              + nx.number_of_edges (schedule_graph schedule)).
Proof.
  intros (c & H). specialize (H (ladder (c + 10))).
  pose proof (ladder_nodes (c + 10)) as Hn.
  pose proof (ladder_edges (c + 10)) as He.
  pose proof (ladder_paths_examined (c + 10)) as Hp.
  pose proof (linear_bound_overtaken c). rewrite Hn in H. nia.
Qed.

(** C2, amended: [find_critical_path] finds the longest path by looking at
    every simple path between every source and every sink; on the chain
    of [k] diamonds, a graph of [3k + 1] nodes and at most [4k] edges, the
    body of its innermost loop runs at least [2^k] times. *)
Theorem path_search_is_exponential k :
  let G := schedule_graph (ladder k) in
  find_critical_path (built (ladder k)) = longest_path_result (built (ladder k)) G /\
  (forall p, In p (candidate_paths G) <-> source_to_sink_path G p) /\
  nx.number_of_nodes G = 3 * k + 1 /\
  nx.number_of_edges G <= 4 * k /\
  2 ^ k <= paths_examined G.
Proof.
  intros G. split; [| split; [| split; [apply ladder_nodes
                                      | split; [apply ladder_edges
                                               | apply ladder_paths_examined]]]].
  - apply find_critical_path_longest.
    + apply has_source_sources. exists (S_ 0). apply ladder_source.
    + apply has_sink_sinks. exists (S_ k). apply ladder_sink.
  - intros p. apply candidate_paths_iff, schedule_graph_well_formed.
Qed.

(* ================================================================== *)
(** * Further properties *)

(** ** Invariants of [build_graph] *)

Lemma touch_node_edges G n : nx._edges (nx.touch_node G n) = nx._edges G.
Proof. unfold nx.touch_node. now destruct (nx.has_node G n). Qed.

Lemma add_edge_NoDup G u v :
  NoDup (nx._edges G) -> NoDup (nx._edges (nx.add_edge G u v)).
Proof.
  intros H. unfold nx.add_edge.
  destruct (nx.has_edge _ u v) eqn:E; simpl; rewrite ?touch_node_edges; [exact H |].
  apply NoDup_app; auto.
  - constructor; [intros [] | constructor].
  - intros e He [<- | []].
    assert (Hf : nx.has_edge (nx.touch_node (nx.touch_node G u) v) u v = true).
    { apply has_edge_iff. unfold edge. now rewrite !touch_node_edges. }
    congruence.
Qed.

Lemma add_pred_edges_NoDup index a : forall G,
  NoDup (nx._edges G) -> NoDup (nx._edges (add_pred_edges index G a)).
Proof.
  unfold add_pred_edges. induction (predecessors a) as [| p ps IH]; intros G H;
    simpl; [exact H |].
  apply IH. destruct (Dict.contains index p); [now apply add_edge_NoDup | exact H].
Qed.

Lemma add_edges_NoDup index acts : forall G,
  NoDup (nx._edges G) -> NoDup (nx._edges (add_edges index G acts)).
Proof.
  unfold add_edges. induction acts as [| a acts IH]; intros G H; simpl; [exact H |].
  apply IH. now apply add_pred_edges_NoDup.
Qed.

Lemma keys_follow acts : forall (G : nx.DiGraph) (d : Dict.t ScheduleActivity),
  Dict.keys d = nx.nodes G ->
  Dict.keys (fold_left (fun d a => Dict.set d (id a) a) acts d)
  = nx.nodes (add_nodes G acts).
Proof.
  induction acts as [| a acts IH]; intros G d H; [exact H |].
  unfold add_nodes in *. simpl. apply IH.
  now rewrite keys_set, nodes_add_node, H.
Qed.

(** X1: after [build_graph] every edge joins two nodes of the graph, no node
    and no edge occurs twice, and the keys of [self.activities] are the
    nodes of the graph, in the same order. *)
Theorem build_graph_invariants schedule :
  let G := schedule_graph schedule in
  (forall u v, edge G u v -> In u (nx.nodes G) /\ In v (nx.nodes G)) /\
  NoDup (nx.nodes G) /\
  NoDup (nx._edges G) /\
  Dict.keys (engine_activities (built schedule)) = nx.nodes G.
Proof.
  intros G. split; [| split; [| split]].
  - apply schedule_graph_well_formed.
  - apply schedule_graph_NoDup.
  - apply add_edges_NoDup. rewrite add_nodes_edges. constructor.
  - rewrite built_activities. unfold G, nx.nodes.
    rewrite schedule_graph_node.
    apply (keys_follow (activities schedule) nx.empty_graph Dict.empty).
    reflexivity.
Qed.

(** ** Activities that share an identifier *)

Lemma nodes_add_nodes acts : forall G,
  nx.nodes (add_nodes G acts)
  = fold_left (fun acc x => if mem x acc then acc else acc ++ [x])
              (map id acts) (nx.nodes G).
Proof.
  induction acts as [| a acts IH]; intros G; [reflexivity |].
  unfold add_nodes in *. simpl. now rewrite IH, nodes_add_node.
Qed.

Lemma index_last acts : forall (d : Dict.t ScheduleActivity) k,
  Dict.get (fold_left (fun d a => Dict.set d (id a) a) acts d) k
  = match last_with_id acts k with
    | Some a => Some a
    | None => Dict.get d k
    end.
Proof.
  unfold last_with_id. induction acts as [| a acts IH] using rev_ind; intros d k.
  - reflexivity.
  - rewrite fold_left_app, rev_app_distr. simpl.
    destruct (String.eqb (id a) k) eqn:E.
    + apply String.eqb_eq in E. subst k. apply get_set_same.
    + apply String.eqb_neq in E. rewrite get_set_other by assumption. apply IH.
Qed.

(** X2: when several activities share an identifier, the graph has one
    node for it, at the position of the first of them, while the index and
    the node attributes are those of the last of them. *)
Theorem duplicate_identifiers schedule :
  let acts := activities schedule in
  let G := schedule_graph schedule in
  nx.nodes G = first_occurrences (map id acts) /\
  forall k,
    Dict.get (engine_activities (built schedule)) k = last_with_id acts k /\
    Dict.get (nx._node G) k
    = option_map (fun a => Some (node_attrs a)) (last_with_id acts k).
Proof.
  intros acts G. split.
  - unfold G, nx.nodes. rewrite schedule_graph_node.
    apply (nodes_add_nodes acts nx.empty_graph).
  - intros k.
    assert (H : Dict.get (index_activities acts) k = last_with_id acts k).
    { unfold index_activities. rewrite index_last. simpl.
      now destruct (last_with_id acts k). }
    split; [exact H |].
    unfold G. rewrite schedule_graph_attrs. fold acts. now rewrite H.
Qed.

(** ** The path [find_critical_path] returns *)

Lemma longest_first index paths : forall acc,
  let r := fold_left (keep_longer index) paths acc in
  (r = acc /\ forall p, In p paths -> path_duration index p <= snd acc) \/
  (exists earlier later,
     paths = earlier ++ fst r :: later /\
     path_duration index (fst r) = snd r /\ snd acc < snd r /\
     (forall p, In p earlier -> path_duration index p < snd r) /\
     (forall p, In p later -> path_duration index p <= snd r)).
Proof.
  induction paths as [| q paths IH]; intros acc; simpl.
  - left. split; [reflexivity | intros p []].
  - assert (Hk : (keep_longer index acc q = acc /\
                  path_duration index q <= snd acc) \/
                 (keep_longer index acc q = (q, path_duration index q) /\
                  snd acc < path_duration index q)).
    { unfold keep_longer. destruct (snd acc <? path_duration index q) eqn:E.
      - apply Nat.ltb_lt in E. now right.
      - apply Nat.ltb_ge in E. now left. }
    specialize (IH (keep_longer index acc q)). simpl in IH.
    set (r := fold_left (keep_longer index) paths (keep_longer index acc q)) in *.
    destruct Hk as [[Hk Hq] | [Hk Hq]]; rewrite Hk in IH; simpl in IH.
    + destruct IH as [[Hr Hle] | (earlier & later & Hp & Hd & Hlt & He & Hl)].
      * left. split; [exact Hr |]. intros p [<- | Hin]; [exact Hq | now apply Hle].
      * right. exists (q :: earlier), later. rewrite Hp at 1.
        repeat split; auto. intros p [<- | Hin]; [lia | now apply He].
    + right.
      destruct IH as [[Hr Hle] | (earlier & later & Hp & Hd & Hlt & He & Hl)].
      * exists [], paths. rewrite Hr. simpl. repeat split; auto. intros p [].
      * exists (q :: earlier), later. rewrite Hp at 1. repeat split; auto; try lia.
        intros p [<- | Hin]; [lia | now apply He].
Qed.

Lemma search_result_fields schedule :
  let G := schedule_graph schedule in
  let index := index_activities (activities schedule) in
  let r := longest_path_result (built schedule) G in
  (path_activities r, total_duration_days r) = longest index (candidate_paths G) /\
  bottleneck_activity r = find_bottleneck index (path_activities r) /\
  path_risk_level r = _assess_path_risk index (path_activities r).
Proof.
  intros G index r. subst r. unfold longest_path_result.
  rewrite built_activities. fold index.
  now destruct (longest index (candidate_paths G)).
Qed.

(** X3: when the graph has a source and a sink and the returned path is
    not empty, that path is a simple path from a source to a sink, its
    durations add up to the returned total, and it is the first of that
    duration among the paths the loops examine: every earlier one is
    strictly shorter, no later one is longer. *)
Theorem returned_path_is_first_longest schedule :
  let G := schedule_graph schedule in
  let r := find_critical_path (built schedule) in
  (exists s, is_source G s) -> (exists t, is_sink G t) ->
  path_activities r <> [] ->
  source_to_sink_path G (path_activities r) /\
  path_weight G (path_activities r) = total_duration_days r /\
  exists earlier later,
    candidate_paths G = earlier ++ path_activities r :: later /\
    (forall p, In p earlier -> path_weight G p < total_duration_days r) /\
    (forall p, In p later -> path_weight G p <= total_duration_days r).
Proof.
  intros G r Hs Ht Hne. subst r.
  rewrite find_critical_path_longest in *;
    try (now apply has_source_sources); try (now apply has_sink_sinks).
  destruct (search_result_fields schedule) as (Hl & _ & _). fold G in Hl.
  pose proof (longest_first (index_activities (activities schedule))
                (candidate_paths G) ([], 0)) as Hf.
  unfold longest in Hl. simpl in Hf. rewrite <- Hl in Hf. simpl in Hf.
  destruct Hf as [[Hr _] | (earlier & later & Hp & Hd & _ & He & Hlt)].
  - injection Hr as Hr _. contradiction.
  - assert (Hc : source_to_sink_path G
                   (path_activities (longest_path_result (built schedule) G))).
    { apply candidate_paths_iff; [apply schedule_graph_well_formed |].
      fold G. rewrite Hp. apply in_or_app. right. now left. }
    split; [exact Hc |]. split.
    + now rewrite <- (path_duration_weight schedule).
    + exists earlier, later. split; [exact Hp |].
      split; intros p Hin; rewrite <- (path_duration_weight schedule); auto.
Qed.

Lemma returned_path_is_first_longest_witness :
  source_to_sink_path (schedule_graph parallel_schedule) ["A"; "B"; "D"]%string /\
  path_weight (schedule_graph parallel_schedule) ["A"; "B"; "D"]%string = 84.
Proof.
  destruct (returned_path_is_first_longest parallel_schedule) as (H1 & H2 & _).
  - exists "A"%string. split; [simpl; auto | reflexivity].
  - exists "D"%string. split; [simpl; auto 6 | reflexivity].
  - vm_compute. discriminate.
  - split; [exact H1 | exact H2].
Defined.

(** X4: with a source and a sink, the returned path is empty exactly when
    the returned total duration is zero. *)
Theorem empty_path_iff_zero_total schedule :
  let G := schedule_graph schedule in
  let r := find_critical_path (built schedule) in
  (exists s, is_source G s) -> (exists t, is_sink G t) ->
  (path_activities r = [] <-> total_duration_days r = 0).
Proof.
  intros G r Hs Ht. subst r G.
  rewrite find_critical_path_longest;
    try (now apply has_source_sources); try (now apply has_sink_sinks).
  destruct (longest_path_result_spec schedule) as (_ & Hor & _).
  destruct Hor as [[Hp Hz] | (Hp & Hw & Hpos)].
  - tauto.
  - split; [| intros; exfalso; lia]. intros E. rewrite E in Hw.
    unfold path_weight in Hw. simpl in Hw. exfalso. lia.
Qed.

Lemma empty_path_iff_zero_total_witness :
  path_activities (find_critical_path (built milestone_schedule)) = [] <->
  total_duration_days (find_critical_path (built milestone_schedule)) = 0.
Proof.
  apply (empty_path_iff_zero_total milestone_schedule).
  - exists "M1"%string. split; [simpl; auto | reflexivity].
  - exists "M2"%string. split; [simpl; auto | reflexivity].
Defined.

(** X5: with a source and a sink, the risk level of the result follows
    the returned total duration: critical above 365 days, high above 180,
    medium above 90, low otherwise. *)
Theorem risk_level_follows_total schedule :
  let G := schedule_graph schedule in
  let r := find_critical_path (built schedule) in
  (exists s, is_source G s) -> (exists t, is_sink G t) ->
  (path_risk_level r = CRITICAL <-> 365 < total_duration_days r) /\
  (path_risk_level r = HIGH <->
   180 < total_duration_days r /\ total_duration_days r <= 365) /\
  (path_risk_level r = MEDIUM <->
   90 < total_duration_days r /\ total_duration_days r <= 180) /\
  (path_risk_level r = LOW <-> total_duration_days r <= 90).
Proof.
  intros G r Hs Ht. subst r G.
  rewrite find_critical_path_longest;
    try (now apply has_source_sources); try (now apply has_sink_sinks).
  destruct (longest_path_result_spec schedule) as (_ & Hor & _ & Hr).
  rewrite Hr.
  set (r := longest_path_result (built schedule) (schedule_graph schedule)) in *.
  assert (H : _assess_path_risk (index_activities (activities schedule))
                (path_activities r)
              = if 365 <? total_duration_days r then CRITICAL
                else if 180 <? total_duration_days r then HIGH
                else if 90 <? total_duration_days r then MEDIUM else LOW).
  { destruct Hor as [[Hp Hz] | (_ & Hw & Hpos)].
    - rewrite Hp, Hz. reflexivity.
    - rewrite <- (path_duration_weight schedule) in Hw.
      unfold _assess_path_risk. rewrite Hw.
      destruct (path_activities r); [| reflexivity].
      simpl in Hw. unfold path_duration in Hw. simpl in Hw. lia. }
  rewrite H.
  destruct (365 <? total_duration_days r) eqn:E1;
    [apply Nat.ltb_lt in E1 | apply Nat.ltb_ge in E1];
    [repeat split; intros; try discriminate; try lia |].
  destruct (180 <? total_duration_days r) eqn:E2;
    [apply Nat.ltb_lt in E2 | apply Nat.ltb_ge in E2];
    [repeat split; intros; try discriminate; try lia |].
  destruct (90 <? total_duration_days r) eqn:E3;
    [apply Nat.ltb_lt in E3 | apply Nat.ltb_ge in E3];
    repeat split; intros; try discriminate; try lia.
Qed.

Lemma risk_level_follows_total_witness :
  path_risk_level (find_critical_path (built linear_schedule)) = LOW <->
  total_duration_days (find_critical_path (built linear_schedule)) <= 90.
Proof.
  apply (risk_level_follows_total linear_schedule).
  - exists "A"%string. split; [simpl; auto | reflexivity].
  - exists "C"%string. split; [simpl; auto | reflexivity].
Defined.

Lemma path_duration_In index p x :
  In x p -> indexed_duration index x <= path_duration index p.
Proof.
  unfold path_duration. induction p as [| y p IH]; intros H; [destruct H |].
  simpl. fold (indexed_duration index y). destruct H as [-> | H]; [lia |].
  specialize (IH H). lia.
Qed.

(** X6: a reported bottleneck lies on the returned path, has a positive
    duration, and that duration is at most the returned total. *)
Theorem bottleneck_within_total schedule b :
  let G := schedule_graph schedule in
  let r := find_critical_path (built schedule) in
  bottleneck_activity r = Some b ->
  In b (path_activities r) /\
  0 < node_duration G b /\
  node_duration G b <= total_duration_days r.
Proof.
  intros G r Hb. subst r G.
  set (G := schedule_graph schedule) in *.
  set (index := index_activities (activities schedule)).
  assert (Hd : forall k, node_duration G k = indexed_duration index k).
  { intros k. unfold node_duration, indexed_duration, G.
    rewrite schedule_graph_attrs. fold index. now destruct (Dict.get index k). }
  destruct (nx.nodes G) as [| n0 ns] eqn:En.
  { rewrite find_critical_path_empty in Hb by exact En. discriminate. }
  assert (Hn : nx.nodes G <> []) by (rewrite En; discriminate).
  destruct (sources G) as [| s ss] eqn:Es.
  { rewrite find_critical_path_fallback in Hb; auto. discriminate. }
  destruct (sinks G) as [| t ts] eqn:Et.
  { rewrite find_critical_path_fallback in Hb; auto. discriminate. }
  assert (E : find_critical_path (built schedule)
              = longest_path_result (built schedule) G)
    by (apply find_critical_path_longest; fold G; congruence).
  rewrite E in *. clear E.
  destruct (longest_path_result_spec schedule) as (_ & Hor & Hbn & _).
  fold G index in Hor, Hbn. rewrite Hbn in Hb.
  pose proof (find_bottleneck_spec index
                (path_activities (longest_path_result (built schedule) G))) as Hf.
  rewrite Hb in Hf. destruct Hf as [(l1 & l2 & Hp & _) Hpos].
  assert (Hin : In b (path_activities (longest_path_result (built schedule) G))).
  { rewrite Hp. apply in_or_app. right. now left. }
  rewrite Hd. split; [exact Hin | split; [exact Hpos |]].
  destruct Hor as [[Hnil _] | (_ & Hw & _)].
  - rewrite Hnil in Hin. destruct Hin.
  - rewrite <- Hw, <- (path_duration_weight schedule). fold index.
    now apply path_duration_In.
Qed.

Lemma bottleneck_within_total_witness :
  In "B"%string (path_activities (find_critical_path (built parallel_schedule))) /\
  0 < node_duration (schedule_graph parallel_schedule) "B" /\
  node_duration (schedule_graph parallel_schedule) "B"
  <= total_duration_days (find_critical_path (built parallel_schedule)).
Proof.
  apply (bottleneck_within_total parallel_schedule "B"). reflexivity.
Defined.

(** ** The total duration, and graphs without a source or a sink *)

Lemma NoDup_incl_sum (f : string -> nat) p : forall l,
  NoDup p -> incl p l -> list_sum (map f p) <= list_sum (map f l).
Proof.
  induction p as [| x p IH]; intros l Hn Hi; simpl; [lia |].
  inversion Hn as [| ? ? Hx Hn']; subst.
  destruct (in_split x l (Hi x (or_introl eq_refl))) as (l1 & l2 & ->).
  assert (Hi' : incl p (l1 ++ l2)).
  { intros y Hy. specialize (Hi y (or_intror Hy)).
    apply in_app_or in Hi. apply in_or_app.
    destruct Hi as [Hi | [<- | Hi]]; auto. contradiction. }
  specialize (IH (l1 ++ l2) Hn' Hi').
  rewrite map_app, list_sum_app in *. simpl. lia.
Qed.

(** X7: the total duration [find_critical_path] returns never exceeds the
    sum of the durations of all nodes. *)
Theorem total_within_sum_of_durations schedule :
  let G := schedule_graph schedule in
  total_duration_days (find_critical_path (built schedule))
  <= path_weight G (nx.nodes G).
Proof.
  intros G. subst G. set (G := schedule_graph schedule).
  destruct (nx.nodes G) as [| n0 ns] eqn:En.
  { rewrite find_critical_path_empty by exact En. simpl. lia. }
  assert (Hn : nx.nodes G <> []) by (rewrite En; discriminate).
  rewrite <- En.
  assert (Hfb : sources G = [] \/ sinks G = [] ->
                total_duration_days (find_critical_path (built schedule))
                <= path_weight G (nx.nodes G)).
  { intros H. rewrite find_critical_path_fallback by assumption.
    unfold fallback_result. cbn [total_duration_days].
    rewrite built_activities, (path_duration_weight schedule). fold G. lia. }
  destruct (sources G) as [| s ss] eqn:Es; [now apply Hfb; left |].
  destruct (sinks G) as [| t ts] eqn:Et; [now apply Hfb; right |].
  rewrite find_critical_path_longest by (fold G; congruence). fold G.
  destruct (longest_path_result_spec schedule) as (_ & Hor & _). fold G in Hor.
  destruct Hor as [[_ ->] | ((s' & t' & _ & _ & Hsp) & <- & _)]; [lia |].
  destruct Hsp as (_ & _ & _ & Hnd & Hi).
  now apply NoDup_incl_sum.
Qed.

(** ** Graphs that send [find_critical_path] to its fallback *)

Lemma transpose_edge G u v : edge (transpose G) u v <-> edge G v u.
Proof.
  unfold edge, transpose. simpl. rewrite in_map_iff. split.
  - intros ([a b] & [= -> ->] & H). exact H.
  - intros H. now exists (v, u).
Qed.

Lemma transpose_well_formed G : well_formed G -> well_formed (transpose G).
Proof.
  intros W u v E. apply (proj1 (transpose_edge G u v)) in E.
  change (nx.nodes (transpose G)) with (nx.nodes G). destruct (W _ _ E). tauto.
Qed.

Lemma transpose_reachable G u v :
  reachable (transpose G) u v -> reachable G v u.
Proof.
  induction 1 as [u v E | u w v E _ IH];
    apply (proj1 (transpose_edge G _ _)) in E.
  - now apply reach_edge.
  - apply reachable_trans with w; [exact IH | now apply reach_edge].
Qed.

Lemma transpose_sink G n : is_sink (transpose G) n <-> is_source G n.
Proof.
  unfold is_sink, is_source.
  change (nx.nodes (transpose G)) with (nx.nodes G).
  rewrite out_degree_zero, in_degree_zero.
  split; intros [Hn H]; (split; [exact Hn |]); intros x E; apply (H x).
  - now apply (proj2 (transpose_edge G n x)).
  - now apply (proj1 (transpose_edge G n x)).
Qed.

Lemma acyclic_has_sink G :
  well_formed G -> ~ has_cycle G -> nx.nodes G <> [] -> exists t, is_sink G t.
Proof.
  intros W Hac Hn. destruct (nx.nodes G) as [| v r] eqn:E; [congruence |].
  destruct (acyclic_reaches_sink G W Hac (List.length (nx.nodes G)) [] v)
    as (rest & t & Ht & _).
  - simpl. lia.
  - constructor; [intros [] | constructor].
  - exact I.
  - intros x [<- | []]. rewrite E. now left.
  - now exists t.
Qed.

Lemma acyclic_has_source G :
  well_formed G -> ~ has_cycle G -> nx.nodes G <> [] -> exists s, is_source G s.
Proof.
  intros W Hac Hn.
  destruct (acyclic_has_sink (transpose G)) as (s & Hs).
  - now apply transpose_well_formed.
  - intros (v & Hv). apply Hac. exists v. now apply transpose_reachable.
  - exact Hn.
  - exists s. now apply transpose_sink.
Qed.

(** X8: a graph with nodes but without a source, or without a sink, has
    a cycle: the result that lists every activity only occurs together
    with a circular-dependency issue, the first of the integrity report. *)
Theorem fallback_only_with_cycle schedule :
  let G := schedule_graph schedule in
  nx.nodes G <> [] ->
  (forall n, ~ is_source G n) \/ (forall n, ~ is_sink G n) ->
  has_cycle G /\
  find_critical_path (built schedule) = fallback_result (built schedule) G /\
  exists n rest,
    validate_schedule_integrity (built schedule) = CircularDependency n :: rest.
Proof.
  intros G Hn H.
  pose proof (schedule_graph_well_formed schedule) as W. fold G in W.
  assert (Hc : has_cycle G).
  { destruct (has_cycle_dec G W) as [Hc | Hc]; [exact Hc | exfalso].
    destruct H as [H | H].
    - destruct (acyclic_has_source G W Hc Hn) as (s & Hs). exact (H s Hs).
    - destruct (acyclic_has_sink G W Hc Hn) as (t & Ht). exact (H t Ht). }
  split; [exact Hc | split].
  - apply find_critical_path_fallback; [exact Hn |].
    destruct H as [H | H]; [left; now apply no_source_sources
                           | right; now apply no_sink_sinks].
  - rewrite (validate_built schedule Hn). fold G.
    destruct (cycle_issues_spec G W) as [(_ & n & _ & ->) | [Hac _]];
      [| contradiction].
    simpl. eauto.
Qed.

Lemma fallback_only_with_cycle_witness :
  has_cycle (schedule_graph deadlock_schedule).
Proof.
  apply (fallback_only_with_cycle deadlock_schedule).
  - vm_compute. discriminate.
  - left. apply no_source_sources. vm_compute. reflexivity.
Defined.

(** ** Isolated activities *)

(** X9: in a graph of at least two nodes, a report that names an isolated
    activity also reports disconnected groups. *)
Theorem isolated_implies_disconnected schedule x :
  let G := schedule_graph schedule in
  let report := validate_schedule_integrity (built schedule) in
  In (IsolatedActivity x) report ->
  2 <= nx.number_of_nodes G ->
  exists n, 1 < n /\ In (DisconnectedGroups n) report.
Proof.
  intros G report Hin Hn. subst report.
  pose proof (schedule_graph_well_formed schedule) as W. fold G in W.
  assert (Hne : nx.nodes G <> []).
  { unfold nx.number_of_nodes in Hn. destruct (nx.nodes G); [simpl in Hn; lia | discriminate]. }
  rewrite (validate_built schedule Hne) in *. fold G in Hin |- *.
  assert (Hiso : In x (nx.nodes G) /\ is_isolated G x = true).
  { destruct (cycle_issues_spec G W) as [(_ & n & _ & Ec) | [_ Ec]];
      destruct (component_issues_spec G W) as [(_ & m & _ & Ed) | [_ Ed]];
      destruct (zero_duration_issues_spec schedule) as [(_ & z & _ & Ez) | [_ Ez]];
      fold G in Ez; simpl in Ez; rewrite Ec, Ed, Ez in Hin; simpl in Hin;
      repeat (destruct Hin as [Hin | Hin]; [discriminate |]);
      unfold isolated_issues in Hin; apply in_map_iff in Hin;
      destruct Hin as (y & [= ->] & Hy); now apply filter_In in Hy. }
  destruct Hiso as [Hx Hi]. apply is_isolated_iff in Hi. destruct Hi as [Hin' Hout].
  assert (Hy : exists y, In y (nx.nodes G) /\ y <> x).
  { pose proof (schedule_graph_NoDup schedule) as Hnd. fold G in Hnd.
    unfold nx.number_of_nodes in Hn.
    destruct (nx.nodes G) as [| a [| b l]]; simpl in Hn; try lia.
    inversion Hnd as [| ? ? Ha _]; subst.
    destruct (string_dec a x) as [-> | Hax].
    - exists b. split; [simpl; auto |]. intros ->. apply Ha. now left.
    - exists a. split; [now left | exact Hax]. }
  destruct Hy as (y & Hy & Hyx).
  assert (Hd : disconnected G).
  { exists x, y. repeat split; auto. intros [-> | Hr]; [now elim Hyx |].
    assert (exists w, edge (nx.to_undirected G) x w) as (w & E)
      by (inversion Hr; subst; eauto).
    apply to_undirected_edge in E. destruct E as [E | E];
      [exact (Hout w E) | exact (Hin' w E)]. }
  destruct (component_issues_spec G W) as [(_ & n & Hgt & Ed) | [Hnd _]];
    [| contradiction].
  exists n. split; [exact Hgt |]. rewrite Ed.
  apply in_or_app. right. apply in_or_app. left. now left.
Qed.

Lemma isolated_implies_disconnected_witness :
  exists n, 1 < n /\
    In (DisconnectedGroups n) (validate_schedule_integrity (built loop_schedule)).
Proof.
  apply (isolated_implies_disconnected loop_schedule "E").
  - vm_compute. auto.
  - vm_compute. lia.
Defined.

(** ** The activities [find_high_risk_activities] leaves out *)

Lemma StronglySorted_app_between {A} (R : A -> A -> Prop) l1 : forall l2,
  StronglySorted R (l1 ++ l2) ->
  forall a b, In a l1 -> In b l2 -> R a b.
Proof.
  induction l1 as [| x l1 IH]; intros l2 H a b Ha Hb; [destruct Ha |].
  simpl in H. inversion H as [| ? ? Hs Hf]; subst.
  destruct Ha as [<- | Ha].
  - rewrite Forall_forall in Hf. apply Hf. apply in_or_app. now right.
  - now apply (IH l2).
Qed.

Lemma ranked_nodes N schedule :
  let G := schedule_graph schedule in
  let score := risk_score N G (index_activities (activities schedule)) in
  let ranked :=
    map fst (sorted_desc N (risk_scores N G (index_activities (activities schedule)))) in
  strict_weak_order N ->
  Permutation ranked (nx.nodes G) /\
  StronglySorted (fun a b => flt N (score a) (score b) = false) ranked /\
  (nx.nodes G <> [] ->
   find_high_risk_activities N (built schedule)
   = firstn (Nat.max 1 (nx.number_of_nodes G / 5)) ranked).
Proof.
  intros G score ranked Ho. subst ranked.
  set (items := risk_scores N G (index_activities (activities schedule))).
  assert (Hitems : items = map (fun x => (x, score x)) (nx.nodes G)) by reflexivity.
  assert (Hsnd : forall p, In p (sorted_desc N items) -> snd p = score (fst p)).
  { intros p Hp. apply (Permutation_in _ (sorted_desc_perm N items)) in Hp.
    rewrite Hitems in Hp. apply in_map_iff in Hp. now destruct Hp as (x & <- & _). }
  split; [| split].
  - rewrite (sorted_desc_perm N items), Hitems, map_map. simpl.
    now rewrite map_id.
  - pose proof (sorted_desc_sorted N Ho items) as Hs.
    induction Hs as [| p l Hs IH Hf]; simpl; constructor.
    + apply IH. intros q Hq. apply Hsnd. now right.
    + rewrite Forall_forall in *. intros b Hb. apply in_map_iff in Hb.
      destruct Hb as (q & <- & Hq).
      rewrite <- (Hsnd p (or_introl eq_refl)), <- (Hsnd q (or_intror Hq)).
      now apply Hf.
  - intros Hn. unfold find_high_risk_activities.
    rewrite graph_truthy_built by exact Hn.
    rewrite built_activities. fold G. fold items.
    rewrite firstn_map. do 2 f_equal.
    rewrite (Permutation_length (sorted_desc_perm N items)), Hitems, length_map.
    reflexivity.
Qed.

(** X10: the activities [find_high_risk_activities] returns are distinct
    nodes of the graph, and no node that is left out has a higher score
    than one that is returned. *)
Theorem high_risk_outrank_the_rest N schedule :
  let G := schedule_graph schedule in
  let score := risk_score N G (index_activities (activities schedule)) in
  let result := find_high_risk_activities N (built schedule) in
  strict_weak_order N ->
  NoDup result /\
  incl result (nx.nodes G) /\
  forall a b,
    In a result -> In b (nx.nodes G) -> ~ In b result ->
    flt N (score a) (score b) = false.
Proof.
  intros G score result Ho. subst result.
  destruct (nx.nodes G) as [| n0 ns] eqn:En.
  { unfold find_high_risk_activities.
    rewrite (graph_truthy_empty schedule En).
    split; [constructor | split; [intros x [] | intros a b []]]. }
  rewrite <- En.
  assert (Hn : nx.nodes G <> []) by (rewrite En; discriminate).
  destruct (ranked_nodes N schedule Ho) as (Hp & Hs & Hr).
  fold G in Hp, Hs, Hr. fold score in Hs. rewrite (Hr Hn).
  set (ranked := map fst (sorted_desc N
                   (risk_scores N G (index_activities (activities schedule))))) in *.
  set (k := Nat.max 1 (nx.number_of_nodes G / 5)).
  assert (Hnd : NoDup ranked).
  { apply (Permutation_NoDup (Permutation_sym Hp)).
    apply schedule_graph_NoDup. }
  rewrite <- (firstn_skipn k ranked) in Hnd, Hs.
  split; [exact (NoDup_app_remove_r _ _ Hnd) | split].
  - intros x Hx. apply (Permutation_in _ Hp).
    rewrite <- (firstn_skipn k ranked). apply in_or_app. now left.
  - intros a b Ha Hb Hnb.
    apply (Permutation_in _ (Permutation_sym Hp)) in Hb.
    rewrite <- (firstn_skipn k ranked) in Hb. apply in_app_or in Hb.
    destruct Hb as [Hb | Hb]; [contradiction |].
    exact (StronglySorted_app_between _ _ _ Hs a b Ha Hb).
Qed.

Lemma high_risk_outrank_the_rest_witness :
  NoDup (find_high_risk_activities rational_numerics (built six_schedule)).
Proof.
  apply (high_risk_outrank_the_rest rational_numerics six_schedule
           rational_numerics_order).
Defined.

(* ================================================================== *)
(** ** [clean_activity_name] *)

Lemma append_nil_r s : (s ++ "")%string = s.
Proof. induction s as [| c s IH]; simpl; [reflexivity | now rewrite IH]. Qed.

Lemma append_assoc_str (a b c : string) :
  ((a ++ b) ++ c)%string = (a ++ (b ++ c))%string.
Proof. induction a as [| x a IH]; simpl; [reflexivity | now rewrite IH]. Qed.

Lemma has_whitespace_app a b :
  has_whitespace (a ++ b) = has_whitespace a || has_whitespace b.
Proof.
  induction a as [| c a IH]; simpl; [reflexivity |].
  now rewrite IH, orb_assoc.
Qed.

Lemma remove_whitespace_app a b :
  remove_whitespace (a ++ b)
  = (remove_whitespace a ++ remove_whitespace b)%string.
Proof.
  induction a as [| c a IH]; simpl; [reflexivity |].
  destruct (isspace c); simpl; now rewrite IH.
Qed.

Lemma remove_whitespace_word w : has_whitespace w = false -> remove_whitespace w = w.
Proof.
  induction w as [| c w IH]; simpl; [reflexivity |].
  intros H. apply orb_false_iff in H. destruct H as [Hc Hw].
  now rewrite Hc, IH.
Qed.

Lemma isspace_space : isspace " " = true.
Proof. reflexivity. Qed.

Lemma split_whitespace_run x : forall word s,
  has_whitespace x = false ->
  split_whitespace word (x ++ s) = split_whitespace (word ++ x) s.
Proof.
  induction x as [| c x IH]; intros word s H; simpl.
  - now rewrite append_nil_r.
  - simpl in H. apply orb_false_iff in H. destruct H as [Hc Hx].
    rewrite Hc, IH by exact Hx. now rewrite append_assoc_str.
Qed.

Lemma split_whitespace_words s : forall word,
  has_whitespace word = false -> Forall is_word (split_whitespace word s).
Proof.
  induction s as [| c s IH]; intros word H; simpl.
  - destruct word; constructor; [split; [discriminate | exact H] | constructor].
  - destruct (isspace c) eqn:Hc.
    + destruct word.
      * now apply IH.
      * constructor; [split; [discriminate | exact H] | now apply IH].
    + apply IH. rewrite has_whitespace_app, H. simpl. now rewrite Hc.
Qed.

Lemma split_whitespace_space word s :
  word <> EmptyString ->
  split_whitespace word (String " " s) = word :: split_whitespace "" s.
Proof. destruct word; [congruence | reflexivity]. Qed.

Lemma split_whitespace_end word :
  word <> EmptyString -> split_whitespace word "" = [word].
Proof. destruct word; [congruence | reflexivity]. Qed.

Lemma split_join ws :
  Forall is_word ws -> str_split (String.concat " " ws) = ws.
Proof.
  unfold str_split. induction 1 as [| w ws [Hne Hw] Hws IH]; [reflexivity |].
  destruct ws as [| y r].
  - simpl. rewrite <- (append_nil_r w) at 1.
    rewrite split_whitespace_run by exact Hw.
    now apply split_whitespace_end.
  - change (String.concat " " (w :: y :: r))
      with (w ++ String " " (String.concat " " (y :: r)))%string.
    rewrite split_whitespace_run by exact Hw.
    change ("" ++ w)%string with w.
    rewrite split_whitespace_space by exact Hne. now rewrite IH.
Qed.

Lemma join_no_whitespace ws :
  Forall is_word ws ->
  remove_whitespace (String.concat " " ws) = String.concat "" ws.
Proof.
  induction 1 as [| w ws [_ Hw] Hws IH]; [reflexivity |].
  destruct ws as [| y r].
  - simpl. now apply remove_whitespace_word.
  - change (String.concat " " (w :: y :: r))
      with (w ++ String " " (String.concat " " (y :: r)))%string.
    change (String.concat "" (w :: y :: r))
      with (w ++ String.concat "" (y :: r))%string.
    rewrite remove_whitespace_app, remove_whitespace_word by exact Hw.
    change (remove_whitespace (String " " (String.concat " " (y :: r))))
      with (remove_whitespace (String.concat " " (y :: r))).
    now rewrite IH.
Qed.

Lemma split_whitespace_letters s : forall word,
  has_whitespace word = false ->
  String.concat "" (split_whitespace word s)
  = (word ++ remove_whitespace s)%string.
Proof.
  induction s as [| c s IH]; intros word H; simpl.
  - destruct word; simpl; [reflexivity | now rewrite append_nil_r].
  - destruct (isspace c) eqn:Hc.
    + destruct word as [| a word]; [now apply IH |].
      pose proof (IH EmptyString eq_refl) as IH0. simpl in IH0.
      destruct (split_whitespace "" s) eqn:E.
      * simpl in *. rewrite <- IH0. now rewrite append_nil_r.
      * change (String.concat "" (String a word :: s0 :: l))
          with (String a word ++ String.concat "" (s0 :: l))%string.
        now rewrite IH0.
    + rewrite IH.
      * now rewrite append_assoc_str.
      * rewrite has_whitespace_app, H. simpl. now rewrite Hc.
Qed.

(** X11: cleaning a cleaned name changes nothing. *)
Theorem clean_activity_name_idempotent v :
  clean_activity_name (clean_activity_name v) = clean_activity_name v.
Proof.
  unfold clean_activity_name. rewrite split_join; [reflexivity |].
  now apply split_whitespace_words.
Qed.

(** X12: the cleaned name is a list of words joined by single spaces: no
    word is empty, none contains whitespace, and together the words are
    the characters of the input that are not whitespace, in order. *)
Theorem clean_activity_name_shape v :
  exists words,
    clean_activity_name v = String.concat " " words /\
    Forall is_word words /\
    String.concat "" words = remove_whitespace v.
Proof.
  exists (str_split v). split; [reflexivity | split].
  - now apply split_whitespace_words.
  - unfold str_split. now rewrite split_whitespace_letters.
Qed.

(** the case of [tests/test_models.py] *)
Example test_activity_name_whitespace_cleaning :
  clean_activity_name "  Excavation   and   earthworks  "
  = "Excavation and earthworks"%string.
Proof. reflexivity. Qed.

(* ================================================================== *)
(** ** [validate_dependency_references] *)

Lemma check_predecessors_None valid i preds :
  check_predecessors valid i preds = None <->
  forall p, In p preds -> In p valid.
Proof.
  induction preds as [| p r IH]; simpl.
  - split; [intros _ q [] | reflexivity].
  - destruct (mem p valid) eqn:E.
    + apply mem_In in E. rewrite IH. split.
      * intros H q [<- | Hq]; auto.
      * intros H q Hq. apply H. now right.
    + apply mem_false in E. split; [discriminate |].
      intros H. elim E. apply H. now left.
Qed.

Lemma check_predecessors_Some valid i preds e :
  check_predecessors valid i preds = Some e ->
  exists p, e = UnknownPredecessor i p /\ In p preds /\ ~ In p valid.
Proof.
  induction preds as [| p r IH]; simpl; [discriminate |].
  destruct (mem p valid) eqn:E.
  - intros H. destruct (IH H) as (q & He & Hq & Hn). exists q. auto.
  - apply mem_false in E. intros [= <-]. exists p. auto.
Qed.

Lemma check_activities_None valid acts :
  check_activities valid acts = None <->
  forall a p, In a acts -> In p (predecessors a) -> In p valid.
Proof.
  induction acts as [| a r IH]; simpl.
  - split; [intros _ b p [] | reflexivity].
  - destruct (check_predecessors valid (id a) (predecessors a)) eqn:E.
    + split; [discriminate |]. intros H.
      assert (Hn : check_predecessors valid (id a) (predecessors a) = None).
      { apply check_predecessors_None. intros p Hp. apply (H a p); auto. }
      congruence.
    + rewrite IH.
      pose proof (proj1 (check_predecessors_None _ _ _) E) as E'. split.
      * intros H b p [<- | Hb] Hp; [now apply E' | now apply (H b p)].
      * intros H b p Hb Hp. apply (H b p); auto.
Qed.

Lemma check_activities_Some valid acts e :
  check_activities valid acts = Some e ->
  exists a p, e = UnknownPredecessor (id a) p /\ In a acts /\
              In p (predecessors a) /\ ~ In p valid.
Proof.
  induction acts as [| a r IH]; simpl; [discriminate |].
  destruct (check_predecessors valid (id a) (predecessors a)) eqn:E.
  - intros [= <-]. apply check_predecessors_Some in E.
    destruct E as (p & He & Hp & Hn). exists a, p. auto.
  - intros H. destruct (IH H) as (b & p & He & Hb & Hp & Hn).
    exists b, p. auto.
Qed.

(** X13: [validate_dependency_references] returns the activities unchanged
    exactly when every predecessor names an activity of the list; when it
    raises, the error names an activity of the list and one of its
    predecessors that no activity has as its identifier. *)
Theorem validate_dependency_references_spec acts :
  ((forall a p, In a acts -> In p (predecessors a) -> In p (map id acts)) <->
   validate_dependency_references acts = inr acts) /\
  (forall e, validate_dependency_references acts = inl e ->
     exists a p, e = UnknownPredecessor (id a) p /\ In a acts /\
                 In p (predecessors a) /\ ~ In p (map id acts)).
Proof.
  unfold validate_dependency_references. split.
  - rewrite <- check_activities_None.
    destruct (check_activities (map id acts) acts); split; congruence.
  - intros e. destruct (check_activities (map id acts) acts) eqn:E; [| discriminate].
    intros [= <-]. now apply check_activities_Some.
Qed.

(** X14: for a schedule that passed [validate_dependency_references] the
    graph has an edge for every predecessor reference: the membership test
    of [build_graph] skips none. *)
Theorem validated_schedule_keeps_every_reference nm acts acts' :
  validate_dependency_references acts = inr acts' ->
  let G := schedule_graph {| project_name := nm; activities := acts' |} in
  acts' = acts /\
  forall u v,
    edge G u v <->
    exists a, In a acts /\ id a = v /\ In u (predecessors a).
Proof.
  intros H G.
  assert (E : acts' = acts).
  { unfold validate_dependency_references in H.
    destruct (check_activities (map id acts) acts); congruence. }
  subst acts'. split; [reflexivity |].
  assert (Hk : forall a p, In a acts -> In p (predecessors a) ->
                           In p (map id acts)).
  { apply check_activities_None. unfold validate_dependency_references in H.
    destruct (check_activities (map id acts) acts); [discriminate | reflexivity]. }
  clear H. rename Hk into H.
  intros u v. unfold G. rewrite schedule_graph_edge. simpl. split.
  - intros (a & Ha & Hv & Hu & _). eauto.
  - intros (a & Ha & Hv & Hu). exists a. repeat split; auto. now apply (H a u).
Qed.

Lemma validated_schedule_keeps_every_reference_witness :
  edge (schedule_graph parallel_schedule) "C" "D" <->
  exists a, In a (activities parallel_schedule) /\ id a = "D"%string /\
            In "C"%string (predecessors a).
Proof.
  exact (proj2 (validated_schedule_keeps_every_reference
                  "Parallel Project" (activities parallel_schedule)
                  (activities parallel_schedule) eq_refl)
           "C"%string "D"%string).
Defined.

(* ================================================================== *)
(** ** [_validate_llm_output] *)

Lemma rational_floats_order : float_order rational_floats.
Proof.
  split; simpl.
  - intros x y H. apply negb_true_iff in H. apply negb_false_iff.
    apply Qle_bool_iff. apply Qlt_le_weak. apply Qnot_le_lt.
    intros Hle. apply Qle_bool_iff in Hle. congruence.
  - reflexivity.
Defined.

Lemma bind_Ok {A B} (r : result A) (k : A -> result B) b :
  bind r k = Ok b -> exists a, r = Ok a /\ k a = Ok b.
Proof. destruct r as [a | e]; simpl; [eauto | discriminate]. Qed.

Lemma set_unchanged {V} (d : Dict.t V) k v :
  Dict.get d k = Some v -> Dict.set d k v = d.
Proof.
  induction d as [| [k' v'] r IH]; simpl; [discriminate |].
  destruct (String.eqb k' k) eqn:E.
  - intros [= ->]. reflexivity.
  - intros H. now rewrite IH.
Qed.

Section LLMOutputFacts.
Variable P : PyFloat.

Lemma in_strings_true (x : json (pyfloat P)) s :
  in_strings P x s = Ok true -> exists v, x = JStr v /\ In v s.
Proof.
  destruct x; simpl; try discriminate. intros [= H].
  apply mem_In in H. eauto.
Qed.

Lemma py_get_str (d : Dict.t (json (pyfloat P))) k v :
  py_get P d k = JStr v -> Dict.get d k = Some (JStr v).
Proof.
  unfold py_get. destruct (Dict.get d k); [now intros -> | discriminate].
Qed.

Lemma clamp_unit_in x : float_order P -> in_unit_interval P (clamp_unit P x).
Proof.
  intros [asym H01]. unfold in_unit_interval, clamp_unit, py_max, py_min.
  destruct (float_lt P x (float_1_0 P)) eqn:E1.
  - destruct (float_lt P (float_0_0 P) x) eqn:E0.
    + split; [now apply asym | now apply asym].
    + split; [| now apply asym].
      destruct (float_lt P (float_0_0 P) (float_0_0 P)) eqn:E; [| reflexivity].
      apply asym in E as E'. congruence.
  - rewrite H01. split; [now apply asym |].
    destruct (float_lt P (float_1_0 P) (float_1_0 P)) eqn:E; [| reflexivity].
    apply asym in E as E'. congruence.
Qed.

Lemma clamp_unit_fixed x :
  float_order P -> clamp_unit P (clamp_unit P x) = clamp_unit P x.
Proof.
  intros [asym H01].
  assert (I0 : float_lt P (float_0_0 P) (float_0_0 P) = false).
  { destruct (float_lt P (float_0_0 P) (float_0_0 P)) eqn:E; [| reflexivity].
    apply asym in E as E'. congruence. }
  assert (I1 : float_lt P (float_1_0 P) (float_1_0 P) = false).
  { destruct (float_lt P (float_1_0 P) (float_1_0 P)) eqn:E; [| reflexivity].
    apply asym in E as E'. congruence. }
  unfold clamp_unit, py_max, py_min.
  destruct (float_lt P x (float_1_0 P)) eqn:E1.
  - destruct (float_lt P (float_0_0 P) x) eqn:E0.
    + now rewrite E1, E0.
    + now rewrite H01, I0.
  - now rewrite H01, I1, H01.
Qed.

Lemma validate_risk_checked ids risk r' :
  float_order P ->
  validate_risk P ids risk = Ok (Some r') -> checked_risk P ids r'.
Proof.
  intros Ho H. destruct risk as [| | | | | | r]; try discriminate. simpl in H.
  apply bind_Ok in H. destruct H as (known & Hk & H).
  destruct known; [| discriminate].
  apply in_strings_true in Hk. destruct Hk as (activity & Ha & Hin).
  apply py_get_str in Ha.
  apply bind_Ok in H. destruct H as (p & _ & H).
  apply bind_Ok in H. destruct H as (n & _ & H).
  apply bind_Ok in H. destruct H as (level_ok & Hl & H).
  injection H as <-.
  set (r1 := Dict.set r "delay_probability" (JFloat (clamp_unit P p))) in *.
  set (r2 := Dict.set r1 "estimated_delay_days" (JInt (Z.max 0 n))) in *.
  assert (G2 : forall k, k <> "delay_probability"%string ->
                         k <> "estimated_delay_days"%string ->
                         Dict.get r2 k = Dict.get r k).
  { intros k H1 H2. unfold r2, r1.
    rewrite !get_set_other by congruence. reflexivity. }
  assert (Gp : Dict.get r2 "delay_probability"
               = Some (JFloat (clamp_unit P p))).
  { unfold r2. rewrite get_set_other by discriminate. apply get_set_same. }
  assert (Gn : Dict.get r2 "estimated_delay_days" = Some (JInt (Z.max 0 n)))
    by apply get_set_same.
  destruct level_ok.
  - apply in_strings_true in Hl. destruct Hl as (level & Hlv & Hlin).
    apply py_get_str in Hlv.
    exists r2, activity, level, (clamp_unit P p), (Z.max 0 n).
    repeat split; auto; try (now apply clamp_unit_in); try lia.
    rewrite G2 by discriminate. exact Ha.
  - exists (Dict.set r2 "risk_level" (JStr "medium")), activity,
      "medium"%string, (clamp_unit P p), (Z.max 0 n).
    repeat split; try (now apply clamp_unit_in); try lia.
    + rewrite get_set_other by discriminate. rewrite G2 by discriminate. exact Ha.
    + exact Hin.
    + rewrite get_set_other by discriminate. exact Gp.
    + rewrite get_set_other by discriminate. exact Gn.
    + apply get_set_same.
    + simpl. tauto.
Qed.

Lemma validate_risks_checked ids risks : forall out,
  float_order P ->
  validate_risks P ids risks = Ok out -> Forall (checked_risk P ids) out.
Proof.
  induction risks as [| risk rest IH]; intros out Ho H; simpl in H.
  - injection H as <-. constructor.
  - apply bind_Ok in H. destruct H as (checked & Hc & H).
    apply bind_Ok in H. destruct H as (rs & Hr & H). injection H as <-.
    specialize (IH rs Ho Hr). destruct checked as [r |]; [| exact IH].
    constructor; [now apply (validate_risk_checked ids risk) | exact IH].
Qed.

Lemma get_ensure_list_other (d : Dict.t (json (pyfloat P))) key k :
  k <> key -> Dict.get (ensure_list P d key) k = Dict.get d k.
Proof.
  intros H. unfold ensure_list.
  destruct (py_get P d key); try reflexivity;
    now rewrite get_set_other by congruence.
Qed.

Lemma get_ensure_list (d : Dict.t (json (pyfloat P))) key :
  exists l, Dict.get (ensure_list P d key) key = Some (JList l).
Proof.
  unfold ensure_list, py_get.
  destruct (Dict.get d key) as [[] |] eqn:E;
    try (exists []; now apply get_set_same).
  exists l. exact E.
Qed.

(** the dictionary before the two [ensure_list] steps *)
Lemma validate_llm_output_steps d schedule out :
  _validate_llm_output P (JDict d) schedule = Ok out ->
  exists level_ok conf risks validated,
    in_strings P (py_get P d "overall_risk_level") valid_risk_levels
    = Ok level_ok /\
    let d1 := if level_ok then d
              else Dict.set d "overall_risk_level" (JStr "medium") in
    py_float P (py_get_default P d1 "confidence_score" (JFloat (float_0_5 P)))
    = Ok conf /\
    let d2 := Dict.set d1 "confidence_score" (JFloat (clamp_unit P conf)) in
    py_iter P (py_get_default P d2 "activity_risks" (JList [])) = Ok risks /\
    validate_risks P (map id (activities schedule)) risks = Ok validated /\
    out = JDict (ensure_list P
                   (ensure_list P
                      (Dict.set d2 "activity_risks" (JList validated))
                      "key_risks")
                   "recommendations").
Proof.
  intros H. simpl in H.
  apply bind_Ok in H. destruct H as (level_ok & H1 & H).
  apply bind_Ok in H. destruct H as (conf & H2 & H).
  apply bind_Ok in H. destruct H as (risks & H3 & H).
  apply bind_Ok in H. destruct H as (validated & H4 & H).
  injection H as <-.
  exists level_ok, conf, risks, validated. repeat split; assumption.
Qed.

(** X15: when [_validate_llm_output] returns, every entry of
    [activity_risks] names an activity of the schedule, has a delay
    probability that is neither below 0.0 nor above 1.0, a delay in days
    that is not negative, and one of the four risk levels. *)
Theorem validated_risks_are_checked data schedule out :
  float_order P ->
  _validate_llm_output P data schedule = Ok out ->
  exists d risks,
    out = JDict d /\
    Dict.get d "activity_risks" = Some (JList risks) /\
    Forall (checked_risk P (map id (activities schedule))) risks.
Proof.
  intros Ho H. destruct data as [| | | | | | d0]; try discriminate.
  apply validate_llm_output_steps in H.
  destruct H as (level_ok & conf & risks & validated & _ & _ & _ & Hv & ->).
  eexists. exists validated. split; [reflexivity | split].
  - rewrite !get_ensure_list_other by discriminate. apply get_set_same.
  - now apply (validate_risks_checked _ risks).
Qed.

(** X16: when [_validate_llm_output] returns, the overall risk level is one
    of the four levels, the confidence score is neither below 0.0 nor above
    1.0, and [key_risks] and [recommendations] are lists. *)
Theorem validated_output_fields data schedule out :
  float_order P ->
  _validate_llm_output P data schedule = Ok out ->
  exists d level conf key_risks recommendations,
    out = JDict d /\
    Dict.get d "overall_risk_level" = Some (JStr level) /\
    In level valid_risk_levels /\
    Dict.get d "confidence_score" = Some (JFloat conf) /\
    in_unit_interval P conf /\
    Dict.get d "key_risks" = Some (JList key_risks) /\
    Dict.get d "recommendations" = Some (JList recommendations).
Proof.
  intros Ho H. destruct data as [| | | | | | d0]; try discriminate.
  apply validate_llm_output_steps in H.
  destruct H as (level_ok & conf & risks & validated & Hl & _ & _ & _ & ->).
  set (d1 := if level_ok then d0
             else Dict.set d0 "overall_risk_level" (JStr "medium")).
  set (d2 := Dict.set d1 "confidence_score" (JFloat (clamp_unit P conf))).
  set (d3 := Dict.set d2 "activity_risks" (JList validated)).
  assert (Hlevel : exists level, Dict.get d1 "overall_risk_level"
                                 = Some (JStr level) /\
                                 In level valid_risk_levels).
  { unfold d1. destruct level_ok.
    - apply in_strings_true in Hl. destruct Hl as (v & Hv & Hin).
      apply py_get_str in Hv. eauto.
    - exists "medium"%string. split; [apply get_set_same | simpl; tauto]. }
  destruct Hlevel as (level & Hlv & Hlin).
  destruct (get_ensure_list d3 "key_risks") as (kr & Hkr).
  destruct (get_ensure_list (ensure_list P d3 "key_risks") "recommendations")
    as (rc & Hrc).
  eexists. exists level, (clamp_unit P conf), kr, rc.
  split; [reflexivity |]. repeat split; try (now apply clamp_unit_in); auto.
  - rewrite !get_ensure_list_other by discriminate. unfold d3, d2.
    rewrite !get_set_other by discriminate. exact Hlv.
  - rewrite !get_ensure_list_other by discriminate. unfold d3.
    rewrite get_set_other by discriminate. apply get_set_same.
  - rewrite get_ensure_list_other by discriminate. exact Hkr.
Qed.
End LLMOutputFacts.

Lemma validated_risks_are_checked_witness :
  exists d risks,
    llm_checked = JDict d /\
    Dict.get d "activity_risks" = Some (JList risks) /\
    Forall (checked_risk rational_floats
              (map id (activities parallel_schedule))) risks.
Proof.
  apply (validated_risks_are_checked rational_floats llm_answer
           parallel_schedule llm_checked rational_floats_order).
  vm_compute. reflexivity.
Defined.

Lemma validated_output_fields_witness :
  exists d level conf key_risks recommendations,
    llm_checked = JDict d /\
    Dict.get d "overall_risk_level" = Some (JStr level) /\
    In level valid_risk_levels /\
    Dict.get d "confidence_score" = Some (JFloat conf) /\
    in_unit_interval rational_floats conf /\
    Dict.get d "key_risks" = Some (JList key_risks) /\
    Dict.get d "recommendations" = Some (JList recommendations).
Proof.
  apply (validated_output_fields rational_floats llm_answer
           parallel_schedule llm_checked rational_floats_order).
  vm_compute. reflexivity.
Defined.

Section LLMOutputMore.
Variable P : PyFloat.

Lemma validate_risk_known ids risk r' :
  validate_risk P ids risk = Ok (Some r') ->
  known_risk P ids risk = true /\ same_elsewhere P checked_risk_keys risk r'.
Proof.
  intros H. destruct risk as [| | | | | | r]; try discriminate. simpl in H.
  apply bind_Ok in H. destruct H as (known & Hk & H).
  destruct known; [| discriminate].
  apply in_strings_true in Hk. destruct Hk as (activity & Ha & Hin).
  apply py_get_str in Ha.
  apply bind_Ok in H. destruct H as (p & _ & H).
  apply bind_Ok in H. destruct H as (n & _ & H).
  apply bind_Ok in H. destruct H as (level_ok & _ & H).
  injection H as <-. split.
  - unfold known_risk. simpl. rewrite Ha. now apply mem_In.
  - eexists. eexists. split; [reflexivity | split; [reflexivity |]].
    intros k Hk. simpl in Hk.
    assert (k <> "delay_probability"%string /\
            k <> "estimated_delay_days"%string /\
            k <> "risk_level"%string) as (N1 & N2 & N3)
      by (repeat split; intros ->; apply Hk; tauto).
    destruct level_ok; rewrite !get_set_other by congruence; reflexivity.
Qed.

Lemma validate_risk_unknown ids risk :
  validate_risk P ids risk = Ok None -> known_risk P ids risk = false.
Proof.
  intros H. destruct risk as [| | | | | | r]; try discriminate. simpl in H.
  apply bind_Ok in H. destruct H as (known & Hk & H).
  destruct known.
  - apply bind_Ok in H. destruct H as (p & _ & H).
    apply bind_Ok in H. destruct H as (n & _ & H).
    apply bind_Ok in H. destruct H as (level_ok & _ & H). discriminate.
  - unfold known_risk, py_get in *. simpl.
    destruct (Dict.get r "activity_id") as [[] |]; simpl in Hk;
      try reflexivity; try discriminate. now injection Hk.
Qed.

Lemma validate_risks_filter ids risks : forall out,
  validate_risks P ids risks = Ok out ->
  Forall2 (same_elsewhere P checked_risk_keys)
          (filter (known_risk P ids) risks) out.
Proof.
  induction risks as [| risk rest IH]; intros out H; simpl in H.
  - injection H as <-. constructor.
  - apply bind_Ok in H. destruct H as (checked & Hc & H).
    apply bind_Ok in H. destruct H as (rs & Hr & H). injection H as <-.
    specialize (IH rs Hr). simpl. destruct checked as [r |].
    + apply validate_risk_known in Hc. destruct Hc as (-> & Hs).
      now constructor.
    + apply validate_risk_unknown in Hc. now rewrite Hc.
Qed.

(** X17: the validated [activity_risks] are the entries of the answer whose
    [activity_id] is an identifier of the schedule, all of them and in
    their order; each differs from the original at most in the three keys
    the loop assigns to. *)
Theorem validated_risks_are_the_known_ones d schedule out risks :
  _validate_llm_output P (JDict d) schedule = Ok out ->
  Dict.get d "activity_risks" = Some (JList risks) ->
  exists d' validated,
    out = JDict d' /\
    Dict.get d' "activity_risks" = Some (JList validated) /\
    Forall2 (same_elsewhere P checked_risk_keys)
            (filter (known_risk P (map id (activities schedule))) risks)
            validated.
Proof.
  intros H Hr. apply validate_llm_output_steps in H.
  destruct H as (level_ok & conf & rs & validated & _ & _ & Hi & Hv & ->).
  eexists. exists validated. split; [reflexivity | split].
  - rewrite !get_ensure_list_other by discriminate. apply get_set_same.
  - unfold py_get_default in Hi.
    rewrite get_set_other in Hi by discriminate.
    assert (E : rs = risks).
    { destruct level_ok;
        rewrite ?get_set_other in Hi by discriminate;
        rewrite Hr in Hi; simpl in Hi; now injection Hi. }
    subst rs.
    now apply validate_risks_filter.
Qed.

(** X18: [_validate_llm_output] changes no key of the answer other than the
    five it checks; the summary, for one, is passed on as the model wrote
    it. *)
Theorem validation_leaves_other_keys data schedule out :
  _validate_llm_output P data schedule = Ok out ->
  same_elsewhere P checked_keys data out.
Proof.
  intros H. destruct data as [| | | | | | d]; try discriminate.
  apply validate_llm_output_steps in H.
  destruct H as (level_ok & conf & rs & validated & _ & _ & _ & _ & ->).
  eexists. eexists. split; [reflexivity | split; [reflexivity |]].
  intros k Hk. simpl in Hk.
  assert (k <> "overall_risk_level"%string /\
          k <> "confidence_score"%string /\
          k <> "activity_risks"%string /\
          k <> "key_risks"%string /\
          k <> "recommendations"%string) as (N1 & N2 & N3 & N4 & N5)
    by (repeat split; intros ->; apply Hk; tauto).
  rewrite !get_ensure_list_other by congruence.
  rewrite !get_set_other by congruence.
  destruct level_ok; [reflexivity |].
  now rewrite get_set_other by congruence.
Qed.

Lemma in_strings_In (s : string) l :
  In s l -> in_strings P (JStr s) l = Ok true.
Proof. intros H. simpl. apply mem_In in H. now rewrite H. Qed.

Lemma py_get_Some (d : Dict.t (json (pyfloat P))) k v :
  Dict.get d k = Some v -> py_get P d k = v.
Proof. unfold py_get. now intros ->. Qed.

Lemma py_get_default_Some (d : Dict.t (json (pyfloat P))) k v dflt :
  Dict.get d k = Some v -> py_get_default P d k dflt = v.
Proof. unfold py_get_default. now intros ->. Qed.

Lemma ensure_list_fixed (d : Dict.t (json (pyfloat P))) key l :
  Dict.get d key = Some (JList l) -> ensure_list P d key = d.
Proof. intros H. unfold ensure_list. now rewrite (py_get_Some _ _ _ H). Qed.

(** a clamped probability as [clamp_unit] leaves it *)
Lemma validate_risk_again ids risk r' :
  float_order P ->
  validate_risk P ids risk = Ok (Some r') ->
  validate_risk P ids r' = Ok (Some r').
Proof.
  intros Ho H. destruct risk as [| | | | | | r]; try discriminate. simpl in H.
  apply bind_Ok in H. destruct H as (known & Hk & H).
  destruct known; [| discriminate].
  apply in_strings_true in Hk. destruct Hk as (activity & Ha & Hin).
  apply py_get_str in Ha.
  apply bind_Ok in H. destruct H as (p & _ & H).
  apply bind_Ok in H. destruct H as (n & _ & H).
  apply bind_Ok in H. destruct H as (level_ok & Hl & H).
  injection H as <-.
  set (r1 := Dict.set r "delay_probability" (JFloat (clamp_unit P p))) in *.
  set (r2 := Dict.set r1 "estimated_delay_days" (JInt (Z.max 0 n))) in *.
  set (r3 := if level_ok then r2 else Dict.set r2 "risk_level" (JStr "medium")).
  assert (Ga : Dict.get r3 "activity_id" = Some (JStr activity)).
  { unfold r3, r2, r1. destruct level_ok;
      rewrite !get_set_other by discriminate; exact Ha. }
  assert (Gp : Dict.get r3 "delay_probability"
               = Some (JFloat (clamp_unit P p))).
  { unfold r3, r2. destruct level_ok;
      rewrite !get_set_other by discriminate; apply get_set_same. }
  assert (Gn : Dict.get r3 "estimated_delay_days" = Some (JInt (Z.max 0 n))).
  { unfold r3. destruct level_ok;
      rewrite ?get_set_other by discriminate; apply get_set_same. }
  assert (Gl : exists level, Dict.get r3 "risk_level" = Some (JStr level) /\
                             In level valid_risk_levels).
  { unfold r3. destruct level_ok.
    - apply in_strings_true in Hl. destruct Hl as (level & Hlv & Hlin).
      apply py_get_str in Hlv. eauto.
    - exists "medium"%string. split; [apply get_set_same | simpl; tauto]. }
  destruct Gl as (level & Gl & Hlin).
  change (validate_risk P ids (JDict r3) = Ok (Some (JDict r3))).
  simpl.
  rewrite (py_get_Some _ _ _ Ga), (in_strings_In _ _ Hin). simpl.
  rewrite (py_get_default_Some _ _ _ _ Gp). simpl.
  rewrite (clamp_unit_fixed P p Ho), (set_unchanged _ _ _ Gp).
  rewrite (py_get_default_Some _ _ _ _ Gn). simpl.
  rewrite Z.max_r by lia. rewrite (set_unchanged _ _ _ Gn).
  rewrite (py_get_Some _ _ _ Gl), (in_strings_In _ _ Hlin). reflexivity.
Qed.

Lemma validate_risks_again ids risks : forall out,
  float_order P ->
  validate_risks P ids risks = Ok out -> validate_risks P ids out = Ok out.
Proof.
  induction risks as [| risk rest IH]; intros out Ho H; simpl in H.
  - now injection H as <-.
  - apply bind_Ok in H. destruct H as (checked & Hc & H).
    apply bind_Ok in H. destruct H as (rs & Hr & H). injection H as <-.
    specialize (IH rs Ho Hr). destruct checked as [r |]; [| exact IH].
    simpl. rewrite (validate_risk_again ids risk r Ho Hc). simpl.
    now rewrite IH.
Qed.

(** X19: a validated answer passes the validation unchanged. *)
Theorem validation_is_idempotent data schedule out :
  float_order P ->
  _validate_llm_output P data schedule = Ok out ->
  _validate_llm_output P out schedule = Ok out.
Proof.
  intros Ho H. destruct data as [| | | | | | d0]; try discriminate.
  apply validate_llm_output_steps in H.
  destruct H as (level_ok & conf & risks & validated & Hl & _ & _ & Hv & ->).
  set (d1 := if level_ok then d0
             else Dict.set d0 "overall_risk_level" (JStr "medium")).
  set (d2 := Dict.set d1 "confidence_score" (JFloat (clamp_unit P conf))).
  set (d3 := Dict.set d2 "activity_risks" (JList validated)).
  set (d4 := ensure_list P d3 "key_risks").
  set (d5 := ensure_list P d4 "recommendations").
  assert (Glevel : exists level, Dict.get d5 "overall_risk_level"
                                 = Some (JStr level) /\
                                 In level valid_risk_levels).
  { assert (E : Dict.get d5 "overall_risk_level"
                = Dict.get d1 "overall_risk_level").
    { unfold d5, d4. rewrite !get_ensure_list_other by discriminate.
      unfold d3, d2. now rewrite !get_set_other by discriminate. }
    rewrite E. unfold d1. destruct level_ok.
    - apply in_strings_true in Hl. destruct Hl as (v & Hv' & Hin).
      apply py_get_str in Hv'. eauto.
    - exists "medium"%string. split; [apply get_set_same | simpl; tauto]. }
  destruct Glevel as (level & Glevel & Hlin).
  assert (Gc : Dict.get d5 "confidence_score"
               = Some (JFloat (clamp_unit P conf))).
  { unfold d5, d4. rewrite !get_ensure_list_other by discriminate.
    unfold d3. rewrite get_set_other by discriminate. apply get_set_same. }
  assert (Gr : Dict.get d5 "activity_risks" = Some (JList validated)).
  { unfold d5, d4. rewrite !get_ensure_list_other by discriminate.
    apply get_set_same. }
  destruct (get_ensure_list P d3 "key_risks") as (kr & Gk0).
  assert (Gk : Dict.get d5 "key_risks" = Some (JList kr)).
  { unfold d5. rewrite get_ensure_list_other by discriminate. exact Gk0. }
  destruct (get_ensure_list P d4 "recommendations") as (rc & Grc).
  fold d5 in Grc.
  change (_validate_llm_output P (JDict d5) schedule = Ok (JDict d5)).
  simpl.
  rewrite (py_get_Some _ _ _ Glevel), (in_strings_In _ _ Hlin). simpl.
  rewrite (py_get_default_Some _ _ _ _ Gc). simpl.
  rewrite (clamp_unit_fixed P conf Ho), (set_unchanged _ _ _ Gc).
  rewrite (py_get_default_Some _ _ _ _ Gr). simpl.
  rewrite (validate_risks_again _ risks validated Ho Hv). simpl.
  rewrite (set_unchanged _ _ _ Gr).
  rewrite (ensure_list_fixed _ _ _ Gk), (ensure_list_fixed _ _ _ Grc).
  reflexivity.
Qed.
End LLMOutputMore.

Lemma validated_risks_are_the_known_ones_witness :
  exists d' validated,
    llm_checked = JDict d' /\
    Dict.get d' "activity_risks" = Some (JList validated) /\
    Forall2 (same_elsewhere rational_floats checked_risk_keys)
            (filter (known_risk rational_floats
                       (map id (activities parallel_schedule)))
                    llm_answer_risks)
            validated.
Proof.
  apply (validated_risks_are_the_known_ones rational_floats llm_answer_fields
           parallel_schedule llm_checked llm_answer_risks).
  - vm_compute. reflexivity.
  - reflexivity.
Defined.

Lemma validation_leaves_other_keys_witness :
  same_elsewhere rational_floats checked_keys llm_answer llm_checked.
Proof.
  apply (validation_leaves_other_keys rational_floats llm_answer
           parallel_schedule llm_checked).
  vm_compute. reflexivity.
Defined.

Lemma validation_is_idempotent_witness :
  _validate_llm_output rational_floats llm_checked parallel_schedule
  = Ok llm_checked.
Proof.
  apply (validation_is_idempotent rational_floats llm_answer
           parallel_schedule llm_checked rational_floats_order).
  vm_compute. reflexivity.
Defined.

(* ================================================================== *)
(** ** [_parse_llm_json] *)

Lemma lstrip_app_whitespace pre s :
  all_whitespace pre = true -> lstrip (pre ++ s)%string = lstrip s.
Proof.
  induction pre as [| c r IH]; simpl; [reflexivity |].
  intros H. apply andb_true_iff in H. destruct H as [Hc Hr].
  rewrite Hc. now apply IH.
Qed.

Lemma rstrip_whitespace post : all_whitespace post = true -> rstrip post = EmptyString.
Proof.
  induction post as [| c r IH]; simpl; [reflexivity |].
  intros H. apply andb_true_iff in H. destruct H as [Hc Hr].
  now rewrite (IH Hr), Hc.
Qed.

Lemma rstrip_app a b :
  rstrip (a ++ b)%string
  = match rstrip b with
    | EmptyString => rstrip a
    | b' => (a ++ b')%string
    end.
Proof.
  induction a as [| c r IH]; simpl.
  - now destruct (rstrip b).
  - rewrite IH. destruct (rstrip b) as [| d b']; [reflexivity |].
    destruct r; reflexivity.
Qed.

Lemma rstrip_empty_whitespace s : rstrip s = EmptyString -> all_whitespace s = true.
Proof.
  induction s as [| c r IH]; simpl; [reflexivity |].
  destruct (rstrip r) as [| d r'] eqn:E; [| discriminate].
  destruct (isspace c); [intros _; now apply IH | discriminate].
Qed.

Lemma strip_app_whitespace pre s post :
  all_whitespace pre = true -> all_whitespace post = true ->
  strip (pre ++ s ++ post)%string = strip s.
Proof.
  intros Hpre Hpost. unfold strip.
  rewrite (rstrip_app pre (s ++ post)), (rstrip_app s post).
  rewrite (rstrip_whitespace post Hpost).
  destruct (rstrip s) as [| c r] eqn:E.
  - now rewrite (rstrip_whitespace pre Hpre).
  - now apply lstrip_app_whitespace.
Qed.

Lemma prefix_app p s : String.prefix p (p ++ s)%string = true.
Proof.
  induction p as [| c r IH]; simpl; [now destruct s |].
  destruct (ascii_dec c c) as [_ | N]; [exact IH | now elim N].
Qed.

Lemma prefix_short p s :
  String.length s < String.length p -> String.prefix p s = false.
Proof.
  revert s. induction p as [| c r IH]; intros s H; [simpl in H; lia |].
  destruct s as [| d s]; simpl; [reflexivity |].
  destruct (ascii_dec c d); [| reflexivity]. apply IH. simpl in H. lia.
Qed.

Lemma length_app_str a b :
  String.length (a ++ b)%string = String.length a + String.length b.
Proof. induction a as [| c r IH]; simpl; [reflexivity | now rewrite IH]. Qed.

Lemma substring_app_middle a b c :
  String.substring (String.length a) (String.length b) (a ++ b ++ c)%string
  = b.
Proof.
  induction a as [| x r IH]; simpl; [| exact IH].
  revert c. induction b as [| y b IHb]; intros c; simpl.
  - now destruct c.
  - now rewrite IHb.
Qed.

Lemma slice_app_middle a b c :
  slice (a ++ b ++ c)%string (String.length a)
        (String.length a + String.length b) = b.
Proof.
  unfold slice.
  replace (String.length a + String.length b - String.length a)
    with (String.length b) by lia.
  apply substring_app_middle.
Qed.

Lemma endswith_app p a : endswith p (a ++ p)%string = true.
Proof.
  induction a as [| c r IH]; simpl.
  - destruct p; simpl; [reflexivity |]. now rewrite Ascii.eqb_refl, String.eqb_refl.
  - rewrite IH. apply orb_true_r.
Qed.

Lemma str_find_cons p d r :
  str_find p (String d r)
  = if String.prefix p (String d r) then Some 0
    else option_map S (str_find p r).
Proof. reflexivity. Qed.

Lemma str_rfind_cons p d r :
  str_rfind p (String d r)
  = match str_rfind p r with
    | Some i => Some (S i)
    | None => if String.prefix p (String d r) then Some 0 else None
    end.
Proof. reflexivity. Qed.

Lemma rfind_short p s :
  String.length s < String.length p -> str_rfind p s = None.
Proof.
  induction s as [| c r IH]; intros H.
  - simpl. destruct p; [simpl in H; lia | reflexivity].
  - rewrite str_rfind_cons, IH by (simpl in H; lia).
    now rewrite prefix_short.
Qed.

Lemma rfind_at_end p a :
  p <> EmptyString -> str_rfind p (a ++ p)%string = Some (String.length a).
Proof.
  intros Hp. induction a as [| c r IH].
  - destruct p as [| c p]; [now elim Hp |].
    cbn [append String.length].
    rewrite str_rfind_cons, rfind_short by (simpl; lia).
    pose proof (prefix_app (String c p) EmptyString) as H.
    rewrite append_nil_r in H. now rewrite H.
  - simpl. now rewrite IH.
Qed.

Lemma prefix_char c d s :
  String.prefix (String c EmptyString) (String d s) = Ascii.eqb c d.
Proof.
  simpl. destruct (ascii_dec c d) as [-> | N].
  - rewrite Ascii.eqb_refl. now destruct s.
  - symmetry. now apply Ascii.eqb_neq.
Qed.

Lemma find_char c a b :
  has_char c a = false ->
  str_find (String c EmptyString) (a ++ String c b)%string
  = Some (String.length a).
Proof.
  induction a as [| d r IH]; intros H; cbn [append String.length].
  - now rewrite str_find_cons, prefix_char, Ascii.eqb_refl.
  - simpl in H. apply orb_false_iff in H. destruct H as [Hd Hr].
    now rewrite str_find_cons, prefix_char, Hd, (IH Hr).
Qed.

Lemma rfind_absent c b :
  has_char c b = false -> str_rfind (String c EmptyString) b = None.
Proof.
  induction b as [| d r IH]; intros H; [reflexivity |].
  simpl in H. apply orb_false_iff in H. destruct H as [Hd Hr].
  now rewrite str_rfind_cons, (IH Hr), prefix_char, Hd.
Qed.

Lemma rfind_char c a b :
  has_char c b = false ->
  str_rfind (String c EmptyString) (a ++ String c b)%string
  = Some (String.length a).
Proof.
  intros H. induction a as [| d r IH]; cbn [append String.length].
  - now rewrite str_rfind_cons, (rfind_absent c b H), prefix_char,
      Ascii.eqb_refl.
  - now rewrite str_rfind_cons, IH.
Qed.

Lemma has_char_app c a b :
  has_char c (a ++ b)%string = has_char c a || has_char c b.
Proof.
  induction a as [| d r IH]; simpl; [reflexivity |].
  now rewrite IH, orb_assoc.
Qed.

Lemma slice_suffix a b :
  slice (a ++ b)%string (String.length a) (String.length (a ++ b)%string) = b.
Proof.
  rewrite length_app_str.
  pose proof (slice_app_middle a b EmptyString) as H.
  now rewrite append_nil_r in H.
Qed.

Lemma slice_prefix a b : slice (a ++ b)%string 0 (String.length a) = a.
Proof. exact (slice_app_middle EmptyString a b). Qed.

Lemma strip_fenced m :
  strip (fence ++ m ++ fence)%string = (fence ++ m ++ fence)%string.
Proof.
  unfold strip.
  replace (fence ++ m ++ fence)%string with ((fence ++ m) ++ fence)%string
    by apply append_assoc_str.
  rewrite rstrip_app. reflexivity.
Qed.

Section ParseFacts.
Variable J : Type.
Variable loads : string -> option J.

(** X20: whitespace before and after the text of the answer does not change
    what [_parse_llm_json] returns. *)
Theorem whitespace_around_answer_is_ignored pre text post :
  all_whitespace pre = true -> all_whitespace post = true ->
  _parse_llm_json J loads (pre ++ text ++ post)%string
  = _parse_llm_json J loads text.
Proof.
  intros Hpre Hpost. unfold _parse_llm_json.
  now rewrite (strip_app_whitespace pre text post Hpre Hpost).
Qed.

(** X21: an answer inside a Markdown code fence, with or without a language
    after the opening fence, is read as the text between the first line
    and the closing fence: when [json.loads] accepts that text, stripped,
    its result is returned. *)
Theorem fenced_answer_is_read lang body data :
  has_char "010"%char lang = false ->
  loads (strip body) = Some data ->
  _parse_llm_json J loads (fence ++ lang ++ newline ++ body ++ fence)%string
  = Some data.
Proof.
  intros Hlang Hload. unfold _parse_llm_json.
  assert (Hstrip : strip (fence ++ lang ++ newline ++ body ++ fence)%string
                   = (fence ++ lang ++ newline ++ body ++ fence)%string).
  { replace (fence ++ lang ++ newline ++ body ++ fence)%string
      with (fence ++ (lang ++ newline ++ body) ++ fence)%string
      by (rewrite !append_assoc_str; reflexivity).
    apply strip_fenced. }
  rewrite Hstrip. unfold startswith. rewrite prefix_app.
  assert (Hafter : after_first newline
                     (fence ++ lang ++ newline ++ body ++ fence)%string
                   = (body ++ fence)%string).
  { unfold after_first, newline.
    replace (fence ++ lang ++ String "010" EmptyString ++ body ++ fence)%string
      with ((fence ++ lang) ++ String "010"%char (body ++ fence))%string
      by (rewrite append_assoc_str; reflexivity).
    rewrite find_char
      by (rewrite has_char_app, Hlang; reflexivity).
    replace ((fence ++ lang) ++ String "010"%char (body ++ fence))%string
      with (((fence ++ lang) ++ String "010"%char EmptyString)
            ++ (body ++ fence))%string
      by (rewrite (append_assoc_str (fence ++ lang)); reflexivity).
    replace (String.length (fence ++ lang)%string
             + String.length (String "010"%char EmptyString))
      with (String.length
              ((fence ++ lang) ++ String "010"%char EmptyString)%string)
      by apply length_app_str.
    apply slice_suffix. }
  rewrite Hafter, endswith_app.
  unfold before_last. rewrite rfind_at_end by discriminate.
  rewrite slice_prefix. now rewrite Hload.
Qed.

(** X22: when the answer as a whole is not JSON and has no code fence, but
    holds a brace-delimited part with no opening brace before it and no
    closing brace after it, [_parse_llm_json] returns what [json.loads]
    makes of that part. *)
Theorem embedded_object_is_read prose object rest :
  let found := (String "{" object ++ String "}" EmptyString)%string in
  let text := (prose ++ found ++ rest)%string in
  strip text = text ->
  startswith fence text = false ->
  endswith fence text = false ->
  has_char "{" prose = false ->
  has_char "}" rest = false ->
  loads text = None ->
  _parse_llm_json J loads text = loads found.
Proof.
  intros found text Hstrip Hstart Hend Hprose Hrest Hload.
  unfold _parse_llm_json. rewrite Hstrip, Hstart, Hend, Hstrip, Hload.
  assert (Hfind : str_find "{" text = Some (String.length prose)).
  { unfold text, found. now apply (find_char "{" prose). }
  assert (Hrfind : str_rfind "}" text
                   = Some (String.length (prose ++ String "{" object)%string)).
  { unfold text, found.
    replace (prose ++ (String "{" object ++ String "}" EmptyString) ++ rest)%string
      with ((prose ++ String "{" object) ++ String "}" rest)%string.
    - now apply rfind_char.
    - rewrite !append_assoc_str. reflexivity. }
  rewrite Hfind, Hrfind.
  assert (Hlen : String.length (prose ++ String "{" object)%string + 1
                 = String.length prose + String.length found).
  { unfold found. rewrite !length_app_str. simpl. lia. }
  rewrite Hlen.
  assert (Hlt : (String.length prose
                 <? String.length prose + String.length found) = true).
  { apply Nat.ltb_lt. unfold found. simpl. lia. }
  rewrite Hlt. unfold text. now rewrite slice_app_middle.
Qed.
End ParseFacts.

Lemma whitespace_around_answer_is_ignored_witness :
  _parse_llm_json unit loads_empty_object (" " ++ "{}" ++ newline)%string
  = _parse_llm_json unit loads_empty_object "{}".
Proof.
  apply (whitespace_around_answer_is_ignored unit loads_empty_object
           " " "{}" newline); reflexivity.
Defined.

Lemma fenced_answer_is_read_witness :
  _parse_llm_json unit loads_empty_object
    (fence ++ "json" ++ newline ++ ("{}" ++ newline) ++ fence)%string
  = Some tt.
Proof.
  apply (fenced_answer_is_read unit loads_empty_object
           "json" ("{}" ++ newline)%string tt); reflexivity.
Defined.

Lemma embedded_object_is_read_witness :
  _parse_llm_json unit loads_empty_object "Result: {} done"
  = loads_empty_object "{}".
Proof.
  apply (embedded_object_is_read unit loads_empty_object
           "Result: " EmptyString " done"); reflexivity.
Defined.

(* ================================================================== *)
(** ** The endpoints of [app/main.py] *)

Lemma index_keys acts :
  Dict.keys (index_activities acts) = first_occurrences (map id acts).
Proof.
  unfold index_activities.
  rewrite (keys_follow acts nx.empty_graph Dict.empty eq_refl).
  apply (nodes_add_nodes acts nx.empty_graph).
Qed.

Lemma index_get_last acts k :
  Dict.get (index_activities acts) k = last_with_id acts k.
Proof.
  unfold index_activities. rewrite index_last. simpl.
  now destruct (last_with_id acts k).
Qed.

Lemma comprehension_map {A B} (f : A -> option B) (g : A -> B) l :
  (forall x, In x l -> f x = Some (g x)) ->
  comprehension f l = Some (map g l).
Proof.
  induction l as [| x r IH]; intros H; simpl; [reflexivity |].
  rewrite (H x (or_introl eq_refl)), IH; [reflexivity |].
  intros y Hy. apply H. now right.
Qed.

Lemma In_firstn {A} n (l : list A) x : In x (firstn n l) -> In x l.
Proof.
  intros H. rewrite <- (firstn_skipn n l). apply in_or_app. now left.
Qed.

Lemma NoDup_firstn_prefix {A} n (l : list A) : NoDup l -> NoDup (firstn n l).
Proof.
  intros H. rewrite <- (firstn_skipn n l) in H.
  exact (NoDup_app_remove_r _ _ H).
Qed.

(** the entry of the fallback report for [aid] *)
Lemma fallback_risks N P schedule :
  let engine := built schedule in
  let high := find_high_risk_activities N engine in
  exists entry,
    comprehension (fallback_activity_risk P engine high)
                  (firstn 20 (Dict.keys (engine_activities engine)))
    = Some (map entry (firstn 20 (Dict.keys (engine_activities engine)))) /\
    forall aid,
      activity_id (entry aid) = aid /\
      (In aid (Dict.keys (engine_activities engine)) ->
       fallback_activity_risk P engine high aid = Some (entry aid)).
Proof.
  intros engine high.
  set (entry := fun aid =>
         {| activity_id := aid;
            activity_name :=
              match Dict.get (engine_activities engine) aid with
              | Some a => name a
              | None => EmptyString
              end;
            risk_level := if mem aid high then HIGH else MEDIUM;
            delay_probability :=
              if mem aid high then float_0_6 P else float_0_3 P;
            estimated_delay_days := 0;
            risk_factors :=
              if mem aid high then ["High dependency count"%string] else [];
            mitigation_suggestions := [] |}).
  assert (He : forall aid, In aid (Dict.keys (engine_activities engine)) ->
                           fallback_activity_risk P engine high aid
                           = Some (entry aid)).
  { intros aid Hin. apply get_Some_In_keys in Hin.
    unfold fallback_activity_risk, entry.
    destruct (Dict.get (engine_activities engine) aid); [reflexivity |].
    now elim Hin. }
  exists entry. split.
  - apply comprehension_map. intros aid Hin. apply He.
    now apply In_firstn in Hin.
  - intros aid. split; [reflexivity | apply He].
Qed.

(** the [OverflowError] of the ranking ends the request: the handler
    answers 500 *)
Lemma analyse_schedule_overflow N P sec schedule :
  find_high_risk_activities_raises (built schedule) = true ->
  analyse_schedule N P sec schedule = None.
Proof.
  intros H. unfold analyse_schedule, run_find_high_risk_activities.
  fold (built schedule). now rewrite H.
Qed.

(** X23: without the language model, and with durations whose thirtieth
    is within the float range, [analyse_schedule] does not fail; its
    report lists the first twenty distinct identifiers of the schedule in
    the order of their first occurrence, each under the name of the last
    activity with that identifier, and never more entries than it counts
    as analysed. *)
Theorem fallback_report_entries N P sec schedule :
  let acts := activities schedule in
  durations_in_float_range schedule = true ->
  exists report,
    analyse_schedule N P sec schedule = Some report /\
    map activity_id (activity_risks report)
    = firstn 20 (first_occurrences (map id acts)) /\
    (forall e, In e (activity_risks report) ->
       exists a, last_with_id acts (activity_id e) = Some a /\
                 activity_name e = name a) /\
    List.length (activity_risks report) <= activities_analysed report.
Proof.
  intros acts Hrange.
  destruct (fallback_risks N P schedule) as (entry & Hc & He).
  unfold analyse_schedule. fold (built schedule).
  rewrite (run_in_float_range N schedule Hrange), Hc.
  eexists. split; [reflexivity |].
  cbn [activity_risks activities_analysed].
  rewrite built_activities in *. fold acts in He |- *.
  assert (Hids : map activity_id
                   (map entry (firstn 20 (Dict.keys (index_activities acts))))
                 = firstn 20 (first_occurrences (map id acts))).
  { rewrite map_map, <- index_keys.
    rewrite (map_ext _ (fun x => x)) by (intros x; apply He).
    apply map_id. }
  split; [exact Hids | split].
  - intros e Hin. apply in_map_iff in Hin. destruct Hin as (aid & <- & Hin).
    apply In_firstn in Hin. destruct (He aid) as (Hid & Hf).
    specialize (Hf Hin). unfold fallback_activity_risk in Hf.
    rewrite built_activities in Hf. fold acts in Hf.
    rewrite index_get_last in Hf. rewrite Hid.
    destruct (last_with_id acts aid) as [a |]; [| discriminate].
    exists a. split; [reflexivity |]. injection Hf as <-. reflexivity.
  - rewrite length_map, length_firstn, index_keys.
    assert (Hl : forall l acc,
               List.length
                 (fold_left (fun acc x => if mem x acc then acc else acc ++ [x])
                            l acc)
               <= List.length acc + List.length l).
    { induction l as [| x l IH]; intros acc; simpl; [lia |].
      specialize (IH (if mem x acc then acc else acc ++ [x])).
      destruct (mem x acc); [| rewrite length_app in IH; simpl in IH]; lia. }
    specialize (Hl (map id acts) []). rewrite length_map in Hl. simpl in Hl.
    unfold first_occurrences. lia.
Qed.

Lemma fallback_report_entries_witness :
  exists report,
    analyse_schedule rational_numerics rational_floats HIGHWAYS six_schedule
    = Some report /\
    map activity_id (activity_risks report)
    = ["A"; "B"; "C"; "D"; "E"; "F"]%string.
Proof.
  destruct (fallback_report_entries rational_numerics rational_floats
              HIGHWAYS six_schedule) as (report & Hr & Hids & _).
  - vm_compute. reflexivity.
  - exists report. split; [exact Hr | exact Hids].
Defined.

Lemma high_risk_distinct N schedule :
  NoDup (find_high_risk_activities N (built schedule)) /\
  incl (find_high_risk_activities N (built schedule))
       (nx.nodes (schedule_graph schedule)).
Proof.
  set (G := schedule_graph schedule).
  destruct (nx.nodes G) as [| n0 ns] eqn:En.
  { unfold find_high_risk_activities.
    rewrite (graph_truthy_empty schedule En).
    split; [constructor | intros x []]. }
  rewrite <- En.
  assert (Hn : nx.nodes G <> []) by (rewrite En; discriminate).
  unfold find_high_risk_activities.
  rewrite (graph_truthy_built schedule Hn). rewrite built_activities. fold G.
  set (items := risk_scores N G (index_activities (activities schedule))).
  assert (Hp : Permutation (map fst (sorted_desc N items)) (nx.nodes G)).
  { rewrite (sorted_desc_perm N items). unfold items, risk_scores.
    rewrite map_map. simpl. now rewrite map_id. }
  rewrite <- firstn_map. split.
  - apply NoDup_firstn_prefix.
    apply (Permutation_NoDup (Permutation_sym Hp)).
    apply schedule_graph_NoDup.
  - intros x Hx. apply In_firstn in Hx. now apply (Permutation_in _ Hp).
Qed.

Lemma count_members (l h : list string) :
  NoDup l ->
  List.length (filter (fun x => mem x h) l) <= List.length h /\
  (NoDup h -> incl h l ->
   List.length (filter (fun x => mem x h) l) = List.length h).
Proof.
  intros Hl.
  assert (Hf : NoDup (filter (fun x => mem x h) l)) by now apply NoDup_filter.
  assert (Hi : incl (filter (fun x => mem x h) l) h).
  { intros x Hx. apply filter_In in Hx. now apply mem_In. }
  split.
  - now apply NoDup_incl_length.
  - intros Hh Hhl. apply Nat.le_antisymm; [now apply NoDup_incl_length |].
    apply NoDup_incl_length; [exact Hh |].
    intros x Hx. apply filter_In. split; [now apply Hhl | now apply mem_In].
Qed.

(** X24: with durations whose thirtieth is within the float range, the
    report without the language model flags an entry high, with
    probability 0.6 and one risk factor, exactly when
    [find_high_risk_activities] returned its activity, and medium with
    probability 0.3 otherwise; at most [max(1, n // 5)] entries are flagged
    for [n] nodes, and exactly that many when there are between one and
    twenty nodes. *)
Theorem fallback_report_flags N P sec schedule :
  let G := schedule_graph schedule in
  let n := nx.number_of_nodes G in
  let high := find_high_risk_activities N (built schedule) in
  durations_in_float_range schedule = true ->
  exists report,
    analyse_schedule N P sec schedule = Some report /\
    (forall e, In e (activity_risks report) ->
       (In (activity_id e) high /\ risk_level e = HIGH /\
        delay_probability e = float_0_6 P /\
        risk_factors e = ["High dependency count"%string])
       \/
       (~ In (activity_id e) high /\ risk_level e = MEDIUM /\
        delay_probability e = float_0_3 P /\ risk_factors e = [])) /\
    high_entries (activity_risks report) <= Nat.max 1 (n / 5) /\
    (1 <= n <= 20 ->
     high_entries (activity_risks report) = Nat.max 1 (n / 5)).
Proof.
  intros G n high Hrange.
  destruct (fallback_risks N P schedule) as (entry & Hc & He).
  unfold analyse_schedule. fold (built schedule).
  rewrite (run_in_float_range N schedule Hrange), Hc.
  eexists. split; [reflexivity |]. cbn [activity_risks].
  fold high in He |- *.
  set (keys := Dict.keys (engine_activities (built schedule))) in *.
  assert (Hkeys : keys = nx.nodes G).
  { unfold keys, G, nx.nodes. rewrite built_activities, schedule_graph_node.
    apply (keys_follow (activities schedule) nx.empty_graph Dict.empty eq_refl). }
  assert (Hentry : forall aid, In aid keys ->
            activity_id (entry aid) = aid /\
            risk_level (entry aid) = (if mem aid high then HIGH else MEDIUM) /\
            delay_probability (entry aid)
            = (if mem aid high then float_0_6 P else float_0_3 P) /\
            risk_factors (entry aid)
            = (if mem aid high then ["High dependency count"%string] else [])).
  { intros aid Hin. destruct (He aid) as (Hid & Hf). specialize (Hf Hin).
    unfold fallback_activity_risk in Hf.
    destruct (Dict.get (engine_activities (built schedule)) aid);
      [| discriminate].
    injection Hf as <-. simpl. auto. }
  assert (Hgen : forall l, (forall x, In x l -> In x keys) ->
            high_entries (map entry l)
            = List.length (filter (fun x => mem x high) l)).
  { unfold high_entries. induction l as [| x l IH]; intros Hin; [reflexivity |].
    simpl. destruct (Hentry x (Hin x (or_introl eq_refl))) as (_ & -> & _).
    specialize (IH (fun y Hy => Hin y (or_intror Hy))).
    destruct (mem x high); simpl; rewrite IH; reflexivity. }
  pose proof (Hgen (firstn 20 keys) (fun x => In_firstn 20 keys x)) as Hcount.
  destruct (high_risk_distinct N schedule) as (Hnd & Hincl).
  fold high in Hnd, Hincl. fold G in Hincl.
  assert (Hk : NoDup keys) by (rewrite Hkeys; apply schedule_graph_NoDup).
  pose proof (high_risk_count N schedule) as Hlen.
  cbv zeta in Hlen. fold G in Hlen. fold n in Hlen. fold high in Hlen.
  split; [| split].
  - intros e Hin. apply in_map_iff in Hin. destruct Hin as (aid & <- & Hin).
    apply In_firstn in Hin.
    destruct (Hentry aid Hin) as (-> & -> & -> & ->).
    destruct (mem aid high) eqn:E.
    + left. apply mem_In in E. auto.
    + right. apply mem_false in E. auto.
  - rewrite Hcount.
    destruct (count_members (firstn 20 keys) high
                (NoDup_firstn_prefix 20 keys Hk)) as (Hle & _).
    destruct (n =? 0); lia.
  - intros Hn. rewrite Hcount.
    assert (Hall : firstn 20 keys = keys).
    { apply firstn_all2. rewrite Hkeys. fold (nx.number_of_nodes G).
      fold n. lia. }
    rewrite Hall.
    destruct (count_members keys high Hk) as (_ & Heq).
    rewrite Heq; [| exact Hnd | now rewrite Hkeys].
    destruct (n =? 0) eqn:E0; [apply Nat.eqb_eq in E0; lia | exact Hlen].
Qed.

Lemma fallback_report_flags_witness :
  exists report,
    analyse_schedule rational_numerics rational_floats HIGHWAYS six_schedule
    = Some report /\
    high_entries (activity_risks report) = 1.
Proof.
  destruct (fallback_report_flags rational_numerics rational_floats
              HIGHWAYS six_schedule) as (report & Hr & _ & _ & Hn).
  - vm_compute. reflexivity.
  - exists report. split; [exact Hr |]. apply Hn. vm_compute. lia.
Defined.

(* ------------------------------------------------------------------ *)
(** *** [validate_schedule] *)

Lemma In_references acts u v :
  In (u, v) (references acts) <->
  exists a, In a acts /\ id a = v /\ In u (predecessors a).
Proof.
  unfold references. rewrite in_flat_map. split.
  - intros (a & Ha & Hin). apply in_map_iff in Hin.
    destruct Hin as (p & [= <- <-] & Hp). eauto.
  - intros (a & Ha & <- & Hu). exists a. split; [exact Ha |].
    apply in_map_iff. eauto.
Qed.

Lemma NoDup_references acts :
  NoDup (map id acts) ->
  (forall a, In a acts -> NoDup (predecessors a)) ->
  NoDup (references acts).
Proof.
  induction acts as [| a acts IH]; intros Hid Hp; [constructor |].
  simpl in Hid. inversion Hid as [| ? ? Hna Hid']; subst.
  change (references (a :: acts))
    with (map (fun p => (p, id a)) (predecessors a) ++ references acts).
  apply NoDup_app.
  - assert (H : NoDup (predecessors a)) by (apply Hp; now left).
    induction H as [| p l Hn H IHl]; simpl; constructor; [| exact IHl].
    intros Hin. apply in_map_iff in Hin.
    destruct Hin as (q & [= ->] & Hq). contradiction.
  - apply IH; [exact Hid' |]. intros b Hb. apply Hp. now right.
  - intros [u v] H1 H2. apply in_map_iff in H1.
    destruct H1 as (p & [= <- <-] & _).
    apply In_references in H2. destruct H2 as (b & Hb & Hv & _).
    apply Hna. rewrite <- Hv. now apply in_map.
Qed.

(** X25: for a schedule that passed [validate_dependency_references], with
    distinct identifiers and no predecessor listed twice by one activity,
    [validate_schedule] reports as many dependencies as there are
    predecessor references and as many activities as the graph has
    nodes. *)
Theorem dependency_count_of_validated_schedule nm acts :
  let schedule := {| project_name := nm; activities := acts |} in
  let response := validate_schedule schedule in
  validate_dependency_references acts = inr acts ->
  NoDup (map id acts) ->
  (forall a, In a acts -> NoDup (predecessors a)) ->
  dependency_count response
  = list_sum (map (fun a => List.length (predecessors a)) acts) /\
  activity_count response = nx.number_of_nodes (schedule_graph schedule).
Proof.
  intros schedule response Hv Hid Hp.
  assert (Hk : forall a p, In a acts -> In p (predecessors a) ->
                           In p (map id acts)).
  { apply check_activities_None. unfold validate_dependency_references in Hv.
    destruct (check_activities (map id acts) acts);
      [discriminate | reflexivity]. }
  set (G := schedule_graph schedule).
  assert (Hnodes : nx.nodes G = map id acts)
    by now apply (schedule_graph_nodes_distinct schedule).
  assert (Hedges : nx.number_of_edges G
                   = list_sum (map (fun a => List.length (predecessors a))
                                   acts)).
  { unfold nx.number_of_edges.
    transitivity (List.length (references acts)).
    - apply Permutation_length. apply NoDup_Permutation.
      + apply add_edges_NoDup. rewrite add_nodes_edges. constructor.
      + now apply NoDup_references.
      + intros [u v]. rewrite In_references.
        change (In (u, v) (nx._edges G)) with (edge G u v).
        unfold G. rewrite schedule_graph_edge. simpl. split.
        * intros (a & Ha & Hv' & Hu & _). eauto.
        * intros (a & Ha & Hv' & Hu). exists a. repeat split; auto.
          now apply (Hk a u).
    - unfold references. rewrite length_flat_map. f_equal.
      apply map_ext. intros a. apply length_map. }
  split.
  - change (dependency_count response)
      with (match graph_truthy (graph (built schedule)) with
            | Some G => nx.number_of_edges G
            | None => 0
            end).
    rewrite built_graph. fold G. unfold graph_truthy, nx.number_of_nodes.
    destruct (List.length (nx.nodes G) =? 0) eqn:E; [| exact Hedges].
    apply Nat.eqb_eq in E. rewrite Hnodes, length_map in E.
    destruct acts; [reflexivity | discriminate].
  - change (activity_count response) with (List.length acts).
    unfold nx.number_of_nodes. fold G. now rewrite Hnodes, length_map.
Qed.

Lemma dependency_count_of_validated_schedule_witness :
  dependency_count (validate_schedule parallel_schedule) = 4 /\
  activity_count (validate_schedule parallel_schedule) = 4.
Proof.
  destruct (dependency_count_of_validated_schedule
              "Parallel Project" (activities parallel_schedule)) as (H1 & H2).
  - reflexivity.
  - vm_compute. repeat constructor; simpl; intuition discriminate.
  - intros a Ha. vm_compute in Ha.
    repeat (destruct Ha as [<- | Ha]; [vm_compute; repeat constructor;
                                       simpl; intuition discriminate |]).
    destruct Ha.
  - split; [exact H1 | exact H2].
Defined.

(* ================================================================== *)
(** ** The [successors] field *)

Section Successors.
Variable g : ScheduleActivity -> list string.
Local Notation "'f'" := (with_successors g).

Lemma set_map_values (d : Dict.t ScheduleActivity) k v :
  Dict.set (map_values f d) k (f v) = map_values f (Dict.set d k v).
Proof.
  induction d as [| [k' v'] r IH]; simpl; [reflexivity |].
  destruct (String.eqb k' k); simpl; [reflexivity | now rewrite IH].
Qed.

Lemma get_map_values (d : Dict.t ScheduleActivity) k :
  Dict.get (map_values f d) k = option_map f (Dict.get d k).
Proof.
  induction d as [| [k' v'] r IH]; simpl; [reflexivity |].
  destruct (String.eqb k' k); [reflexivity | exact IH].
Qed.

Lemma contains_map_values (d : Dict.t ScheduleActivity) k :
  Dict.contains (map_values f d) k = Dict.contains d k.
Proof.
  unfold Dict.contains. rewrite get_map_values. now destruct (Dict.get d k).
Qed.

Lemma index_map_values acts : forall d : Dict.t ScheduleActivity,
  fold_left (fun d a => Dict.set d (id a) a) (map f acts) (map_values f d)
  = map_values f (fold_left (fun d a => Dict.set d (id a) a) acts d).
Proof.
  induction acts as [| a acts IH]; intros d; [reflexivity |].
  simpl. rewrite <- IH. f_equal. apply set_map_values.
Qed.

Lemma add_nodes_successors acts : forall G,
  add_nodes G (map f acts) = add_nodes G acts.
Proof.
  unfold add_nodes. induction acts as [| a acts IH]; intros G; [reflexivity |].
  simpl. apply IH.
Qed.

Lemma add_edges_successors index acts : forall G,
  add_edges (map_values f index) G (map f acts) = add_edges index G acts.
Proof.
  unfold add_edges. induction acts as [| a acts IH]; intros G; [reflexivity |].
  simpl. rewrite <- IH. f_equal.
  unfold add_pred_edges. simpl. generalize G.
  induction (predecessors a) as [| p ps IHp]; intros G0; [reflexivity |].
  simpl. rewrite contains_map_values. apply IHp.
Qed.

Lemma path_duration_successors index p :
  path_duration (map_values f index) p = path_duration index p.
Proof.
  unfold path_duration. f_equal. apply map_ext. intros k.
  rewrite get_map_values. now destruct (Dict.get index k).
Qed.

Lemma longest_successors index paths :
  longest (map_values f index) paths = longest index paths.
Proof.
  unfold longest. generalize (@nil string, 0).
  induction paths as [| p ps IH]; intros acc; [reflexivity |].
  simpl. rewrite IH. f_equal. unfold keep_longer.
  now rewrite path_duration_successors.
Qed.

Lemma find_bottleneck_successors index p :
  find_bottleneck (map_values f index) p = find_bottleneck index p.
Proof.
  unfold find_bottleneck. f_equal. generalize (@None string, 0).
  induction p as [| k p IH]; intros acc; [reflexivity |].
  simpl. rewrite IH. f_equal. unfold bottleneck_step.
  rewrite get_map_values. now destruct (Dict.get index k).
Qed.

Lemma assess_path_risk_successors index p :
  _assess_path_risk (map_values f index) p = _assess_path_risk index p.
Proof.
  unfold _assess_path_risk. now rewrite path_duration_successors.
Qed.

Lemma zero_duration_successors index :
  zero_duration_issues (map_values f index) = zero_duration_issues index.
Proof.
  unfold zero_duration_issues, zero_duration_ids.
  replace (map id (filter (fun a => duration_days a =? 0)
                          (Dict.values (map_values f index))))
    with (map id (filter (fun a => duration_days a =? 0) (Dict.values index)));
    [reflexivity |].
  unfold Dict.values, map_values.
  induction index as [| [k a] r IH]; [reflexivity |].
  simpl. destruct (duration_days a =? 0); simpl; now rewrite IH.
Qed.

Lemma risk_scores_successors N G index :
  risk_scores N G (map_values f index) = risk_scores N G index.
Proof.
  unfold risk_scores. apply map_ext. intros node. f_equal.
  unfold risk_score. rewrite get_map_values.
  now destruct (Dict.get index node).
Qed.

Lemma built_successors schedule :
  built (replace_successors g schedule)
  = {| graph := Some (schedule_graph schedule);
       engine_activities :=
         map_values f (index_activities (activities schedule)) |}.
Proof.
  unfold built, build_graph, replace_successors. simpl.
  assert (Hi : index_activities (map f (activities schedule))
               = map_values f (index_activities (activities schedule))).
  { unfold index_activities.
    apply (index_map_values (activities schedule) Dict.empty). }
  rewrite Hi, add_nodes_successors, add_edges_successors. reflexivity.
Qed.

(** X26: whatever the [successors] of the activities are replaced by, the
    graph, the integrity report, the critical path and the high-risk
    activities stay the same, and [validate_dependency_references] accepts
    the schedule as before: no function reads the field. *)
Theorem successors_are_ignored N schedule :
  let schedule' := replace_successors g schedule in
  schedule_graph schedule' = schedule_graph schedule /\
  validate_schedule_integrity (built schedule')
  = validate_schedule_integrity (built schedule) /\
  find_critical_path (built schedule') = find_critical_path (built schedule) /\
  find_high_risk_activities N (built schedule')
  = find_high_risk_activities N (built schedule) /\
  (validate_dependency_references (activities schedule')
   = inr (activities schedule') <->
   validate_dependency_references (activities schedule)
   = inr (activities schedule)).
Proof.
  intros schedule'.
  assert (HG : schedule_graph schedule' = schedule_graph schedule).
  { change (schedule_graph schedule')
      with (match graph (built schedule') with
            | Some G => G
            | None => nx.empty_graph
            end).
    unfold schedule'. now rewrite built_successors. }
  split; [exact HG | split; [| split; [| split]]].
  - unfold validate_schedule_integrity, schedule'.
    rewrite built_successors. cbn [graph engine_activities].
    rewrite built_graph, ?built_activities.
    destruct (graph_truthy (Some (schedule_graph schedule))); [| reflexivity].
    now rewrite zero_duration_successors.
  - unfold find_critical_path, schedule'.
    rewrite built_successors. cbn [graph engine_activities].
    rewrite built_graph, ?built_activities.
    destruct (graph_truthy (Some (schedule_graph schedule))) as [G |];
      [| reflexivity].
    destruct (nx.number_of_nodes G =? 0); [reflexivity |].
    assert (Hf : fallback_result
                   {| graph := Some (schedule_graph schedule);
                      engine_activities :=
                        map_values f (index_activities (activities schedule)) |}
                   G
                 = fallback_result (built schedule) G).
    { unfold fallback_result. cbn [engine_activities].
      now rewrite built_activities, path_duration_successors. }
    assert (Hl : longest_path_result
                   {| graph := Some (schedule_graph schedule);
                      engine_activities :=
                        map_values f (index_activities (activities schedule)) |}
                   G
                 = longest_path_result (built schedule) G).
    { unfold longest_path_result. cbn [engine_activities].
      rewrite built_activities, longest_successors.
      destruct (longest (index_activities (activities schedule))
                        (candidate_paths G)) as [p d].
      now rewrite find_bottleneck_successors, assess_path_risk_successors. }
    destruct (sources G); [exact Hf |]. destruct (sinks G); [exact Hf | exact Hl].
  - unfold find_high_risk_activities, schedule'.
    rewrite built_successors. cbn [graph engine_activities].
    rewrite built_graph, ?built_activities.
    destruct (graph_truthy (Some (schedule_graph schedule))); [| reflexivity].
    now rewrite risk_scores_successors.
  - assert (Hc : forall acts ids,
               check_activities ids (map f acts) = check_activities ids acts).
    { induction acts as [| a acts IH]; intros ids; [reflexivity |].
      simpl. now rewrite IH. }
    unfold validate_dependency_references, schedule', replace_successors.
    simpl. rewrite map_map. simpl. rewrite Hc.
    change (map (fun x => id x) (activities schedule))
      with (map id (activities schedule)).
    destruct (check_activities (map id (activities schedule))
                               (activities schedule));
      split; intros H; try discriminate; reflexivity.
Qed.
End Successors.
